(** * Escape-time (Mandelbrot) benchmark: reference loop, WGSL kernel, colouring

    A shallow embedding of the compute benchmark page of the repository:

    - [calculateMandelbrotCPU], the sequential TypeScript evaluator;
    - [main], the WGSL compute kernel held in [computeShaderWGSL], and
      [handleRun_gpu], the host code that marshals the parameters and
      dispatches it;
    - [drawMandelbrot], the loop that colours the escape counts.

    Numbers are modelled as the code has them.  A JavaScript [number] is an
    IEEE-754 binary64 value and a WGSL [f32] is a binary32 value; both are
    [spec_float]s computed with the Standard Library's executable
    specification of IEEE arithmetic ([SpecFloat], round to nearest even) at
    precision 53 and 24.  JavaScript numbers that only ever hold integers
    (loop counters, sizes, indices) are modelled by [Z]; what binary64 does to
    them at the edge of the exact range is written out ([js_incr]).  Typed
    arrays are lists, written by index with the wrap-around or clamping of
    their element type. *)

From Stdlib Require Import ZArith Lia Bool QArith Qabs Qround.
From Stdlib Require Import Floats.SpecFloat.
From stdpp Require Import base list strings gmap.

Open Scope Z_scope.

(** ** Floating-point formats *)

Record format := Format { fprec : Z; femax : Z }.

(** WGSL [f32]. *)
Definition binary32 : format := Format 24 128.
(** JavaScript [number]. *)
Definition binary64 : format := Format 53 1024.

Definition fadd (F : format) := SFadd (fprec F) (femax F).
Definition fsub (F : format) := SFsub (fprec F) (femax F).
Definition fmul (F : format) := SFmul (fprec F) (femax F).
Definition fdiv (F : format) := SFdiv (fprec F) (femax F).
Definition fabs (v : spec_float) := SFabs v.
Definition flt (a b : spec_float) : bool := SFltb a b.
Definition fle (a b : spec_float) : bool := SFleb a b.

(** The value [m * 2^e] rounded into the format: decimal literals of the
    sources are all dyadic ([0.75 = 3 * 2^-2], [2.5 = 5 * 2^-1], ...), and an
    integer is [m * 2^0]. *)
Definition dyadic (F : format) (m e : Z) : spec_float :=
  binary_normalize (fprec F) (femax F) m e false.
Definition of_Z (F : format) (z : Z) : spec_float := dyadic F z 0.

(** Truncation toward zero of a float, [None] on NaN and infinities. *)
Definition ftrunc (v : spec_float) : option Z :=
  match v with
  | S754_zero _ => Some 0
  | S754_finite s m e =>
      let a := if 0 <=? e then Z.pos m * 2 ^ e else Z.pos m / 2 ^ (- e) in
      Some (if s then - a else a)
  | _ => None
  end.

(** ** Bounded loops

    Every loop of the sources is a [while] (a [for] is a [while] with its
    increment appended to the body).  [fuel] bounds the number of times the
    condition is evaluated; [None] means the fuel ran out before the loop
    was left. *)

Fixpoint while {S : Type} (fuel : nat) (cond : S -> bool)
    (body : S -> option S) (s : S) : option S :=
  match fuel with
  | O => None
  | Datatypes.S fuel' =>
      if cond s then
        match body s with
        | Some s' => while fuel' cond body s'
        | None => None
        end
      else Some s
  end.

(** The cells [(x, y)] of a [w] by [h] grid, row by row. *)
Definition grid (w h : Z) : list (Z * Z) :=
  y ← seqZ 0 h; x ← seqZ 0 w; [(x, y)].

(** ** JavaScript values *)

Module JS.

Definition number := spec_float.

Definition num (z : Z) : number := of_Z binary64 z.
Definition lit (m e : Z) : number := dyadic binary64 m e.

Declare Scope js_scope.
Delimit Scope js_scope with js.
Infix "+" := (fadd binary64) : js_scope.
Infix "-" := (fsub binary64) : js_scope.
Infix "*" := (fmul binary64) : js_scope.
Infix "/" := (fdiv binary64) : js_scope.
Infix "<" := flt : js_scope.

(** [2^53]: up to here every integer is a binary64 value. *)
Definition MAX_EXACT : Z := 2 ^ 53.

(** [n++] on a number holding the integer [n], for [-2^53 <= n <= 2^53]
    (the values a counter started at 0 can take): [n + 1] is exact below
    [2^53], and [2^53 + 1] rounds back to [2^53]. *)
Definition js_incr (n : Z) : Z := if n <? MAX_EXACT then n + 1 else n.

(** [for (let k = 0; k < bound; k++) body] over a state [A]. *)
Definition for_loop {A : Type} (fuel : nat) (bound : Z)
    (body : Z -> A -> option A) (a : A) : option A :=
  snd <$> while fuel (fun '(k, _) => k <? bound)
            (fun '(k, a) => a' ← body k a; Some (js_incr k, a'))
            (0, a).

(** The [%] operator: the remainder of the truncated division, exact, with
    the sign of the dividend. *)
Definition js_rem (a b : number) : number :=
  match a, b with
  | S754_nan, _ | _, S754_nan => S754_nan
  | S754_infinity _, _ => S754_nan
  | _, S754_zero _ => S754_nan
  | _, S754_infinity _ => a
  | S754_zero _, _ => a
  | S754_finite sa ma ea, S754_finite _ mb eb =>
      let e := Z.min ea eb in
      let r := Z.rem (Z.pos ma * 2 ^ (ea - e)) (Z.pos mb * 2 ^ (eb - e)) in
      binary_normalize 53 1024 (if sa then - r else r) e sa
  end.

Inductive error := RangeError.

(** How a call completes: with a value, or by throwing. *)
Inductive completion (A : Type) :=
| Normal (a : A)
| Throw (e : error).
Arguments Normal {A} a.
Arguments Throw {A} e.

(** [new Uint32Array(n)] for an integer [n]: ToIndex throws a RangeError
    outside [0, 2^53 - 1]; otherwise the array holds [n] zeros.  (An engine
    out of memory also throws; the model assumes memory for every length
    the language allows.) *)
Definition new_Uint32Array (n : Z) : completion (list Z) :=
  if (n <? 0) || (MAX_EXACT - 1 <? n) then Throw RangeError
  else Normal (replicate (Z.to_nat n) 0).

(** [a[k] = v] on a [Uint32Array], for integers [k] and [v]: the value is
    stored modulo [2^32]; a write outside the array does nothing. *)
Definition Uint32Array_set (a : list Z) (k v : Z) : list Z :=
  if k <? 0 then a else <[Z.to_nat k := v mod 2 ^ 32]> a.

(** ToUint8Clamp, the conversion performed by a store into a
    [Uint8ClampedArray]: NaN and everything [<= 0] give 0, everything
    [>= 255] gives 255, the rest is rounded to the nearest integer, ties to
    the even one. *)
Definition ToUint8Clamp (v : number) : Z :=
  match v with
  | S754_nan | S754_zero _ => 0
  | S754_infinity s => if s then 0 else 255
  | S754_finite true _ _ => 0
  | S754_finite false m e =>
      if fle (num 255) v then 255
      else if 0 <=? e then Z.pos m * 2 ^ e
      else
        let d := 2 ^ (- e) in
        let f := Z.pos m / d in
        match 2 * (Z.pos m mod d) ?= d with
        | Lt => f
        | Gt => f + 1
        | Eq => if Z.even f then f else f + 1
        end
  end.

(** [a[k] = v] on a [Uint8ClampedArray]. *)
Definition Uint8ClampedArray_set (a : list Z) (k : Z) (v : number) : list Z :=
  if k <? 0 then a else <[Z.to_nat k := ToUint8Clamp v]> a.

End JS.

(** ** The reference evaluator *)

Module Cpu.
Import JS.

(** The variables of the innermost loop. *)
Record vars := Vars { zx : number; zy : number; i : Z }.

Definition cell_cx (x width : Z) : number :=
  ((num x / num width - lit 3 (-2)) * lit 5 (-1))%js.
Definition cell_cy (y height : Z) : number :=
  ((num y / num height - lit 1 (-1)) * num 2)%js.

(** [i < max_iter && zx * zx + zy * zy < 4.0] *)
Definition loop_cond (max_iter : Z) (s : vars) : bool :=
  (i s <? max_iter) && (zx s * zx s + zy s * zy s < num 4)%js.

Definition loop_body (cx cy : number) (s : vars) : vars :=
  let temp_zx := (zx s * zx s - zy s * zy s + cx)%js in
  {| zx := temp_zx;
     zy := (num 2 * zx s * zy s + cy)%js;
     i := js_incr (i s) |}.

(** The [while] loop of one cell, from [zx = zy = 0.0] and [i = 0], and the
    value of [i] it leaves. *)
Definition escape_loop (fuel : nat) (cx cy : number) (max_iter : Z) : option Z :=
  i <$> while fuel (loop_cond max_iter) (fun s => Some (loop_body cx cy s))
          (Vars (num 0) (num 0) 0).

(** [for (let x = 0; x < width; x++) { ... data[y * width + x] = i; }] *)
Definition row_loop (fuel : nat) (width height max_iter y : Z)
    (data : list Z) : option (list Z) :=
  for_loop fuel width
    (fun x data =>
       i ← escape_loop fuel (cell_cx x width) (cell_cy y height) max_iter;
       Some (Uint32Array_set data (y * width + x) i))
    data.

(** [for (let y = 0; y < height; y++) { ... }] *)
Definition grid_loop (fuel : nat) (width height max_iter : Z)
    (data : list Z) : option (list Z) :=
  for_loop fuel height (row_loop fuel width height max_iter) data.

(** The evaluator.  [None]: the fuel ran out; [Some (Throw _)]: the
    allocation threw; [Some (Normal data)]: [data] is returned. *)
Definition calculateMandelbrotCPU (fuel : nat) (width height max_iter : Z)
    : option (completion (list Z)) :=
  match new_Uint32Array (width * height) with
  | Throw e => Some (Throw e)
  | Normal data => Normal <$> grid_loop fuel width height max_iter data
  end.

End Cpu.

(** ** The WGSL kernel and its dispatch *)

Module Wgsl.

(** [f32] is IEEE binary32.  Each operation of the kernel is rounded on
    its own, to nearest with ties to even, and no multiplication is fused
    with an addition; the language allows an implementation less accuracy
    than that, and this model takes the correctly rounded one. *)
Definition f32 := spec_float.

Definition lit (m e : Z) : f32 := dyadic binary32 m e.

Declare Scope wgsl_scope.
Delimit Scope wgsl_scope with wgsl.
Infix "+" := (fadd binary32) : wgsl_scope.
Infix "-" := (fsub binary32) : wgsl_scope.
Infix "*" := (fmul binary32) : wgsl_scope.
Infix "/" := (fdiv binary32) : wgsl_scope.
Infix "<" := flt : wgsl_scope.

(** [u32] arithmetic wraps. *)
Definition u32_add (a b : Z) : Z := (a + b) mod 2 ^ 32.
Definition u32_mul (a b : Z) : Z := (a * b) mod 2 ^ 32.

(** [u32(e)] for an [f32]: truncation toward zero, then the nearest [u32]
    that is also an [f32] value, so the range is [0, 4294967040].  The
    language leaves the result for NaN indeterminate; 0 is taken. *)
Definition u32_of_f32 (v : f32) : Z :=
  match ftrunc v with
  | Some z => Z.max 0 (Z.min z 4294967040)
  | None => match v with S754_infinity false => 4294967040 | _ => 0 end
  end.

(** [f32(e)] for a [u32], rounded to nearest even where inexact. *)
Definition f32_of_u32 (n : Z) : f32 := of_Z binary32 n.

(** [struct Params], the uniform at binding 0. *)
Record Params := { width : f32; height : f32; max_iter : f32 }.

Record vars := Vars { zx : f32; zy : f32; i : Z }.

(** [i < u32(params.max_iter) && zx * zx + zy * zy < 4.0] *)
Definition loop_cond (params : Params) (s : vars) : bool :=
  (i s <? u32_of_f32 (max_iter params))
  && (zx s * zx s + zy s * zy s < lit 4 0)%wgsl.

Definition loop_body (cx cy : f32) (s : vars) : vars :=
  let temp_zx := (zx s * zx s - zy s * zy s + cx)%wgsl in
  {| zx := temp_zx;
     zy := (lit 2 0 * zx s * zy s + cy)%wgsl;
     i := u32_add (i s) 1 |}.

Definition cell_cx (params : Params) (gx : Z) : f32 :=
  ((f32_of_u32 gx / width params - lit 3 (-2)) * lit 5 (-1))%wgsl.
Definition cell_cy (params : Params) (gy : Z) : f32 :=
  ((f32_of_u32 gy / height params - lit 1 (-1)) * lit 2 0)%wgsl.

Definition escape_loop (fuel : nat) (params : Params) (gx gy : Z) : option Z :=
  i <$> while fuel (loop_cond params)
          (fun s => Some (loop_body (cell_cx params gx) (cell_cy params gy) s))
          (Vars (lit 0 0) (lit 0 0) 0).

(** [output[index] = i] on the storage array: a write outside the array
    is not performed. *)
Definition storage_set (output : list Z) (index v : Z) : list Z :=
  <[Z.to_nat index := v]> output.

(** One invocation of the entry point, for the [x] and [y] components of
    its [global_invocation_id]. *)
Definition main (fuel : nat) (params : Params) (global_id : Z * Z)
    (output : list Z) : option (list Z) :=
  let '(gx, gy) := global_id in
  if (u32_of_f32 (width params) <=? gx) || (u32_of_f32 (height params) <=? gy)
  then Some output
  else
    i ← escape_loop fuel params gx gy;
    let index := u32_add (u32_mul gy (u32_of_f32 (width params))) gx in
    Some (storage_set output index i).

(** Running a list of invocations one after the other. *)
Definition run (fuel : nat) (params : Params) (ids : list (Z * Z))
    (output : list Z) : option (list Z) :=
  foldl (fun out id => out ≫= main fuel params id) (Some output) ids.

(** [Math.ceil(n / 8)] for an integer [n]. *)
Definition workgroups (n : Z) : Z := - ((- n) / 8).

(** The invocations of [dispatchWorkgroups(nx, ny)] under
    [@workgroup_size(8, 8)].  They run in no specified order; the row-major
    one is taken here ([gpu_array_permutation] shows that the order does
    not matter). *)
Definition invocations (nx ny : Z) : list (Z * Z) := grid (8 * nx) (8 * ny).

(** The element of [new Float32Array([...])] for an integer number. *)
Definition Float32Array_elem (z : Z) : f32 := of_Z binary32 z.

(** [new Float32Array([width, height, MAX_ITERATIONS, 0])] read as the
    uniform [Params] (the fourth element pads the buffer). *)
Definition uniform (width height max_iter : Z) : Params :=
  {| width := Float32Array_elem width;
     height := Float32Array_elem height;
     max_iter := Float32Array_elem max_iter |}.

(** The WebGPU branch of [handleRun], from the creation of the buffers to
    the array read back, for a device that is present and accepts the
    buffers.  [handleRun] itself calls it with [width = height = resolution]
    and [max_iter = MAX_ITERATIONS].  The output buffer of
    [width * height] [u32]s starts zeroed. *)
Definition handleRun_gpu (fuel : nat) (width height max_iter : Z)
    : option (list Z) :=
  let outputBuffer := replicate (Z.to_nat (width * height)) 0 in
  run fuel (uniform width height max_iter)
    (invocations (workgroups width) (workgroups height)) outputBuffer.

End Wgsl.

(** ** Colouring *)

Module Draw.
Import JS.

Definition MAX_ITERATIONS : Z := 255.

(** The three numbers assigned to the colour channels of a pixel whose
    escape count is [iter]. *)
Definition shade (iter : Z) : number * number * number :=
  if MAX_ITERATIONS <=? iter then (num 0, num 0, num 0)
  else
    let hue := (num 360 * num iter / num MAX_ITERATIONS)%js in
    let saturation := num 1 in
    let lightness := lit 1 (-1) in
    let c := ((num 1 - fabs (num 2 * lightness - num 1)) * saturation)%js in
    let x :=
      (c * (num 1 - fabs (js_rem (hue / num 60) (num 2) - num 1)))%js in
    let m := (lightness - c / num 2)%js in
    let '(r, g, b) :=
      if (hue < num 60)%js then (c, x, num 0)
      else if (hue < num 120)%js then (x, c, num 0)
      else if (hue < num 180)%js then (num 0, c, x)
      else if (hue < num 240)%js then (num 0, x, c)
      else if (hue < num 300)%js then (x, num 0, c)
      else (c, num 0, x) in
    ((r + m) * num 255, (g + m) * num 255, (b + m) * num 255)%js.

(** The bytes that land in the image for that pixel. *)
Definition colorize (iter : Z) : Z * Z * Z :=
  let '(r, g, b) := shade iter in
  (ToUint8Clamp r, ToUint8Clamp g, ToUint8Clamp b).

(** The body of the loop for index [i]. *)
Definition pixel (imageData : list Z) (i iter : Z) : list Z :=
  let pixelIndex := i * 4 in
  let '(r, g, b) := shade iter in
  let imageData := Uint8ClampedArray_set imageData pixelIndex r in
  let imageData := Uint8ClampedArray_set imageData (pixelIndex + 1) g in
  let imageData := Uint8ClampedArray_set imageData (pixelIndex + 2) b in
  Uint8ClampedArray_set imageData (pixelIndex + 3) (num 255).

(** [drawMandelbrot], from the buffer [imageData] that
    [ctx.createImageData(width, height)] returned to the buffer handed to
    [ctx.putImageData].  The loop runs over the indices of [data], whose
    length is an array length, so it needs no fuel. *)
Definition drawMandelbrot (imageData : list Z) (data : list Z) : list Z :=
  foldl
    (fun img i =>
       match data !! Z.to_nat i with
       | Some iter => pixel img i iter
       | None => img
       end)
    imageData (seqZ 0 (Z.of_nat (length data))).

End Draw.

(** ** The formulas of the specification

    Written from the specification's text, for a floating-point format [F]:
    the affine sample point, the recurrence, and the escape count as the
    first index at which the iteration stops; and, over the rationals, the
    six-sector HSL to RGB conversion. *)

Module Spec.

Section Recurrence.
Variable F : format.

Definition point : Type := spec_float * spec_float.

(** [cx = (x / width - 0.75) * 2.5], [cy = (y / height - 0.5) * 2.0] *)
Definition sample (x y width height : Z) : point :=
  (fmul F (fsub F (fdiv F (of_Z F x) (of_Z F width)) (dyadic F 3 (-2)))
     (dyadic F 5 (-1)),
   fmul F (fsub F (fdiv F (of_Z F y) (of_Z F height)) (dyadic F 1 (-1)))
     (of_Z F 2)).

(** [new_zx = zx*zx - zy*zy + cx], [zy = 2*zx*zy + cy] *)
Definition step (c z : point) : point :=
  (fadd F (fsub F (fmul F (fst z) (fst z)) (fmul F (snd z) (snd z))) (fst c),
   fadd F (fmul F (fmul F (of_Z F 2) (fst z)) (snd z)) (snd c)).

(** [z_0 = 0], [z_(n+1) = z_n^2 + c] *)
Fixpoint orbit (c : point) (n : nat) : point :=
  match n with
  | O => (of_Z F 0, of_Z F 0)
  | S n' => step c (orbit c n')
  end.

(** The strict comparison [zx*zx + zy*zy < 4.0] that lets the iteration
    go on. *)
Definition inside (z : point) : bool :=
  flt (fadd F (fmul F (fst z) (fst z)) (fmul F (snd z) (snd z))) (of_Z F 4).

(** [zx*zx + zy*zy >= 4.0] *)
Definition escaped (z : point) : bool :=
  fle (of_Z F 4) (fadd F (fmul F (fst z) (fst z)) (fmul F (snd z) (snd z))).

(** [i] is the escape count of [c] under the cap [maxIter]: the
    iteration went on, by the strict comparison, at every index below
    [i], and [i] is the first index that is the cap or at which
    [zx*zx + zy*zy >= 4.0]. *)
Definition is_escape_count (c : point) (maxIter i : Z) : Prop :=
0 <= i <= maxIter
/\ (forall j, 0 <= j < i -> inside (orbit c (Z.to_nat j)) = true)
/\ (i = maxIter \/ escaped (orbit c (Z.to_nat i)) = true).

(** The same, computed: the search of the first stopping index from
    [z_i], with [n] indices left below the cap. *)
Fixpoint search (c z : point) (i : Z) (n : nat) : Z :=
  match n with
  | O => i
  | S n' => if inside z then search c (step c z) (i + 1) n' else i
  end.

Definition escape_count (c : point) (maxIter : Z) : Z :=
  search c (of_Z F 0, of_Z F 0) 0 (Z.to_nat maxIter).

End Recurrence.

(** [q mod 2] for a rational. *)
Definition Qmod2 (q : Q) : Q := (q - 2 * inject_Z (Qfloor (q / 2)))%Q.

Definition Qltb (a b : Q) : bool := negb (Qle_bool b a).

(** The piecewise six-sector conversion, with sector boundaries at 60,
    120, 180, 240 and 300 degrees; the channels are in [0, 1]. *)
Definition hsl_to_rgb (hue saturation lightness : Q) : Q * Q * Q :=
  let c := ((1 - Qabs (2 * lightness - 1)) * saturation)%Q in
  let x := (c * (1 - Qabs (Qmod2 (hue / 60) - 1)))%Q in
  let m := (lightness - c / 2)%Q in
  let '(r, g, b) :=
    if Qltb hue 60 then (c, x, 0%Q)
    else if Qltb hue 120 then (x, c, 0%Q)
    else if Qltb hue 180 then (0%Q, c, x)
    else if Qltb hue 240 then (0%Q, x, c)
    else if Qltb hue 300 then (x, 0%Q, c)
    else (c, 0%Q, x) in
  (r + m, g + m, b + m)%Q.

(** [colorize(escapeCount, maxIter)], each channel scaled to [0, 255]. *)
Definition colorize (escapeCount maxIter : Z) : Q * Q * Q :=
  if maxIter <=? escapeCount then (0%Q, 0%Q, 0%Q)
  else
    let hue := (360 * inject_Z escapeCount / inject_Z maxIter)%Q in
    let '(r, g, b) := hsl_to_rgb hue 1 (1 # 2) in
    (255 * r, 255 * g, 255 * b)%Q.

End Spec.

(** The exact rational value of a finite float. *)
Definition to_Q (v : spec_float) : option Q :=
  match v with
  | S754_zero _ => Some 0%Q
  | S754_finite s m e =>
      let a := if 0 <=? e then inject_Z (Z.pos m * 2 ^ e)
               else Qmake (Z.pos m) (Z.to_pos (2 ^ (- e))) in
      Some (if s then (- a)%Q else a)
  | _ => None
  end.

(** ** Auxiliary definitions for the statements *)

(** The array left by a list of writes [idx c := val c]. *)
Definition writes {C V : Type} (idx : C -> nat) (val : C -> V)
    (a : list V) (l : list C) : list V :=
  foldl (fun a c => <[idx c := val c]> a) a l.

(** The array of the reference evaluator, as the writes of its cells. *)
Definition cpu_index (width : Z) (c : Z * Z) : nat :=
  Z.to_nat (snd c * width + fst c).

Definition cpu_value (width height max_iter : Z) (c : Z * Z) : Z :=
  Spec.escape_count binary64
    (Cpu.cell_cx (fst c) width, Cpu.cell_cy (snd c) height) max_iter mod 2 ^ 32.

Definition cpu_array (width height max_iter : Z) : list Z :=
  writes (cpu_index width) (cpu_value width height max_iter)
    (replicate (Z.to_nat (width * height)) 0) (grid width height).

(** The invocations that pass the guard of the kernel, and what they
    write. *)
Definition wgsl_inside (params : Wgsl.Params) (c : Z * Z) : Prop :=
  fst c < Wgsl.u32_of_f32 (Wgsl.width params)
  /\ snd c < Wgsl.u32_of_f32 (Wgsl.height params).

#[global] Instance wgsl_inside_dec params c : Decision (wgsl_inside params c) :=
  and_dec (decide (fst c < Wgsl.u32_of_f32 (Wgsl.width params)))
          (decide (snd c < Wgsl.u32_of_f32 (Wgsl.height params))).

Definition wgsl_index (params : Wgsl.Params) (c : Z * Z) : nat :=
  Z.to_nat (Wgsl.u32_add (Wgsl.u32_mul (snd c) (Wgsl.u32_of_f32 (Wgsl.width params)))
              (fst c)).

Definition wgsl_value (params : Wgsl.Params) (c : Z * Z) : Z :=
  Spec.escape_count binary32
    (Wgsl.cell_cx params (fst c), Wgsl.cell_cy params (snd c))
    (Wgsl.u32_of_f32 (Wgsl.max_iter params)).

Definition gpu_array (width height max_iter : Z) (ids : list (Z * Z)) : list Z :=
  writes (wgsl_index (Wgsl.uniform width height max_iter))
    (wgsl_value (Wgsl.uniform width height max_iter))
    (replicate (Z.to_nat (width * height)) 0)
    (filter (wgsl_inside (Wgsl.uniform width height max_iter)) ids).

(** An integer that a [Float32Array] element and the kernel's [u32(...)]
    hand back unchanged. *)
Definition f32_exact (z : Z) : Prop :=
  Wgsl.u32_of_f32 (Wgsl.Float32Array_elem z) = z.

(** [v] is a zero or a finite value below [2^k] in absolute value. *)
Definition magnitude_le (k : Z) (v : spec_float) : Prop :=
  match v with
  | S754_zero _ => True
  | S754_finite _ m e => Z.pos (digits2_pos m) + e <= k
  | _ => False
  end.

(** [v] is a zero or a finite value. *)
Definition finite (v : spec_float) : Prop :=
  match v with
  | S754_zero _ | S754_finite _ _ _ => True
  | _ => False
  end.

(** The bytes [(r, g, b)] are the channels [q], exactly. *)
Definition rgb_matches (bytes : Z * Z * Z) (q : Q * Q * Q) : Prop :=
  let '(r, g, b) := bytes in
  let '(qr, qg, qb) := q in
  (inject_Z r == qr /\ inject_Z g == qg /\ inject_Z b == qb)%Q.

Definition rgb_matchesb (bytes : Z * Z * Z) (q : Q * Q * Q) : bool :=
  let '(r, g, b) := bytes in
  let '(qr, qg, qb) := q in
  Qeq_bool (inject_Z r) qr && Qeq_bool (inject_Z g) qg && Qeq_bool (inject_Z b) qb.

Definition byte_range (bytes : Z * Z * Z) : bool :=
  let '(r, g, b) := bytes in
  (0 <=? r) && (r <=? 255) && (0 <=? g) && (g <=? 255) && (0 <=? b) && (b <=? 255).

Definition is_black (bytes : Z * Z * Z) : bool :=
  let '(r, g, b) := bytes in (r =? 0) && (g =? 0) && (b =? 0).


(** ** The rest of the compute page

    The states the loop of the reference evaluator passes through, the marks
    of the resolution slider, and the relation between the imaginary parts of
    two conjugate points. *)

(** The states in which the condition of the [while] loop of a cell is
    evaluated: the initial one, and the one the body leaves each time the
    condition held. *)
Inductive cpu_visits (cx cy : JS.number) (max_iter : Z) : Cpu.vars -> Prop :=
| visits_first :
    cpu_visits cx cy max_iter (Cpu.Vars (JS.num 0) (JS.num 0) 0)
| visits_next s :
    cpu_visits cx cy max_iter s ->
    Cpu.loop_cond max_iter s = true ->
    cpu_visits cx cy max_iter (Cpu.loop_body cx cy s).

Definition RESOLUTION_OPTIONS : list Z := [256; 512; 1024; 2048; 4096].

Definition is_zero (v : spec_float) : bool :=
  match v with S754_zero _ => true | _ => false end.

(** [b] is [-a], up to the sign of a zero. *)
Definition conjugate (a b : spec_float) : Prop :=
  b = SFopp a \/ (is_zero a = true /\ is_zero b = true).

Definition float_eqb (a b : spec_float) : bool :=
  match a, b with
  | S754_zero s, S754_zero s' => Bool.eqb s s'
  | S754_infinity s, S754_infinity s' => Bool.eqb s s'
  | S754_nan, S754_nan => true
  | S754_finite s m e, S754_finite s' m' e' =>
      Bool.eqb s s' && (m =? m')%positive && (e =? e')
  | _, _ => false
  end.

Definition conjugateb (a b : spec_float) : bool :=
  float_eqb b (SFopp a) || (is_zero a && is_zero b).

(** Two states of the recurrence with the same real part and conjugate
    imaginary parts. *)
Definition mirrored (z z' : Spec.point) : Prop :=
  fst z' = fst z /\ conjugate (snd z) (snd z').

(** The rows [y] and [height - y] of a grid have conjugate imaginary parts,
    for every [0 < y < height]. *)
Definition mirror_rows (F : format) (height : Z) : bool :=
  forallb
    (fun y => conjugateb (snd (Spec.sample F 0 y 1 height))
                         (snd (Spec.sample F 0 (height - y) 1 height)))
    (seqZ 1 (height - 1)).

(** [v * 2^k] for a finite [v], written on the exponent. *)
Definition shift_exponent (k : Z) (v : spec_float) : spec_float :=
  match v with
  | S754_finite s m e => S754_finite s m (e + k)
  | _ => v
  end.

(** ** The page component

    [App] keeps its state in React hooks; the model keeps it in a record.
    An event handler runs to completion before the next event is handled
    (while a run is awaited [isLoading] disables the buttons and the
    slider), so a handler is a function from state to state.  The canvases
    are arrays of RGBA bytes with their sizes; a 2D context is taken to be
    available on every canvas that exists. *)

Module App.
Import JS.

Inductive run_type := cpu | gpu.

(** [type.toUpperCase()] *)
Definition toUpperCase (type : run_type) : string :=
  match type with cpu => "CPU" | gpu => "GPU" end%string.

(** [type Result = { method: string; time: number; res: number }] *)
Record Result := { method : string; time : number; res : Z }.

Record canvas := { c_width : Z; c_height : Z; bitmap : list Z }.

(** What a [catch] receives: an exception of the engine, or
    [new Error(message)]. *)
Inductive exn :=
| Thrown (e : JS.error)
| Error (message : string).

(** The state of the component: the hooks [isLoading], [resolution] (the
    slider ranges over positive integers) and [results], the two canvases
    behind [canvasRefs] ([None] for a ref whose [current] is null), and
    what went to [console.error] and [alert], latest first. *)
Record state := {
  isLoading : bool;
  resolution : positive;
  results_cpu : option Result;
  results_gpu : option Result;
  canvas_cpu : option canvas;
  canvas_gpu : option canvas;
  console : list exn;
  alerts : list string
}.

Definition canvas_of (type : run_type) (st : state) : option canvas :=
  match type with cpu => canvas_cpu st | gpu => canvas_gpu st end.

Definition result_of (type : run_type) (st : state) : option Result :=
  match type with cpu => results_cpu st | gpu => results_gpu st end.

Definition setIsLoading (b : bool) (st : state) : state :=
  {| isLoading := b; resolution := resolution st;
     results_cpu := results_cpu st; results_gpu := results_gpu st;
     canvas_cpu := canvas_cpu st; canvas_gpu := canvas_gpu st;
     console := console st; alerts := alerts st |}.

(** [setResults(prev => ({ ...prev, [type]: r }))] *)
Definition setResult (type : run_type) (r : option Result) (st : state) : state :=
  {| isLoading := isLoading st; resolution := resolution st;
     results_cpu := match type with cpu => r | gpu => results_cpu st end;
     results_gpu := match type with gpu => r | cpu => results_gpu st end;
     canvas_cpu := canvas_cpu st; canvas_gpu := canvas_gpu st;
     console := console st; alerts := alerts st |}.

Definition setCanvas (type : run_type) (c : canvas) (st : state) : state :=
  {| isLoading := isLoading st; resolution := resolution st;
     results_cpu := results_cpu st; results_gpu := results_gpu st;
     canvas_cpu := match type with cpu => Some c | gpu => canvas_cpu st end;
     canvas_gpu := match type with gpu => Some c | cpu => canvas_gpu st end;
     console := console st; alerts := alerts st |}.

(** [console.error(..., error); alert(...)] *)
Definition report (e : exn) (message : string) (st : state) : state :=
  {| isLoading := isLoading st; resolution := resolution st;
     results_cpu := results_cpu st; results_gpu := results_gpu st;
     canvas_cpu := canvas_cpu st; canvas_gpu := canvas_gpu st;
     console := e :: console st; alerts := message :: alerts st |}.

(** [ctx.fillStyle = '#2a2a2a'; ctx.fillRect(0, 0, canvas.width,
    canvas.height)]: every pixel becomes the opaque grey [0x2a]. *)
Definition fill_grey (c : canvas) : canvas :=
  {| c_width := c_width c; c_height := c_height c;
     bitmap := mjoin (replicate (Z.to_nat (c_width c * c_height c))
                        [42; 42; 42; 255]) |}.

(** [canvas.width = width; canvas.height = height]: setting a dimension
    resets the bitmap to transparent black. *)
Definition resize (width height : Z) : canvas :=
  {| c_width := width; c_height := height;
     bitmap := replicate (Z.to_nat (width * height * 4)) 0 |}.

(** [ctx.createImageData(width, height)] for positive sizes *)
Definition createImageData (width height : Z) : list Z :=
  replicate (Z.to_nat (width * height * 4)) 0.

(** [ctx.putImageData(imageData, 0, 0)] on a canvas of the image's size *)
Definition putImageData (c : canvas) (imageData : list Z) : canvas :=
  {| c_width := c_width c; c_height := c_height c; bitmap := imageData |}.

(** What the page finds in [navigator.gpu]: nothing, an object whose
    [requestAdapter()] resolves to null, or one that leads to a device that
    accepts the buffers and the dispatch. *)
Inductive gpu_support := no_gpu | no_adapter | has_device.

(** The surroundings of one run: the GPU, and the two readings of
    [performance.now()]. *)
Record env := { navigator_gpu : gpu_support; startTime : number; endTime : number }.

Inductive outcome := Returned (resultData : list Z) | Raised (e : exn).

(** The two branches of the [try] block, up to [resultData]. *)
Definition compute (fuel : nat) (E : env) (type : run_type) (width height : Z)
    : option outcome :=
  match type with
  | cpu =>
      r ← Cpu.calculateMandelbrotCPU fuel width height Draw.MAX_ITERATIONS;
      Some match r with
           | Normal data => Returned data
           | Throw e => Raised (Thrown e)
           end
  | gpu =>
      match navigator_gpu E with
      | no_gpu => Some (Raised (Error "WebGPU not supported on this browser."))
      | no_adapter => Some (Raised (Error "No appropriate GPUAdapter found."))
      | has_device =>
          Returned <$> Wgsl.handleRun_gpu fuel width height Draw.MAX_ITERATIONS
      end
  end.

(** [handleRun(type)].  [None]: the fuel ran out. *)
Definition handleRun (fuel : nat) (E : env) (type : run_type) (st : state)
    : option state :=
  match canvas_of type st with
  | None => Some st
  | Some canvas =>
      if isLoading st then Some st
      else
        let st := setIsLoading true st in
        let st := setResult type None st in
        let canvas := fill_grey canvas in
        let width := Z.pos (resolution st) in
        let height := Z.pos (resolution st) in
        let canvas := resize width height in
        let st := setCanvas type canvas st in
        r ← compute fuel E type width height;
        let st :=
          match r with
          | Returned resultData =>
              let computationTime := (endTime E - startTime E)%js in
              let imageData :=
                Draw.drawMandelbrot (createImageData width height) resultData in
              let st := setCanvas type (putImageData canvas imageData) st in
              setResult type
                (Some {| method := toUpperCase type; time := computationTime;
                         res := Z.pos (resolution st) |}) st
          | Raised e =>
              report e ("Error during " +:+ toUpperCase type
                        +:+ " computation. Check console for details.") st
          end in
        Some (setIsLoading false st)
  end.

(** [clearCanvases()] *)
Definition clearCanvases (st : state) : state :=
  {| isLoading := isLoading st; resolution := resolution st;
     results_cpu := results_cpu st; results_gpu := results_gpu st;
     canvas_cpu := fill_grey <$> canvas_cpu st;
     canvas_gpu := fill_grey <$> canvas_gpu st;
     console := console st; alerts := alerts st |}.

(** [setResolution(newRes)] and the effect that depends on [resolution]:
    when the value changes, the canvases are cleared and both results are
    dropped; when it does not, nothing is rendered again. *)
Definition setResolution (newRes : positive) (st : state) : state :=
  if (newRes =? resolution st)%positive then st
  else
    let st := clearCanvases st in
    {| isLoading := isLoading st; resolution := newRes;
       results_cpu := None; results_gpu := None;
       canvas_cpu := canvas_cpu st; canvas_gpu := canvas_gpu st;
       console := console st; alerts := alerts st |}.

(** [Math.max] and [Math.min] of two numbers: NaN if either is, and [+0]
    above [-0]. *)
Definition Math_max (a b : number) : number :=
  match a, b with
  | S754_nan, _ | _, S754_nan => S754_nan
  | _, _ =>
      if (a < b)%js then b
      else if (b < a)%js then a
      else match a with S754_zero true => b | _ => a end
  end.

Definition Math_min (a b : number) : number :=
  match a, b with
  | S754_nan, _ | _, S754_nan => S754_nan
  | _, _ =>
      if (a < b)%js then a
      else if (b < a)%js then b
      else match a with S754_zero false => b | _ => a end
  end.

(** The values [RenderWinner] puts in its sentence. *)
Record Winner := {
  at_res : Z;
  fasterMethod : string;
  slowerMethod : string;
  difference : number;
  factor : number
}.

(** [RenderWinner], up to the formatting of the numbers: [None] is the
    [null] it returns while a result is missing. *)
Definition RenderWinner (st : state) : option Winner :=
  match results_cpu st, results_gpu st with
  | Some rcpu, Some rgpu =>
      let cpuTime := time rcpu in
      let gpuTime := time rgpu in
      let fasterMethod := if (cpuTime < gpuTime)%js then "CPU" else "GPU" in
      let slowerMethod :=
        if String.eqb fasterMethod "CPU" then "GPU" else "CPU" in
      Some {| at_res := res rcpu;
              fasterMethod := fasterMethod;
              slowerMethod := slowerMethod;
              difference := fabs (cpuTime - gpuTime)%js;
              factor := (Math_max cpuTime gpuTime / Math_min cpuTime gpuTime)%js |}
  | _, _ => None
  end%string.

(** The events of the page. *)
Inductive event :=
| Click (type : run_type) (E : env)
| Slide (newRes : positive).

(** The states the page can be in after an event, from [st]. *)
Inductive handles (st : state) : event -> state -> Prop :=
| handles_click type E fuel st' :
    handleRun fuel E type st = Some st' -> handles st (Click type E) st'
| handles_slide newRes :
    handles st (Slide newRes) (setResolution newRes st).



End App.

(** The arithmetic of a run: JavaScript numbers on the CPU, [f32] in the
    kernel. *)
Definition arithmetic_of (type : App.run_type) : format :=
  match type with App.cpu => binary64 | App.gpu => binary32 end.


(** ** The matrix benchmark ([ai-mini-benchmark.js]) *)

Module AiBench.
Import JS.

(** ToInt32, the conversion behind [x | 0]: NaN, the infinities and the
    zeros give 0; a finite number is truncated toward zero and taken modulo
    [2^32] into [[-2^31, 2^31)]. *)
Definition ToInt32 (v : number) : Z :=
  match ftrunc v with
  | Some z => (z + 2 ^ 31) mod 2 ^ 32 - 2 ^ 31
  | None => 0
  end.

(** [Math.max(8, Number(sizeEl.value) | 0)], for the number [v] that
    [Number(sizeEl.value)] is. *)
Definition matrix_size (v : number) : Z := Z.max 8 (ToInt32 v).

(** [Math.max(1, Number(itersEl.value) | 0)] *)
Definition iterations (v : number) : Z := Z.max 1 (ToInt32 v).

Section Kernel.
(** Two behaviours the kernel takes from its implementation: the
    built-in [tanh], and what a load from outside an array yields. *)
Variable tanh : Wgsl.f32 -> Wgsl.f32.
Variable stray : list Wgsl.f32 -> Z -> Wgsl.f32.

(** [a[i]] for a storage array and a [u32] index *)
Definition load (a : list Wgsl.f32) (i : Z) : Wgsl.f32 :=
  match a !! Z.to_nat i with
  | Some v => v
  | None => stray a i
  end.

(** [for (var k = 0u; k < N; k++) { sum += A[row * N + k] * B[k * N + col]; }]
    from [sum = 0.0], and the [sum] it leaves. *)
Definition dot_loop (fuel : nat) (N : Z) (A B : list Wgsl.f32) (row col : Z)
    : option Wgsl.f32 :=
  snd <$> while fuel (fun '(k, _) => k <? N)
            (fun '(k, sum) =>
               Some (Wgsl.u32_add k 1,
                     fadd binary32 sum
                       (fmul binary32
                          (load A (Wgsl.u32_add (Wgsl.u32_mul row N) k))
                          (load B (Wgsl.u32_add (Wgsl.u32_mul k N) col)))))
            (0, Wgsl.lit 0 0).

(** One invocation of [main], for the [x] and [y] components of [gid]:
    [row = gid.x], [col = gid.y]. *)
Definition main (fuel : nat) (N : Z) (A B : list Wgsl.f32) (gid : Z * Z)
    (C : list Wgsl.f32) : option (list Wgsl.f32) :=
  let '(row, col) := gid in
  if (N <=? row) || (N <=? col) then Some C
  else
    sum ← dot_loop fuel N A B row col;
    Some (<[Z.to_nat (Wgsl.u32_add (Wgsl.u32_mul row N) col) := tanh sum]> C).

(** One compute pass: [dispatchWorkgroups(Math.ceil(N / 8),
    Math.ceil(N / 8), 1)] under [@workgroup_size(8,8)]. *)
Definition pass (fuel : nat) (N : Z) (A B C : list Wgsl.f32)
    : option (list Wgsl.f32) :=
  foldl (fun out gid => out ≫= main fuel N A B gid) (Some C)
    (Wgsl.invocations (Wgsl.workgroups N) (Wgsl.workgroups N)).

(** [for (let i = 0; i < iters; i++) { ... queue.submit(...) }]: the
    content of the buffer [C] after the [iters] passes. *)
Definition passes (fuel : nat) (N iters : Z) (A B C : list Wgsl.f32)
    : option (list Wgsl.f32) :=
  for_loop fuel iters (fun _ C => pass fuel N A B C) C.

(** The sum the loop of cell [(row, col)] forms, term after term. *)
Definition dot (N : Z) (A B : list Wgsl.f32) (row col : Z) : Wgsl.f32 :=
  foldl (fun sum k =>
           fadd binary32 sum
             (fmul binary32 (load A (row * N + k)) (load B (k * N + col))))
    (Wgsl.lit 0 0) (seqZ 0 N).
End Kernel.

End AiBench.

(** The content the kernel of the matrix benchmark gives to [C]: element
    [row * N + col] is [tanh] of the sum of cell [(row, col)]. *)
Definition matrix_product (tanh : Wgsl.f32 -> Wgsl.f32)
    (stray : list Wgsl.f32 -> Z -> Wgsl.f32)
    (N : Z) (A B : list Wgsl.f32) : list Wgsl.f32 :=
  (fun k => tanh (AiBench.dot stray N A B (k / N) (k mod N))) <$> seqZ 0 (N * N).

(** The invocations of the matrix kernel that pass its guard, and what
    they write. *)
Definition matrix_inside (N : Z) (c : Z * Z) : Prop := fst c < N /\ snd c < N.

#[global] Instance matrix_inside_dec N c : Decision (matrix_inside N c) :=
  and_dec (decide (fst c < N)) (decide (snd c < N)).

Definition matrix_index (N : Z) (c : Z * Z) : nat := Z.to_nat (fst c * N + snd c).

Definition matrix_value (tanh : Wgsl.f32 -> Wgsl.f32)
    (stray : list Wgsl.f32 -> Z -> Wgsl.f32)
    (N : Z) (A B : list Wgsl.f32) (c : Z * Z) : Wgsl.f32 :=
  tanh (AiBench.dot stray N A B (fst c) (snd c)).

(** ** The start of the render benchmarks ([gpu-info.js], [initWebGPU]) *)

Module Browser.

(** The JavaScript values these functions handle. *)
Inductive value :=
| Undefined
| Null
| Str (s : string)
| Object (id : nat).

(** ToBoolean *)
Definition truthy (v : value) : bool :=
  match v with
  | Undefined | Null => false
  | Str s => negb (String.eqb s "")
  | Object _ => true
  end.

(** ToString, as a template literal applies it *)
Definition ToString (v : value) : string :=
  match v with
  | Undefined => "undefined"
  | Null => "null"
  | Str s => s
  | Object _ => "[object Object]"
  end.

(** [o.key] on an object held as a map: a missing key reads [undefined]. *)
Definition get (o : gmap string value) (key : string) : value :=
  default Undefined (o !! key).

(** A WebGL context, as [getGPUInfo] uses it: whether
    [getExtension('WEBGL_debug_renderer_info')] gives an object, and what
    [getParameter] returns for the four names. *)
Record WebGL := {
  debug_renderer_info : bool;
  UNMASKED_VENDOR_WEBGL : value;
  UNMASKED_RENDERER_WEBGL : value;
  VENDOR : value;
  RENDERER : value
}.

(** What [navigator.gpu] offers: the value [requestAdapter()] resolves to,
    the value [requestDevice()] of that adapter resolves to, and the
    preferred canvas format. *)
Record GPU := {
  requestAdapter : value;
  requestDevice : value;
  getPreferredCanvasFormat : string
}.

(** The browser around a page: what a fresh canvas returns for the
    context names ['webgl'], ['experimental-webgl'] and ['webgpu'], and
    [navigator.gpu]. *)
Record browser := {
  webgl : option WebGL;
  experimental_webgl : option WebGL;
  webgpu : value;
  navigator_gpu : option GPU
}.

(** [getGPUInfo()] *)
Definition getGPUInfo (b : browser) : gmap string value :=
  let gl := match webgl b with Some gl => Some gl | None => experimental_webgl b end in
  match gl with
  | None => {[ "vendor" := Str "Unknown"; "renderer" := Str "Unknown" ]}
  | Some gl =>
      if debug_renderer_info gl then
        {[ "vendor" := UNMASKED_VENDOR_WEBGL gl;
           "renderer" := UNMASKED_RENDERER_WEBGL gl ]}
      else
        {[ "vendor" := VENDOR gl; "renderer" := RENDERER gl ]}
  end.

Inductive exception :=
| Error (message : string)
| TypeError.

(** The lines the two [initWebGPU] log: that WebGPU is missing (the
    English sentence of the triangle page, the Indonesian one of the
    geometry page), that it is ready (likewise), and a line of text. *)
Inductive line :=
| log_not_supported
| log_tidak_tersedia
| log_initialized
| log_aktif
| log_text (text : string).

(** [{ device, context, format }] *)
Record handles := { device : value; context : value; format : string }.

(** [`GPU: ${infoGPU.renderer} - (${infoGPU.vendor})`] *)
Definition gpu_line (b : browser) : line :=
  let infoGPU := getGPUInfo b in
  log_text ("GPU: " +:+ ToString (get infoGPU "renderer")
            +:+ " - (" +:+ ToString (get infoGPU "vendor") +:+ ")").

(** [object.method(...)] on a value: a TypeError unless the value is an
    object. *)
Definition call_on {A} (object : value) (result : A) : exception + A :=
  match object with
  | Object _ => inr result
  | _ => inl TypeError
  end.

(** [initWebGPU()] of the triangle benchmark: the lines it logs, and
    what it returns or throws. *)
Definition initWebGPU_basic (b : browser) : list line * (exception + handles) :=
  match navigator_gpu b with
  | None => ([log_not_supported], inl (Error "WebGPU not supported"))
  | Some gpu =>
      let adapter :=
        if truthy (get (getGPUInfo b) "adapter") then get (getGPUInfo b) "adapter"
        else requestAdapter gpu in
      let device :=
        if truthy (get (getGPUInfo b) "device") then inr (get (getGPUInfo b) "device")
        else call_on adapter (requestDevice gpu) in
      match device with
      | inl e => ([], inl e)
      | inr device =>
          let context := webgpu b in
          let format := getPreferredCanvasFormat gpu in
          match call_on context tt with
          | inl e => ([], inl e)
          | inr _ =>
              ([log_initialized; gpu_line b],
               inr {| device := device; context := context; format := format |})
          end
      end
  end.

(** [initWebGPU()] of the geometry benchmark *)
Definition initWebGPU_geometry (b : browser) : list line * (exception + handles) :=
  match navigator_gpu b with
  | None => ([log_tidak_tersedia], inl (Error "WebGPU not supported"))
  | Some gpu =>
      let adapter := requestAdapter gpu in
      match call_on adapter (requestDevice gpu) with
      | inl e => ([], inl e)
      | inr device =>
          let context := webgpu b in
          let format := getPreferredCanvasFormat gpu in
          match call_on context tt with
          | inl e => ([], inl e)
          | inr _ =>
              ([log_aktif; gpu_line b],
               inr {| device := device; context := context; format := format |})
          end
      end
  end.

End Browser.

(** The four bytes of the pixel of an escape count. *)
Definition pixel_bytes (iter : Z) : list Z :=
  let '(r, g, b) := Draw.colorize iter in [r; g; b; 255].

(** Two finite floats, of whatever formats, with the same value. *)
Definition same_value (a b : spec_float) : Prop :=
  exists qa qb, to_Q a = Some qa /\ to_Q b = Some qb /\ (qa == qb)%Q.

Definition same_valueb (a b : spec_float) : bool :=
  match to_Q a, to_Q b with
  | Some qa, Some qb => Qeq_bool qa qb
  | _, _ => false
  end.

(** Every column and every row of a square grid has the same coordinate
    in binary64 and in binary32. *)
Definition same_points (res : Z) : bool :=
  forallb
    (fun k =>
       same_valueb (fst (Spec.sample binary64 k 0 res 1))
                   (fst (Spec.sample binary32 k 0 res 1))
       && same_valueb (snd (Spec.sample binary64 0 k 1 res))
                      (snd (Spec.sample binary32 0 k 1 res)))
    (seqZ 0 res).


(** * Loops *)

Section WhileFacts.
Context {S : Type}.
Implicit Types (cond : S -> bool) (body : S -> option S).


(** More fuel, and a body that returns at least where the first one did,
    do not change a result. *)
Lemma while_mono cond body body' fuel fuel' s r :
  (forall s s', body s = Some s' -> body' s = Some s') ->
  (fuel <= fuel')%nat ->
  while fuel cond body s = Some r ->
  while fuel' cond body' s = Some r.
Proof.
  intros Hb. revert fuel' s.
  induction fuel as [|fuel IH]; intros fuel' s Hle Hrun; simpl in Hrun; [done|].
  destruct fuel' as [|fuel']; [lia|]. simpl.
  destruct (cond s); [|done].
  destruct (body s) as [s'|] eqn:Hs; [|done].
  rewrite (Hb _ _ Hs). apply IH; [lia|done].
Qed.

Lemma while_ext cond body body' fuel s :
  (forall s, body s = body' s) ->
  while fuel cond body s = while fuel cond body' s.
Proof.
  intros Hb. revert s. induction fuel as [|fuel IH]; intros s; simpl; [done|].
  destruct (cond s); [|done]. rewrite <- Hb.
  destruct (body s); [apply IH|done].
Qed.
End WhileFacts.

Section ForFacts.
Import JS.
Context {A : Type}.
Implicit Types (body : Z -> A -> option A) (g : Z -> A -> A).

Lemma js_incr_exact n : n < MAX_EXACT -> js_incr n = n + 1.
Proof. unfold js_incr. intros. by rewrite (proj2 (Z.ltb_lt _ _)). Qed.



(** A counting loop whose body always returns runs it at [0, 1, ...,
    bound - 1], provided the counter stays exact and the fuel covers the
    [bound + 1] evaluations of the condition. *)
Lemma for_loop_total body g fuel bound a :
  bound <= MAX_EXACT ->
  (Z.to_nat bound < fuel)%nat ->
  (forall k a, 0 <= k < bound -> body k a = Some (g k a)) ->
  for_loop fuel bound body a
  = Some (foldl (fun a k => g k a) a (seqZ 0 bound)).
Proof.
  intros Hmax Hfuel Hbody. unfold for_loop.
  enough (forall n fuel k a,
    0 <= k -> Z.to_nat (bound - k) = n -> (n < fuel)%nat ->
    snd <$> while fuel (fun '(k, _) => k <? bound)
              (fun '(k, a) => a' ← body k a; Some (js_incr k, a')) (k, a)
    = Some (foldl (fun a k => g k a) a (seqZ k (Z.of_nat n)))) as H.
  { rewrite (H (Z.to_nat bound) fuel 0 a); [|lia|f_equal; lia|lia].
    destruct (Z.le_gt_cases 0 bound).
    - by rewrite Z2Nat.id.
    - replace (Z.to_nat bound) with 0%nat by lia. simpl.
      rewrite !seqZ_nil by lia. done. }
  clear fuel Hfuel a. induction n as [|n IH]; intros fuel k a Hk Hn Hfuel.
  - destruct fuel as [|fuel]; [lia|]. simpl.
    rewrite (proj2 (Z.ltb_ge k bound)) by lia. done.
  - destruct fuel as [|fuel]; [lia|]. simpl.
    rewrite (proj2 (Z.ltb_lt k bound)) by lia.
    rewrite Hbody by lia. simpl.
    rewrite js_incr_exact by lia.
    rewrite IH by lia.
    rewrite (seqZ_cons k) by lia. simpl.
    do 3 f_equal; lia.
Qed.

End ForFacts.

(** * Writes into an array *)

Section Writes.
Context {C V : Type} (idx : C -> nat) (val : C -> V).

Lemma length_writes a l : length (writes idx val a l) = length a.
Proof.
  revert a. induction l as [|c l IH]; intros a; simpl; [done|].
  unfold writes in *. simpl. by rewrite IH, length_insert.
Qed.

Lemma writes_snoc a l c : writes idx val a (l ++ [c]) = <[idx c := val c]> (writes idx val a l).
Proof. unfold writes. by rewrite foldl_app. Qed.

(** An index that no cell of the list maps to keeps its value. *)
Lemma writes_lookup_miss a l k :
  (forall c, c ∈ l -> idx c <> k) ->
  writes idx val a l !! k = a !! k.
Proof.
  induction l as [|c l IH] using rev_ind; intros Hl; [done|].
  rewrite writes_snoc, list_lookup_insert_ne.
  - apply IH. intros c' Hc'. apply Hl, elem_of_app. by left.
  - apply Hl, elem_of_app. right. by apply list_elem_of_singleton.
Qed.

(** An index that some cell maps to holds that cell's value, when all the
    cells mapped to it carry the same value. *)
Lemma writes_lookup_hit a l c k :
  c ∈ l -> idx c = k -> (k < length a)%nat ->
  (forall c', c' ∈ l -> idx c' = k -> val c' = val c) ->
  writes idx val a l !! k = Some (val c).
Proof.
  induction l as [|c1 l IH] using rev_ind; intros Hin Hk Hlen Hsame.
  - by apply elem_of_nil in Hin.
  - rewrite writes_snoc.
    destruct (decide (idx c1 = k)) as [Heq|Hne].
    + rewrite <- Heq at 1. rewrite list_lookup_insert_eq.
      * f_equal. apply Hsame; [|done].
        apply elem_of_app. right. by apply list_elem_of_singleton.
      * rewrite length_writes. lia.
    + rewrite list_lookup_insert_ne by done.
      apply IH; try done.
      * apply elem_of_app in Hin as [?|Hin]; [done|].
        apply list_elem_of_singleton in Hin. congruence.
      * intros c' Hc'. apply Hsame. apply elem_of_app; by left.
Qed.
End Writes.

Lemma foldl_ext_in {A B} (f g : A -> B -> A) (l : list B) a :
  (forall a b, b ∈ l -> f a b = g a b) -> foldl f a l = foldl g a l.
Proof.
  revert a. induction l as [|b l IH]; intros a H; simpl; [done|].
  rewrite H by apply list_elem_of_here. apply IH. intros. by apply H, list_elem_of_further.
Qed.

(** The nested loops visit the grid row by row. *)
Lemma foldl_grid {A} (f : Z -> Z -> A -> A) (a : A) (w h : Z) :
  foldl (fun a y => foldl (fun a x => f x y a) a (seqZ 0 w)) a (seqZ 0 h)
  = foldl (fun a c => f (fst c) (snd c) a) a (grid w h).
Proof.
  unfold grid. generalize (seqZ 0 h) as ys. intros ys. revert a.
  induction ys as [|y ys IH]; intros a; simpl; [done|].
  rewrite foldl_app, <- IH. f_equal.
  generalize (seqZ 0 w) as xs. intros xs. revert a.
  induction xs as [|x xs IHx]; intros a; simpl; [done|]. apply IHx.
Qed.

Lemma elem_of_grid w h x y :
  (x, y) ∈ grid w h <-> 0 <= x < w /\ 0 <= y < h.
Proof.
  unfold grid. rewrite list_elem_of_bind. split.
  - intros (y' & Hx & Hy). apply list_elem_of_bind in Hx as (x' & Hc & Hx).
    apply list_elem_of_singleton in Hc. simplify_eq.
    apply elem_of_seqZ in Hx, Hy. lia.
  - intros [Hx Hy]. exists y. split; [|apply elem_of_seqZ; lia].
    apply list_elem_of_bind. exists x.
    split; [by apply list_elem_of_singleton|apply elem_of_seqZ; lia].
Qed.

(** Row-major indices determine their cell. *)
Lemma row_major_inj w x y x' y' :
  0 <= x < w -> 0 <= x' < w -> 0 <= y -> 0 <= y' ->
  y * w + x = y' * w + x' -> x = x' /\ y = y'.
Proof.
  intros Hx Hx' Hy Hy' Heq.
  destruct (Z.lt_trichotomy y y') as [Hlt|[->|Hlt]]; [nia|lia|nia].
Qed.

(** * The escape count of the specification *)

Section SpecFacts.
Variable F : format.
Implicit Types (c z : Spec.point).

Lemma orbit_succ c n : Spec.orbit F c (S n) = Spec.step F c (Spec.orbit F c n).
Proof. done. Qed.

(** What the search returns from [z_i = orbit c i] with [n] indices left. *)
Lemma search_spec c n i0 :
  let i := Spec.search F c (Spec.orbit F c i0) (Z.of_nat i0) n in
  Z.of_nat i0 <= i <= Z.of_nat i0 + Z.of_nat n
  /\ (forall j, Z.of_nat i0 <= j < i -> Spec.inside F (Spec.orbit F c (Z.to_nat j)) = true)
  /\ (i = Z.of_nat i0 + Z.of_nat n
      \/ Spec.inside F (Spec.orbit F c (Z.to_nat i)) = false).
Proof.
  revert i0. induction n as [|n IH]; intros i0; simpl.
  - split; [lia|]. split; [intros; lia|left; lia].
  - destruct (Spec.inside F (Spec.orbit F c i0)) eqn:Hin.
    + rewrite <- orbit_succ.
      replace (Z.of_nat i0 + 1) with (Z.of_nat (S i0)) by lia.
      destruct (IH (S i0)) as (Hb & Hbelow & Hstop).
      split; [lia|]. split.
      * intros j Hj. destruct (decide (j = Z.of_nat i0)) as [->|].
        -- by rewrite Nat2Z.id.
        -- apply Hbelow. lia.
      * destruct Hstop as [Hstop|Hstop]; [left; lia|by right].
    + split; [lia|]. split; [intros; lia|].
      right. by rewrite Nat2Z.id.
Qed.

(** The count that the search returns: the iteration went on below it,
    and it is the cap or the strict comparison fails at it. *)
Lemma escape_count_first_stop c maxIter :
  0 <= maxIter ->
  let i := Spec.escape_count F c maxIter in
  0 <= i <= maxIter
  /\ (forall j, 0 <= j < i -> Spec.inside F (Spec.orbit F c (Z.to_nat j)) = true)
  /\ (i = maxIter \/ Spec.inside F (Spec.orbit F c (Z.to_nat i)) = false).
Proof.
  intros Hm. unfold Spec.escape_count.
  pose proof (search_spec c (Z.to_nat maxIter) 0) as H. cbv zeta in H.
  change (Spec.orbit F c 0) with (of_Z F 0, of_Z F 0) in H.
  change (Z.of_nat 0) with 0 in H.
  destruct H as (Hb & Hbelow & Hstop).
  split; [lia|]. split; [intros; apply Hbelow; lia|].
  destruct Hstop; [left; lia|by right].
Qed.

Lemma escape_count_bounds c maxIter :
  0 <= maxIter -> 0 <= Spec.escape_count F c maxIter <= maxIter.
Proof. intros Hm. by destruct (escape_count_first_stop c maxIter Hm). Qed.


(** A point whose orbit is never left has the cap as its count. *)
Lemma escape_count_inside c maxIter :
  0 <= maxIter ->
  (forall n, Spec.inside F (Spec.orbit F c n) = true) ->
  Spec.escape_count F c maxIter = maxIter.
Proof.
  intros Hm Hin. destruct (escape_count_first_stop c maxIter Hm) as (_ & _ & [?|Hstop]); [done|].
  by rewrite Hin in Hstop.
Qed.

(** The search under a smaller cap is the search under the larger one,
    clamped. *)
Lemma search_clamp c z i n n' :
  (n <= n')%nat ->
  Spec.search F c z i n = Z.min (Spec.search F c z i n') (i + Z.of_nat n).
Proof.
  revert z i n'. induction n as [|n IH]; intros z i n' Hle.
  - simpl. assert (i <= Spec.search F c z i n'); [|lia].
    clear. revert z i. induction n' as [|n' IH']; intros z i; simpl; [lia|].
    destruct (Spec.inside F z); [|lia]. specialize (IH' (Spec.step F c z) (i + 1)). lia.
  - destruct n' as [|n']; [lia|]. simpl.
    destruct (Spec.inside F z); [|lia].
    rewrite (IH _ _ n') by lia. lia.
Qed.

Lemma escape_count_clamp c m m' :
  0 <= m <= m' ->
  Spec.escape_count F c m = Z.min (Spec.escape_count F c m') m.
Proof.
  intros Hm. unfold Spec.escape_count.
  rewrite (search_clamp c _ 0 (Z.to_nat m) (Z.to_nat m')) by lia.
  f_equal. lia.
Qed.
End SpecFacts.

(** * The loop of the reference evaluator *)

Section CpuLoop.
Import JS Cpu.
Variables (cx cy : number) (max_iter : Z).

Let body := fun s => Some (loop_body cx cy s).

(** From any state with [i <= max_iter <= 2^53], the loop is left after
    at most [max_iter - i] passes, at the index the search finds. *)
Lemma cpu_while_search n : forall fuel s,
  0 <= i s -> Z.to_nat (max_iter - i s) = n -> max_iter <= MAX_EXACT ->
  (n < fuel)%nat ->
  i <$> while fuel (loop_cond max_iter) body s
  = Some (Spec.search binary64 (cx, cy) (zx s, zy s) (i s) n).
Proof.
  induction n as [|n IH]; intros fuel s Hi Hn Hmax Hfuel;
    (destruct fuel as [|fuel]; [lia|]); simpl.
  - unfold loop_cond. rewrite (proj2 (Z.ltb_ge _ _)) by lia. done.
  - unfold loop_cond at 1. rewrite (proj2 (Z.ltb_lt _ _)) by lia. simpl.
    change (flt _ _) with (Spec.inside binary64 (zx s, zy s)).
    destruct (Spec.inside binary64 (zx s, zy s)); [|done].
    rewrite IH; simpl; rewrite ?js_incr_exact; try lia. done.
Qed.

Lemma cpu_escape_loop fuel :
  max_iter <= MAX_EXACT ->
  (Z.to_nat max_iter < fuel)%nat ->
  escape_loop fuel cx cy max_iter
  = Some (Spec.escape_count binary64 (cx, cy) max_iter).
Proof.
  intros Hmax Hfuel. unfold escape_loop.
  by rewrite (cpu_while_search (Z.to_nat max_iter)) by (simpl; lia).
Qed.

End CpuLoop.


(** * The loop of the kernel *)

Lemma u32_of_f32_range v : 0 <= Wgsl.u32_of_f32 v <= 4294967040.
Proof.
  unfold Wgsl.u32_of_f32. destruct (ftrunc v); [lia|].
  destruct v as [| [] | |]; lia.
Qed.

Section WgslLoop.
Import Wgsl.
Variables (params : Params) (cx cy : f32).

Let body := fun s => Some (loop_body cx cy s).
Let cap := u32_of_f32 (max_iter params).

Lemma wgsl_while_search n : forall fuel s,
  0 <= i s -> Z.to_nat (cap - i s) = n -> (n < fuel)%nat ->
  i <$> while fuel (loop_cond params) body s
  = Some (Spec.search binary32 (cx, cy) (zx s, zy s) (i s) n).
Proof.
  pose proof (u32_of_f32_range (max_iter params)) as Hcap. fold cap in Hcap.
  induction n as [|n IH]; intros fuel s Hi Hn Hfuel;
    (destruct fuel as [|fuel]; [lia|]); simpl.
  - unfold loop_cond. fold cap. rewrite (proj2 (Z.ltb_ge _ _)) by lia. done.
  - unfold loop_cond at 1. fold cap. rewrite (proj2 (Z.ltb_lt _ _)) by lia. simpl.
    change (flt _ _) with (Spec.inside binary32 (zx s, zy s)).
    destruct (Spec.inside binary32 (zx s, zy s)); [|done].
    assert (u32_add (i s) 1 = i s + 1) as Hadd.
    { unfold u32_add. apply Z.mod_small. lia. }
    rewrite IH; simpl; rewrite ?Hadd; try lia. done.
Qed.
End WgslLoop.

Lemma wgsl_escape_loop fuel params gx gy :
  (Z.to_nat (Wgsl.u32_of_f32 (Wgsl.max_iter params)) < fuel)%nat ->
  Wgsl.escape_loop fuel params gx gy
  = Some (Spec.escape_count binary32 (Wgsl.cell_cx params gx, Wgsl.cell_cy params gy)
            (Wgsl.u32_of_f32 (Wgsl.max_iter params))).
Proof.
  intros Hfuel. unfold Wgsl.escape_loop.
  by rewrite (wgsl_while_search _ _ _ (Z.to_nat (Wgsl.u32_of_f32 (Wgsl.max_iter params))))
    by (simpl; lia).
Qed.

(** * The array returned by the reference evaluator *)

Section CpuArray.
Import JS Cpu.
Variables (fuel : nat) (width height max_iter : Z).
Hypothesis Hw : width <= MAX_EXACT.
Hypothesis Hh : height <= MAX_EXACT.
Hypothesis Hm : max_iter <= MAX_EXACT.
Hypothesis Hfw : (Z.to_nat width < fuel)%nat.
Hypothesis Hfh : (Z.to_nat height < fuel)%nat.
Hypothesis Hfm : (Z.to_nat max_iter < fuel)%nat.

Lemma cpu_grid_loop data :
  grid_loop fuel width height max_iter data
  = Some (writes (cpu_index width) (cpu_value width height max_iter)
            data (grid width height)).
Proof.
  unfold grid_loop.
  rewrite (for_loop_total _
    (fun y data => foldl (fun data x =>
       Uint32Array_set data (y * width + x)
         (Spec.escape_count binary64 (cell_cx x width, cell_cy y height) max_iter))
       data (seqZ 0 width))); [|done|done|].
  - f_equal.
    rewrite (foldl_grid (fun x y data =>
       Uint32Array_set data (y * width + x)
         (Spec.escape_count binary64 (cell_cx x width, cell_cy y height) max_iter))).
    apply foldl_ext_in. intros a [x y] Hc. apply elem_of_grid in Hc. simpl.
    unfold Uint32Array_set. rewrite (proj2 (Z.ltb_ge _ _)) by nia. done.
  - intros y a _. unfold row_loop.
    apply for_loop_total; [done|done|].
    intros x a' _. by rewrite cpu_escape_loop.
Qed.

Lemma cpu_returns :
  0 <= width * height <= MAX_EXACT - 1 ->
  calculateMandelbrotCPU fuel width height max_iter
  = Some (Normal (cpu_array width height max_iter)).
Proof.
  intros Hwh. unfold calculateMandelbrotCPU, new_Uint32Array.
  rewrite (proj2 (Z.ltb_ge _ _)), (proj2 (Z.ltb_ge _ _)) by lia. simpl.
  by rewrite cpu_grid_loop.
Qed.
End CpuArray.

Lemma length_cpu_array width height max_iter :
  length (cpu_array width height max_iter) = Z.to_nat (width * height).
Proof. unfold cpu_array. by rewrite length_writes, length_replicate. Qed.

Lemma cpu_array_lookup width height max_iter x y :
  0 <= x < width -> 0 <= y < height ->
  cpu_array width height max_iter !! Z.to_nat (y * width + x)
  = Some (Spec.escape_count binary64 (Spec.sample binary64 x y width height) max_iter
          mod 2 ^ 32).
Proof.
  intros Hx Hy. unfold cpu_array.
  rewrite (writes_lookup_hit _ _ _ _ (x, y)).
  - done.
  - apply elem_of_grid. lia.
  - done.
  - rewrite length_replicate. nia.
  - intros [x' y'] Hc Hidx. apply elem_of_grid in Hc.
    unfold cpu_index in Hidx. simpl in Hidx.
    destruct (row_major_inj width x y x' y') as [-> ->]; [lia..|nia|done].
Qed.

(** With an empty grid nothing is written. *)
Lemma cpu_array_empty width height max_iter :
  width <= 0 \/ height <= 0 ->
  cpu_array width height max_iter = replicate (Z.to_nat (width * height)) 0.
Proof.
  intros Hwh. unfold cpu_array.
  assert (grid width height = []) as ->; [|done].
  unfold grid. destruct Hwh.
  - rewrite (seqZ_nil 0 width) by lia. by induction (seqZ 0 height).
  - by rewrite (seqZ_nil 0 height) by lia.
Qed.

(** * The array written by the kernel *)

Lemma foldl_filter {A B} (P : B -> Prop) `{!forall b, Decision (P b)}
    (f : A -> B -> A) (l : list B) a :
  (forall a b, ~ P b -> f a b = a) ->
  foldl f a l = foldl f a (filter P l).
Proof.
  intros Hskip. revert a. induction l as [|b l IH]; intros a; simpl; [done|].
  rewrite filter_cons. destruct (decide (P b)) as [Hb|Hb]; simpl.
  - apply IH.
  - rewrite Hskip by done. apply IH.
Qed.

Section WgslArray.
Import Wgsl.
Variables (fuel : nat) (params : Params).
Hypothesis Hfuel : (Z.to_nat (u32_of_f32 (max_iter params)) < fuel)%nat.

Lemma wgsl_main id output :
  main fuel params id output
  = Some (if decide (wgsl_inside params id)
          then <[wgsl_index params id := wgsl_value params id]> output
          else output).
Proof.
  destruct id as [gx gy]. unfold main, wgsl_inside. simpl.
  destruct (decide _) as [[Hx Hy]|Hout].
  - rewrite (proj2 (Z.leb_gt _ _)), (proj2 (Z.leb_gt _ _)) by lia. simpl.
    by rewrite wgsl_escape_loop.
  - destruct (_ <=? gx) eqn:Hx; [done|].
    destruct (_ <=? gy) eqn:Hy; [done|].
    apply Z.leb_gt in Hx, Hy. lia.
Qed.

(** Every invocation returns, and together they write the cells inside
    the grid, whatever their order. *)
Lemma wgsl_run ids output :
  run fuel params ids output
  = Some (writes (wgsl_index params) (wgsl_value params) output
            (filter (wgsl_inside params) ids)).
Proof.
  unfold run, writes.
  transitivity (Some (foldl (fun a c =>
    if decide (wgsl_inside params c)
    then <[wgsl_index params c := wgsl_value params c]> a else a) output ids)).
  - revert output. induction ids as [|id ids IH]; intros output; simpl; [done|].
    rewrite wgsl_main. apply IH.
  - f_equal. rewrite (foldl_filter (wgsl_inside params)).
    + apply foldl_ext_in. intros a c Hc.
      apply list_elem_of_filter in Hc as [Hc _]. by rewrite decide_True.
    + intros a c Hc. by rewrite decide_False.
Qed.
End WgslArray.

Lemma workgroups_cover n : n <= 8 * Wgsl.workgroups n.
Proof.
  unfold Wgsl.workgroups.
  pose proof (Z.div_mod (- n) 8). pose proof (Z.mod_pos_bound (- n) 8). lia.
Qed.

Lemma gpu_returns fuel width height max_iter :
  (Z.to_nat (Wgsl.u32_of_f32 (Wgsl.Float32Array_elem max_iter)) < fuel)%nat ->
  Wgsl.handleRun_gpu fuel width height max_iter
  = Some (gpu_array width height max_iter
            (Wgsl.invocations (Wgsl.workgroups width) (Wgsl.workgroups height))).
Proof. intros Hfuel. unfold Wgsl.handleRun_gpu. by rewrite wgsl_run. Qed.

Lemma length_gpu_array width height max_iter ids :
  length (gpu_array width height max_iter ids) = Z.to_nat (width * height).
Proof. unfold gpu_array. by rewrite length_writes, length_replicate. Qed.

Lemma gpu_array_lookup width height max_iter ids x y :
  f32_exact width -> f32_exact height -> f32_exact max_iter ->
  width * height <= 2 ^ 32 ->
  0 <= x < width -> 0 <= y < height ->
  (x, y) ∈ ids ->
  (forall c, c ∈ ids -> 0 <= fst c /\ 0 <= snd c) ->
  gpu_array width height max_iter ids !! Z.to_nat (y * width + x)
  = Some (Spec.escape_count binary32 (Spec.sample binary32 x y width height) max_iter).
Proof.
  intros Ew Eh Em Hwh Hx Hy Hin Hpos. unfold gpu_array.
  set (params := Wgsl.uniform width height max_iter).
  assert (forall c, wgsl_inside params c -> 0 <= fst c -> 0 <= snd c ->
          wgsl_index params c = Z.to_nat (snd c * width + fst c)) as Hidx.
  { intros [gx gy] [Hgx Hgy] Hgx0 Hgy0. unfold wgsl_index. simpl in *.
    change (Wgsl.u32_of_f32 (Wgsl.width params)) with (Wgsl.u32_of_f32 (Wgsl.Float32Array_elem width)) in *.
    change (Wgsl.u32_of_f32 (Wgsl.height params)) with (Wgsl.u32_of_f32 (Wgsl.Float32Array_elem height)) in *.
    rewrite Ew in *. rewrite Eh in *.
    unfold Wgsl.u32_add, Wgsl.u32_mul.
    rewrite (Z.mod_small (gy * width)) by nia.
    rewrite Z.mod_small by nia. done. }
  assert (wgsl_inside params (x, y)) as Hxy.
  { unfold wgsl_inside. simpl.
    change (x < Wgsl.u32_of_f32 (Wgsl.Float32Array_elem width)
            /\ y < Wgsl.u32_of_f32 (Wgsl.Float32Array_elem height)).
    rewrite Ew, Eh. lia. }
  rewrite (writes_lookup_hit _ _ _ _ (x, y)).
  - unfold wgsl_value. simpl.
    change (Wgsl.u32_of_f32 (Wgsl.max_iter params)) with (Wgsl.u32_of_f32 (Wgsl.Float32Array_elem max_iter)).
    by rewrite Em.
  - by apply list_elem_of_filter.
  - rewrite Hidx; [done|done|simpl; lia..].
  - rewrite length_replicate. nia.
  - intros [x' y'] Hc Heq. apply list_elem_of_filter in Hc as [Hc Hc'].
    pose proof (Hpos _ Hc') as [Hx' Hy']. simpl in *.
    rewrite Hidx in Heq by done. simpl in Heq.
    destruct Hc as [Hcx Hcy]. simpl in Hcx, Hcy.
    change (Wgsl.u32_of_f32 (Wgsl.width params)) with (Wgsl.u32_of_f32 (Wgsl.Float32Array_elem width)) in *.
    change (Wgsl.u32_of_f32 (Wgsl.height params)) with (Wgsl.u32_of_f32 (Wgsl.Float32Array_elem height)) in *.
    rewrite Ew in Hcx. rewrite Eh in Hcy.
    destruct (row_major_inj width x y x' y') as [-> ->]; [lia..|nia|done].
Qed.

Lemma elem_of_invocations width height x y :
  0 <= x < width -> 0 <= y < height ->
  (x, y) ∈ Wgsl.invocations (Wgsl.workgroups width) (Wgsl.workgroups height).
Proof.
  intros Hx Hy. apply elem_of_grid.
  pose proof (workgroups_cover width). pose proof (workgroups_cover height). lia.
Qed.

Lemma invocations_nonneg nx ny c :
  c ∈ Wgsl.invocations nx ny -> 0 <= fst c /\ 0 <= snd c.
Proof. destruct c as [x y]. intros Hc. apply elem_of_grid in Hc. simpl. lia. Qed.

(** * A cap of zero *)




(** * A sample point at the origin *)

Lemma orbit_origin F n :
  Spec.step F (of_Z F 0, of_Z F 0) (of_Z F 0, of_Z F 0) = (of_Z F 0, of_Z F 0) ->
  Spec.orbit F (of_Z F 0, of_Z F 0) n = (of_Z F 0, of_Z F 0).
Proof. intros Hfix. induction n as [|n IH]; [done|]. by rewrite orbit_succ, IH. Qed.

Lemma escape_count_origin64 maxIter :
  0 <= maxIter ->
  Spec.escape_count binary64 (of_Z binary64 0, of_Z binary64 0) maxIter = maxIter.
Proof.
  intros Hm. apply escape_count_inside; [done|]. intros n.
  by rewrite orbit_origin.
Qed.


(** The order in which the invocations run does not show in the array. *)
Lemma gpu_array_permutation width height max_iter ids ids' :
  f32_exact width -> f32_exact height -> width * height <= 2 ^ 32 ->
  (forall c, c ∈ ids -> 0 <= fst c /\ 0 <= snd c) ->
  ids ≡ₚ ids' ->
  gpu_array width height max_iter ids = gpu_array width height max_iter ids'.
Proof.
  intros Ew Eh Hwh Hpos Hperm. unfold gpu_array.
  set (params := Wgsl.uniform width height max_iter).
  set (out := replicate (Z.to_nat (width * height)) 0).
  assert (forall c, wgsl_inside params c -> 0 <= fst c -> 0 <= snd c ->
          wgsl_index params c = Z.to_nat (snd c * width + fst c)
          /\ fst c < width /\ snd c < height) as Hidx.
  { intros [gx gy] [Hgx Hgy] Hgx0 Hgy0. unfold wgsl_index. simpl in *.
    change (Wgsl.u32_of_f32 (Wgsl.width params))
      with (Wgsl.u32_of_f32 (Wgsl.Float32Array_elem width)) in *.
    change (Wgsl.u32_of_f32 (Wgsl.height params))
      with (Wgsl.u32_of_f32 (Wgsl.Float32Array_elem height)) in *.
    rewrite Ew in *. rewrite Eh in *.
    unfold Wgsl.u32_add, Wgsl.u32_mul.
    rewrite (Z.mod_small (gy * width)) by nia.
    rewrite Z.mod_small by nia. done. }
  apply list_eq. intros k.
  destruct (decide (Exists (fun c => wgsl_index params c = k)
                      (filter (wgsl_inside params) ids))) as [Hhit|Hmiss].
  - apply Exists_exists in Hhit as (c & Hc & Hk).
    destruct (decide (k < length out)%nat) as [Hlen|Hlen].
    + assert (forall l : list (Z * Z), (forall c', c' ∈ l -> c' ∈ ids) ->
        forall c', c' ∈ filter (wgsl_inside params) l ->
                   wgsl_index params c' = k ->
                   wgsl_value params c' = wgsl_value params c) as Hsame.
      { intros l Hl c' Hc' Hk'.
        apply list_elem_of_filter in Hc' as [Hin' Hc'].
        apply list_elem_of_filter in Hc as [Hin Hc].
        destruct (Hpos _ Hc) as [? ?]. destruct (Hpos _ (Hl _ Hc')) as [? ?].
        destruct (Hidx _ Hin) as (Hi & ? & ?); [done..|].
        destruct (Hidx _ Hin') as (Hi' & ? & ?); [done..|].
        destruct c as [x y], c' as [x' y']. simpl in *.
        destruct (row_major_inj width x y x' y') as [-> ->]; [lia|lia|lia|lia| |done].
        assert (Z.to_nat (y * width + x) = Z.to_nat (y' * width + x')) by congruence.
        nia. }
      rewrite !(writes_lookup_hit _ _ _ _ c); try done.
      * rewrite <- Hperm. done.
      * apply (Hsame ids'). intros c'. by rewrite <- Hperm.
      * by apply (Hsame ids).
    + rewrite !lookup_ge_None_2; [done|rewrite length_writes; lia..].
  - rewrite !writes_lookup_miss; [done|..].
    + intros c Hc Hk. apply Hmiss, Exists_exists. exists c.
      rewrite Hperm. done.
    + intros c Hc Hk. apply Hmiss, Exists_exists. by exists c.
Qed.

(** * Integers that are [f32] values *)

Lemma digits2_pos_bounds p :
  2 ^ (Z.pos (digits2_pos p) - 1) <= Z.pos p < 2 ^ Z.pos (digits2_pos p).
Proof.
  induction p as [p IH|p IH|]; simpl digits2_pos.
  - rewrite Pos2Z.inj_succ. replace (Z.succ (Z.pos (digits2_pos p)) - 1) with (Z.pos (digits2_pos p)) by lia.
    rewrite Z.pow_succ_r by lia.
    replace (Z.pos (digits2_pos p)) with (Z.succ (Z.pos (digits2_pos p) - 1)) at 1 by lia.
    rewrite Z.pow_succ_r by lia. lia.
  - rewrite Pos2Z.inj_succ. replace (Z.succ (Z.pos (digits2_pos p)) - 1) with (Z.pos (digits2_pos p)) by lia.
    rewrite Z.pow_succ_r by lia.
    replace (Z.pos (digits2_pos p)) with (Z.succ (Z.pos (digits2_pos p) - 1)) at 1 by lia.
    rewrite Z.pow_succ_r by lia. lia.
  - simpl. lia.
Qed.

Lemma iter_xO_spec p k :
  Z.pos (Pos.iter xO p k) = Z.pos p * 2 ^ Z.pos k
  /\ digits2_pos (Pos.iter xO p k) = (digits2_pos p + k)%positive.
Proof.
  induction k as [|k IH] using Pos.peano_ind.
  - simpl. split; lia.
  - rewrite Pos.iter_succ. destruct IH as [IH1 IH2]. split.
    + rewrite Pos2Z.inj_xO, IH1, Pos2Z.inj_succ, Z.pow_succ_r by lia. lia.
    + simpl. rewrite IH2. lia.
Qed.

(** A mantissa of full width at a representable exponent is not rounded. *)
Lemma binary_round_aux_exact prec emax s m e :
  Z.pos (digits2_pos m) = prec ->
  3 - emax - prec <= e <= emax - prec ->
  binary_round_aux prec emax s (Z.pos m) e loc_Exact = S754_finite s m e.
Proof.
  intros Hd He. unfold binary_round_aux, shr_fexp.
  assert (fexp prec emax (Zdigits2 (Z.pos m) + e) - e = 0) as ->.
  { unfold fexp, emin. cbn [Zdigits2]. lia. }
  cbn [shr shr_record_of_loc loc_of_shr_record round_nearest_even shr_m].
  assert (fexp prec emax (Zdigits2 (Z.pos m) + e) - e = 0) as ->.
  { unfold fexp, emin. cbn [Zdigits2]. lia. }
  cbn [shr shr_m]. by rewrite (proj2 (Z.leb_le _ _)) by lia.
Qed.

(** Every integer below [2^24] is an [f32] value. *)
Lemma f32_exact_small z : 0 <= z < 2 ^ 24 -> f32_exact z.
Proof.
  intros Hz. unfold f32_exact, Wgsl.Float32Array_elem, of_Z, dyadic, binary_normalize.
  destruct z as [|p|p]; [done| |lia].
  pose proof (digits2_pos_bounds p) as Hd.
  assert (Z.pos (digits2_pos p) <= 24) as Hd24.
  { destruct (Z.le_gt_cases (Z.pos (digits2_pos p)) 24); [done|].
    assert (2 ^ 24 <= 2 ^ (Z.pos (digits2_pos p) - 1)) by (apply Z.pow_le_mono_r; lia). lia. }
  unfold binary_round. cbn [fprec femax binary32].
  unfold fexp, emin. rewrite Z.add_0_r, Z.max_l by lia.
  unfold shl_align.
  destruct (Z.pos (digits2_pos p) - 24 - 0) as [|k|k] eqn:Hk; [|lia|].
  - rewrite binary_round_aux_exact by lia.
    unfold Wgsl.u32_of_f32, ftrunc. change (0 <=? 0) with true. cbv iota.
    rewrite Z.pow_0_r. lia.
  - destruct (iter_xO_spec p k) as [Hv Hdig].
    rewrite binary_round_aux_exact by (rewrite ?Hdig; lia).
    unfold Wgsl.u32_of_f32, ftrunc.
    rewrite (proj2 (Z.leb_gt _ _)) by lia.
    rewrite Hv.
    replace (- (Z.pos (digits2_pos p) - 24)) with (Z.pos k) by lia.
    rewrite Z.div_mul by (apply Z.pow_nonzero; lia). lia.
Qed.

(** * Ordered comparisons, and fuel *)

(** For two ordered values, the strict comparison [a < b] fails exactly
    when [b <= a]. *)
Lemma SFcompare_antisym a b c :
  SFcompare a b = Some c -> SFcompare b a = Some (CompOpp c).
Proof.
  destruct a as [sa|sa| |sa ma ea], b as [sb|sb| |sb mb eb]; simpl;
    intros H; simplify_eq; try done;
    try (by destruct sa); try (by destruct sb); try (by destruct sa, sb).
  destruct sa, sb; try done; f_equal;
    rewrite (Z.compare_antisym ea eb); destruct (ea ?= eb); simpl; try done;
    rewrite (Pos.compare_cont_antisym _ _ Eq); simpl;
    by destruct (Pos.compare_cont Eq ma mb).
Qed.

Lemma flt_false_fle a b :
  SFcompare a b <> None -> (flt a b = false <-> fle b a = true).
Proof.
  unfold flt, fle, SFltb, SFleb. intros Hord.
  destruct (SFcompare a b) as [c|] eqn:Hc; [|done].
  rewrite (SFcompare_antisym _ _ _ Hc). by destruct c.
Qed.

(** Fuel only decides whether a result is reached, not which. *)
Lemma for_loop_mono {A} (body body' : Z -> A -> option A) fuel fuel' bound a r :
  (forall k a a', body k a = Some a' -> body' k a = Some a') ->
  (fuel <= fuel')%nat ->
  JS.for_loop fuel bound body a = Some r ->
  JS.for_loop fuel' bound body' a = Some r.
Proof.
  intros Hb Hle. unfold JS.for_loop. intros Hrun.
  apply fmap_Some in Hrun as (s & Hrun & ->).
  assert (forall s s' : Z * A,
    (let '(k, a) := s in a' ← body k a; Some (JS.js_incr k, a')) = Some s' ->
    (let '(k, a) := s in a' ← body' k a; Some (JS.js_incr k, a')) = Some s') as Hstep.
  { intros [k a1] s' Hs. simpl in *.
    destruct (body k a1) as [a'|] eqn:Hk; [|done]. by rewrite (Hb _ _ _ Hk). }
  by rewrite (while_mono _ _ _ _ _ _ _ Hstep Hle Hrun).
Qed.

Lemma cpu_escape_loop_mono fuel fuel' cx cy max_iter i :
  (fuel <= fuel')%nat ->
  Cpu.escape_loop fuel cx cy max_iter = Some i ->
  Cpu.escape_loop fuel' cx cy max_iter = Some i.
Proof.
  intros Hle. unfold Cpu.escape_loop. intros Hrun.
  apply fmap_Some in Hrun as (s & Hrun & ->).
  by rewrite (while_mono _ _ _ _ _ _ _ (fun _ _ H => H) Hle Hrun).
Qed.

Lemma cpu_fuel_mono fuel fuel' width height max_iter r :
  (fuel <= fuel')%nat ->
  Cpu.calculateMandelbrotCPU fuel width height max_iter = Some r ->
  Cpu.calculateMandelbrotCPU fuel' width height max_iter = Some r.
Proof.
  intros Hle. unfold Cpu.calculateMandelbrotCPU.
  destruct (JS.new_Uint32Array _) as [data|e]; [|done]. intros Hrun.
  apply fmap_Some in Hrun as (d & Hrun & ->).
  unfold Cpu.grid_loop in *.
  assert (forall y a a',
    Cpu.row_loop fuel width height max_iter y a = Some a' ->
    Cpu.row_loop fuel' width height max_iter y a = Some a') as Hrow.
  { intros y a a'. unfold Cpu.row_loop. apply for_loop_mono; [|done].
    intros x a1 a1' Hcell.
    destruct (Cpu.escape_loop fuel _ _ _) as [i|] eqn:Hi; [|done].
    by rewrite (cpu_escape_loop_mono _ _ _ _ _ _ Hle Hi). }
  by rewrite (for_loop_mono _ _ _ _ _ _ _ Hrow Hle Hrun).
Qed.

Lemma wgsl_fuel_mono fuel fuel' width height max_iter r :
  (fuel <= fuel')%nat ->
  Wgsl.handleRun_gpu fuel width height max_iter = Some r ->
  Wgsl.handleRun_gpu fuel' width height max_iter = Some r.
Proof.
  intros Hle. unfold Wgsl.handleRun_gpu, Wgsl.run.
  generalize (replicate (Z.to_nat (width * height)) 0) as out.
  generalize (Wgsl.invocations (Wgsl.workgroups width) (Wgsl.workgroups height)) as ids.
  intros ids. revert r. induction ids as [|id ids IH] using rev_ind; intros r out; [done|].
  rewrite !foldl_app. simpl. intros Hrun.
  destruct (foldl _ (Some out) ids) as [o|] eqn:Ho; [|done].
  rewrite (IH _ _ Ho). simpl in *.
  revert Hrun. unfold Wgsl.main. destruct id as [gx gy].
  destruct (_ || _); [done|].
  unfold Wgsl.escape_loop.
  destruct (while fuel _ _ _) as [s|] eqn:Hs; [|done].
  by rewrite (while_mono _ _ _ _ _ _ _ (fun _ _ H => H) Hle Hs).
Qed.

(** * Magnitudes of rounded values *)

Lemma Zdigits2_nonneg m : 0 <= Zdigits2 m.
Proof. destruct m; simpl; lia. Qed.

Lemma Zdigits2_bounds m :
  0 < m -> 2 ^ (Zdigits2 m - 1) <= m < 2 ^ Zdigits2 m.
Proof. destruct m as [|p|p]; try lia. intros _. apply digits2_pos_bounds. Qed.

Lemma Zdigits2_le m k : 0 <= m < 2 ^ k -> 0 <= k -> Zdigits2 m <= k.
Proof.
  intros Hm Hk. destruct (decide (m = 0)) as [->|]; [done|].
  pose proof (Zdigits2_bounds m ltac:(lia)) as Hd.
  destruct (Z.le_gt_cases (Zdigits2 m) k); [done|].
  assert (2 ^ k <= 2 ^ (Zdigits2 m - 1)) by (apply Z.pow_le_mono_r; lia). lia.
Qed.

Lemma Zdigits2_ge m k : 0 <= k -> 2 ^ k <= m -> k + 1 <= Zdigits2 m.
Proof.
  intros Hk Hm. assert (0 < m) by (pose proof (Z.pow_pos_nonneg 2 k); lia).
  pose proof (Zdigits2_bounds m ltac:(lia)) as Hd.
  destruct (Z.le_gt_cases (k + 1) (Zdigits2 m)); [done|].
  assert (2 ^ Zdigits2 m <= 2 ^ k) by (apply Z.pow_le_mono_r; lia). lia.
Qed.

Lemma Zdigits2_div m n :
  0 <= m -> 0 <= n -> Zdigits2 (m / 2 ^ n) <= Z.max 0 (Zdigits2 m - n).
Proof.
  intros Hm Hn. pose proof (Zdigits2_nonneg m).
  assert (0 < 2 ^ n) by (apply Z.pow_pos_nonneg; lia).
  destruct (decide (m = 0)) as [->|]; [rewrite Z.div_0_l by lia; simpl; lia|].
  pose proof (Zdigits2_bounds m ltac:(lia)) as [_ Hd].
  destruct (Z.le_gt_cases n (Zdigits2 m)) as [Hle|Hgt].
  - rewrite Z.max_r by lia. apply Zdigits2_le; [|lia].
    split; [apply Z.div_pos; lia|].
    apply Z.div_lt_upper_bound; [lia|].
    rewrite <- Z.pow_add_r by lia. by replace (n + (Zdigits2 m - n)) with (Zdigits2 m) by lia.
  - rewrite Z.div_small; [simpl; lia|]. split; [lia|].
    assert (2 ^ Zdigits2 m <= 2 ^ n) by (apply Z.pow_le_mono_r; lia). lia.
Qed.

Lemma Zdigits2_succ m : 0 <= m -> Zdigits2 (m + 1) <= Zdigits2 m + 1.
Proof.
  intros Hm. pose proof (Zdigits2_nonneg m).
  destruct (decide (m = 0)) as [->|]; [simpl; lia|].
  pose proof (Zdigits2_bounds m ltac:(lia)) as [_ Hd].
  apply Zdigits2_le; [|lia]. rewrite Z.pow_add_r by lia. change (2 ^ 1) with 2. lia.
Qed.

Lemma iter_pos_shr_1 p mrs :
  0 <= shr_m mrs -> shr_m (SpecFloat.iter_pos shr_1 p mrs) = shr_m mrs / 2 ^ Z.pos p.
Proof.
  assert (forall mrs, 0 <= shr_m mrs -> shr_m (shr_1 mrs) = shr_m mrs / 2) as Hone.
  { intros [m r s] Hm. simpl in *.
    destruct m as [|[q|q|]|q]; simpl; try lia; try done.
    - change (Z.pos q~1) with (1 + 2 * Z.pos q).
      by rewrite Z.mul_comm, Z.div_add by lia.
    - change (Z.pos q~0) with (2 * Z.pos q).
      by rewrite Z.mul_comm, Z.div_mul by lia. }
  assert (forall mrs, 0 <= shr_m mrs -> 0 <= shr_m mrs / 2) as Hpos.
  { intros. apply Z.div_pos; lia. }
  assert (forall q, 0 < 2 ^ Z.pos q) as Hpow by (intros; apply Z.pow_pos_nonneg; lia).
  revert mrs. induction p as [p IH|p IH|]; intros mrs Hm; simpl SpecFloat.iter_pos.
  - assert (0 <= shr_m (shr_1 mrs)) as HA by (rewrite Hone by done; by apply Hpos).
    pose proof (IH _ HA) as HB.
    assert (0 <= shr_m (SpecFloat.iter_pos shr_1 p (shr_1 mrs))) as HB'.
    { rewrite HB. apply Z.div_pos; [done|apply Hpow]. }
    rewrite (IH _ HB'), HB, Hone by done.
    pose proof (Hpow p).
    rewrite !Z.div_div by lia. f_equal.
    change 2 with (2 ^ 1) at 1. rewrite <- !Z.pow_add_r by lia. f_equal. lia.
  - pose proof (IH _ Hm) as HB.
    assert (0 <= shr_m (SpecFloat.iter_pos shr_1 p mrs)) as HB'.
    { rewrite HB. apply Z.div_pos; [done|apply Hpow]. }
    rewrite (IH _ HB'), HB.
    pose proof (Hpow p).
    rewrite !Z.div_div by lia. f_equal.
    rewrite <- Z.pow_add_r by lia. f_equal. lia.
  - by rewrite Hone.
Qed.

Section Rounding.
Variables prec emax : Z.
Hypothesis Hprec : 0 < prec.
Hypothesis Hemax : prec < emax.

(** What a shift to the canonical exponent does to a mantissa. *)
Lemma shr_fexp_spec m e l :
  0 <= m ->
  let n := Z.max 0 (fexp prec emax (Zdigits2 m + e) - e) in
  shr_m (fst (shr_fexp prec emax m e l)) = m / 2 ^ n
  /\ snd (shr_fexp prec emax m e l) = e + n.
Proof.
  intros Hm. unfold shr_fexp, shr.
  destruct (fexp prec emax (Zdigits2 m + e) - e) as [|p|p] eqn:Hn; simpl.
  - rewrite Z.div_1_r. by destruct l as [|[]]; simpl; rewrite ?Z.add_0_r.
  - rewrite iter_pos_shr_1 by (by destruct l as [|[]]).
    rewrite Z.max_r by lia. by destruct l as [|[]].
  - rewrite Z.div_1_r. by destruct l as [|[]]; simpl; rewrite ?Z.add_0_r.
Qed.

(** After the shift the mantissa has at most [prec] digits, and the
    magnitude has not grown past the smallest exponent. *)
Lemma shr_fexp_digits m e l :
  0 <= m ->
  let m' := shr_m (fst (shr_fexp prec emax m e l)) in
  let e' := snd (shr_fexp prec emax m e l) in
  0 <= m' /\ e <= e' /\ fexp prec emax (Zdigits2 m + e) <= e'
  /\ Zdigits2 m' <= prec
  /\ Zdigits2 m' + e' <= Z.max (Zdigits2 m + e) (emin prec emax).
Proof.
  intros Hm. cbv zeta. destruct (shr_fexp_spec m e l Hm) as [-> ->].
  set (d := Zdigits2 m). set (n := Z.max 0 _).
  pose proof (Zdigits2_nonneg m). fold d in H.
  assert (0 < 2 ^ n) by (apply Z.pow_pos_nonneg; lia).
  pose proof (Zdigits2_div m n Hm ltac:(lia)) as Hdiv. fold d in Hdiv.
  assert (0 <= m / 2 ^ n) by (apply Z.div_pos; lia).
  unfold fexp in *. lia.
Qed.

Lemma round_nearest_even_range m l :
  m <= round_nearest_even m l <= m + 1.
Proof. destruct l as [|[]]; simpl; try lia. destruct (Z.even m); lia. Qed.

Lemma Zdigits2_mono a b : 0 <= a <= b -> Zdigits2 a <= Zdigits2 b.
Proof.
  intros Hab. destruct (decide (b = 0)) as [->|]; [by replace a with 0 by lia|].
  pose proof (Zdigits2_bounds b ltac:(lia)) as [_ Hb].
  apply Zdigits2_le; [lia|apply Zdigits2_nonneg].
Qed.

(** The outcomes of a rounding of [m * 2^e], [0 <= m]: never NaN; the
    sign is kept; a finite result has its exponent between the canonical
    one and the largest one, and a magnitude at most one above that of the
    input; an infinity needs an input magnitude above [emax - prec]. *)
Lemma binary_round_aux_cases s m e l :
  0 <= m ->
  match binary_round_aux prec emax s m e l with
  | S754_nan => False
  | S754_zero s' => s' = s
  | S754_infinity s' =>
      s' = s /\ emax - prec < Z.max (Zdigits2 m + e) (emin prec emax)
  | S754_finite s' m' e' =>
      s' = s /\ e <= e' /\ fexp prec emax (Zdigits2 m + e) <= e' <= emax - prec
      /\ Z.pos (digits2_pos m') + e' <= Z.max (Zdigits2 m + e) (emin prec emax) + 1
  end.
Proof.
  intros Hm. unfold binary_round_aux.
  pose proof (shr_fexp_digits m e l Hm) as H1. cbv zeta in H1.
  destruct (shr_fexp prec emax m e l) as [mrs1 e1]. simpl in H1.
  destruct H1 as (Hm1 & He1 & Hf1 & Hd1 & Hmag1).
  set (m2 := round_nearest_even (shr_m mrs1) (loc_of_shr_record mrs1)).
  pose proof (round_nearest_even_range (shr_m mrs1) (loc_of_shr_record mrs1)) as Hm2.
  fold m2 in Hm2.
  assert (Zdigits2 m2 <= Zdigits2 (shr_m mrs1) + 1) as Hd2.
  { etrans; [apply (Zdigits2_mono m2 (shr_m mrs1 + 1)); lia|].
    by apply Zdigits2_succ. }
  pose proof (shr_fexp_digits m2 e1 loc_Exact ltac:(lia)) as H2. cbv zeta in H2.
  destruct (shr_fexp prec emax m2 e1 loc_Exact) as [mrs3 e3]. simpl in H2.
  destruct H2 as (Hm3 & He3 & Hf3 & Hd3 & Hmag3).
  destruct (shr_m mrs3) as [|m3|m3] eqn:Hmrs3; [done| |lia].
  change (Zdigits2 (Z.pos m3)) with (Z.pos (digits2_pos m3)) in *.
  destruct (e3 <=? emax - prec) eqn:Hle.
  - apply Z.leb_le in Hle. split; [done|]. unfold fexp in *. lia.
  - apply Z.leb_gt in Hle. split; [done|]. unfold fexp in *. lia.
Qed.

Lemma div_pow2_pos m n :
  0 < m -> 0 <= n < Zdigits2 m -> 0 < m / 2 ^ n.
Proof.
  intros Hm Hn. pose proof (Zdigits2_bounds m Hm) as [Hd _].
  assert (0 < 2 ^ n) by (apply Z.pow_pos_nonneg; lia).
  apply Z.div_str_pos. split; [done|].
  etrans; [|exact Hd]. apply Z.pow_le_mono_r; lia.
Qed.

(** Above the subnormal range a positive value does not round to
    zero. *)
Lemma binary_round_aux_nonzero s m e l s' :
  0 < m -> emin prec emax + prec < Zdigits2 m + e ->
  binary_round_aux prec emax s m e l <> S754_zero s'.
Proof.
  intros Hm Hmag. unfold binary_round_aux.
  pose proof (shr_fexp_spec m e l ltac:(lia)) as H1. cbv zeta in H1.
  destruct (shr_fexp prec emax m e l) as [mrs1 e1]. simpl in H1.
  destruct H1 as [Hm1 He1].
  pose proof (Zdigits2_bounds m Hm) as Hd.
  assert (1 <= Zdigits2 m).
  { destruct (Z.le_gt_cases 1 (Zdigits2 m)); [done|].
    pose proof (Zdigits2_nonneg m).
    replace (Zdigits2 m) with 0 in Hd by lia. simpl in Hd. lia. }
  assert (0 < shr_m mrs1) as Hpos1.
  { rewrite Hm1. apply div_pow2_pos; [done|]. unfold fexp. lia. }
  set (m2 := round_nearest_even (shr_m mrs1) (loc_of_shr_record mrs1)).
  pose proof (round_nearest_even_range (shr_m mrs1) (loc_of_shr_record mrs1)) as Hm2.
  fold m2 in Hm2.
  pose proof (shr_fexp_spec m2 e1 loc_Exact ltac:(lia)) as H2. cbv zeta in H2.
  destruct (shr_fexp prec emax m2 e1 loc_Exact) as [mrs3 e3]. simpl in H2.
  destruct H2 as [Hm3 He3].
  pose proof (Zdigits2_bounds m2 ltac:(lia)) as Hd2.
  assert (1 <= Zdigits2 m2).
  { destruct (Z.le_gt_cases 1 (Zdigits2 m2)); [done|].
    pose proof (Zdigits2_nonneg m2).
    replace (Zdigits2 m2) with 0 in Hd2 by lia. simpl in Hd2. lia. }
  assert (0 < shr_m mrs3) as Hpos3.
  { rewrite Hm3. apply div_pow2_pos; [lia|]. unfold fexp in *. lia. }
  destruct (shr_m mrs3); [lia| |done]. by destruct (_ <=? _).
Qed.
End Rounding.

Lemma magnitude_le_finite k v : magnitude_le k v -> finite v.
Proof. by destruct v. Qed.

Lemma magnitude_le_mono k k' v : k <= k' -> magnitude_le k v -> magnitude_le k' v.
Proof. destruct v; simpl; try done. lia. Qed.

Lemma digits2_pos_mul mx my :
  Z.pos (digits2_pos mx) + Z.pos (digits2_pos my) - 1 <= Z.pos (digits2_pos (mx * my))
  <= Z.pos (digits2_pos mx) + Z.pos (digits2_pos my).
Proof.
  pose proof (digits2_pos_bounds mx) as [Hx1 Hx2].
  pose proof (digits2_pos_bounds my) as [Hy1 Hy2].
  change (Z.pos (digits2_pos (mx * my))) with (Zdigits2 (Z.pos mx * Z.pos my)).
  split.
  - assert (Z.pos (digits2_pos mx) + Z.pos (digits2_pos my) - 2 + 1
            <= Zdigits2 (Z.pos mx * Z.pos my)); [|lia].
    apply Zdigits2_ge; [lia|].
    replace (Z.pos (digits2_pos mx) + Z.pos (digits2_pos my) - 2)
      with ((Z.pos (digits2_pos mx) - 1) + (Z.pos (digits2_pos my) - 1)) by lia.
    rewrite Z.pow_add_r by lia. apply Z.mul_le_mono_nonneg; lia.
  - apply Zdigits2_le; [|lia]. split; [lia|].
    rewrite Z.pow_add_r by lia. apply Z.mul_lt_mono_nonneg; lia.
Qed.

Section Operations.
Variables prec emax : Z.
Hypothesis Hprec : 0 < prec.
Hypothesis Hemax : prec < emax.

Local Abbreviation emin := (emin prec emax).

(** A rounding that does not overflow: the magnitude grows by at most
    one. *)
Lemma binary_round_aux_small s m e l k :
  0 <= m -> Zdigits2 m + e <= k -> emin <= k -> k <= emax - prec ->
  magnitude_le (k + 1) (binary_round_aux prec emax s m e l).
Proof.
  intros Hm Hk Hmin Hmax.
  pose proof (binary_round_aux_cases prec emax Hprec s m e l Hm) as H.
  destruct (binary_round_aux prec emax s m e l); simpl; try done; lia.
Qed.

Lemma binary_round_aux_not_nan s m e l :
  0 <= m -> binary_round_aux prec emax s m e l <> S754_nan.
Proof.
  intros Hm Hnan.
  pose proof (binary_round_aux_cases prec emax Hprec s m e l Hm) as H.
  by rewrite Hnan in H.
Qed.

Lemma shl_align_spec p e e' :
  Z.pos (digits2_pos (fst (shl_align p e e'))) + snd (shl_align p e e')
  = Z.pos (digits2_pos p) + e
  /\ snd (shl_align p e e') <= e.
Proof.
  unfold shl_align. destruct (e' - e) as [|k|k] eqn:Hk; simpl; try lia.
  destruct (iter_xO_spec p k) as [_ ->]. lia.
Qed.

Lemma binary_round_small s p e k :
  Z.pos (digits2_pos p) + e <= k -> emin <= k -> k <= emax - prec ->
  magnitude_le (k + 1) (binary_round prec emax s p e).
Proof.
  intros Hk Hmin Hmax. unfold binary_round.
  pose proof (shl_align_spec p e (fexp prec emax (Z.pos (digits2_pos p) + e))) as [Hmag _].
  destruct (shl_align _ _ _) as [mz ez]. simpl in Hmag.
  apply binary_round_aux_small; simpl; lia.
Qed.

Lemma binary_round_not_nan s p e : binary_round prec emax s p e <> S754_nan.
Proof.
  unfold binary_round. destruct (shl_align _ _ _) as [mz ez].
  by apply binary_round_aux_not_nan.
Qed.

Lemma binary_normalize_small m e k :
  Zdigits2 m + e <= k -> emin <= k -> k <= emax - prec ->
  magnitude_le (k + 1) (binary_normalize prec emax m e false).
Proof.
  intros Hk Hmin Hmax. destruct m as [|p|p]; simpl; [done|..];
    by apply binary_round_small.
Qed.

Lemma binary_normalize_not_nan m e :
  binary_normalize prec emax m e false <> S754_nan.
Proof. destruct m; simpl; [done|..]; apply binary_round_not_nan. Qed.

(** *** Products *)

Lemma SFmul_small a b x y :
  magnitude_le a x -> magnitude_le b y ->
  emin <= a + b -> a + b <= emax - prec ->
  magnitude_le (a + b + 1) (SFmul prec emax x y).
Proof.
  intros Hx Hy Hmin Hmax.
  destruct x as [sx|sx| |sx mx ex], y as [sy|sy| |sy my ey]; simpl in *; try done.
  pose proof (digits2_pos_mul mx my).
  apply binary_round_aux_small; simpl; lia.
Qed.

Lemma SFmul_not_nan x y : finite x -> finite y -> SFmul prec emax x y <> S754_nan.
Proof.
  destruct x as [sx|sx| |sx mx ex], y as [sy|sy| |sy my ey]; simpl; try done.
  intros _ _. by apply binary_round_aux_not_nan.
Qed.

(** A square that did not overflow bounds its argument. *)
Lemma SFmul_self_finite s m e :
  finite (SFmul prec emax (S754_finite s m e) (S754_finite s m e)) ->
  2 * (Z.pos (digits2_pos m) + e) <= emax + 1.
Proof.
  simpl. pose proof (digits2_pos_mul m m) as [Hd _].
  pose proof (binary_round_aux_cases prec emax Hprec (xorb s s) (Z.pos (m * m)) (e + e)
                loc_Exact ltac:(lia)) as H.
  pose proof (binary_round_aux_nonzero prec emax Hprec (xorb s s) (Z.pos (m * m)) (e + e)
                loc_Exact) as Hnz.
  destruct (binary_round_aux _ _ _ _ _ _) as [s'|s'| |s' m' e']; try done; intros _.
  - destruct (Z.le_gt_cases (Zdigits2 (Z.pos (m * m)) + (e + e)) (emin + prec)) as [Hle|Hgt].
    + simpl in Hle. unfold SpecFloat.emin in Hle. lia.
    + by specialize (Hnz s' ltac:(lia) Hgt).
  - simpl in H. unfold fexp in H. lia.
Qed.

(** *** Sums and differences *)

Lemma shl_align_value p e e' :
  e' <= e ->
  Z.pos (fst (shl_align p e e')) < 2 ^ (Z.pos (digits2_pos p) + e - e').
Proof.
  intros He. pose proof (digits2_pos_bounds p) as [_ Hp].
  unfold shl_align. destruct (e' - e) as [|k|k] eqn:Hk; simpl; try lia.
  - by replace (Z.pos (digits2_pos p) + e - e') with (Z.pos (digits2_pos p)) by lia.
  - destruct (iter_xO_spec p k) as [-> _].
    replace (Z.pos (digits2_pos p) + e - e') with (Z.pos (digits2_pos p) + Z.pos k) by lia.
    rewrite Z.pow_add_r by lia.
    apply Z.mul_lt_mono_pos_r; [apply Z.pow_pos_nonneg; lia|done].
Qed.

(** The aligned mantissas of two values below [2^a] and [2^b] add up, with
    any signs, to a mantissa of magnitude at most [max a b + 1]. *)
Lemma aligned_sum_digits a b sx mx ex sy my ey (sub : bool) :
  Z.pos (digits2_pos mx) + ex <= a -> Z.pos (digits2_pos my) + ey <= b ->
  let ez := Z.min ex ey in
  let x := cond_Zopp sx (Z.pos (fst (shl_align mx ex ez))) in
  let y := cond_Zopp sy (Z.pos (fst (shl_align my ey ez))) in
  Zdigits2 (if sub then x - y else x + y) + ez <= Z.max a b + 1.
Proof.
  intros Ha Hb ez x y.
  pose proof (shl_align_value mx ex ez ltac:(lia)) as Hx.
  pose proof (shl_align_value my ey ez ltac:(lia)) as Hy.
  set (k := Z.max a b - ez).
  assert (0 <= k) by lia.
  assert (Z.pos (fst (shl_align mx ex ez)) < 2 ^ k) as Hx'.
  { eapply Z.lt_le_trans; [exact Hx|]. apply Z.pow_le_mono_r; lia. }
  assert (Z.pos (fst (shl_align my ey ez)) < 2 ^ k) as Hy'.
  { eapply Z.lt_le_trans; [exact Hy|]. apply Z.pow_le_mono_r; lia. }
  assert (forall z, Z.abs z < 2 ^ (k + 1) -> Zdigits2 z <= k + 1) as Habs.
  { intros z Hz. destruct z as [|p|p]; simpl; [lia|..];
      apply (Zdigits2_le (Z.pos p)); simpl in Hz; lia. }
  assert (2 ^ (k + 1) = 2 * 2 ^ k) as Hpow.
  { rewrite Z.pow_add_r by lia. change (2 ^ 1) with 2. lia. }
  assert (Zdigits2 (if sub then x - y else x + y) <= k + 1); [|lia].
  apply Habs. rewrite Hpow. subst x y.
  destruct sub, sx, sy; simpl; lia.
Qed.

Lemma SFadd_small a b x y :
  magnitude_le a x -> magnitude_le b y ->
  emin <= Z.max a b + 1 -> Z.max a b + 1 <= emax - prec ->
  magnitude_le (Z.max a b + 2) (SFadd prec emax x y).
Proof.
  intros Hx Hy Hmin Hmax.
  destruct x as [sx|sx| |sx mx ex], y as [sy|sy| |sy my ey]; simpl in *; try done.
  - by destruct sx, sy.
  - lia.
  - lia.
  - replace (Z.max a b + 2) with (Z.max a b + 1 + 1) by lia.
    apply binary_normalize_small; [|done..].
    apply (aligned_sum_digits a b sx mx ex sy my ey false); done.
Qed.

Lemma SFsub_small a b x y :
  magnitude_le a x -> magnitude_le b y ->
  emin <= Z.max a b + 1 -> Z.max a b + 1 <= emax - prec ->
  magnitude_le (Z.max a b + 2) (SFsub prec emax x y).
Proof.
  intros Hx Hy Hmin Hmax.
  destruct x as [sx|sx| |sx mx ex], y as [sy|sy| |sy my ey]; simpl in *; try done.
  - by destruct sx, sy.
  - lia.
  - lia.
  - replace (Z.max a b + 2) with (Z.max a b + 1 + 1) by lia.
    apply binary_normalize_small; [|done..].
    apply (aligned_sum_digits a b sx mx ex sy my ey true); done.
Qed.

Lemma SFadd_not_nan x y :
  x <> S754_nan -> finite y -> SFadd prec emax x y <> S754_nan.
Proof.
  destruct x as [sx|sx| |sx mx ex], y as [sy|sy| |sy my ey]; simpl; try done.
  - by destruct sx, sy.
  - intros _ _. apply binary_normalize_not_nan.
Qed.

Lemma SFsub_not_nan x y :
  finite x -> finite y -> SFsub prec emax x y <> S754_nan.
Proof.
  destruct x as [sx|sx| |sx mx ex], y as [sy|sy| |sy my ey]; simpl; try done.
  - by destruct sx, sy.
  - intros _ _. apply binary_normalize_not_nan.
Qed.

(** *** Quotients *)

Lemma SFdiv_small a x sy my ey :
  magnitude_le a x ->
  emin <= a - ey -> a - ey <= emax - prec ->
  magnitude_le (a - ey + 1) (SFdiv prec emax x (S754_finite sy my ey)).
Proof.
  intros Hx Hmin Hmax.
  destruct x as [sx|sx| |sx mx ex]; simpl in *; try done.
  unfold SFdiv_core_binary.
  set (e' := Z.min _ _). set (sh := ex - ey - e').
  assert (0 <= sh) by lia.
  set (m' := match sh with Z.pos _ => Z.shiftl (Z.pos mx) sh | 0 => Z.pos mx | Z.neg _ => 0 end).
  assert (m' = Z.pos mx * 2 ^ sh) as Hm'.
  { subst m'. destruct sh eqn:Hsh; [lia| |lia]. by rewrite Z.shiftl_mul_pow2 by lia. }
  pose proof (Z_div_mod m' (Z.pos my) ltac:(lia)) as Hdiv.
  destruct (Z.div_eucl m' (Z.pos my)) as [q r]. destruct Hdiv as [Hq Hr].
  assert (0 < 2 ^ sh) by (apply Z.pow_pos_nonneg; lia).
  assert (0 <= q) by nia.
  assert (q <= m') by nia.
  assert (Zdigits2 q <= Z.pos (digits2_pos mx) + sh) as Hdq.
  { apply Zdigits2_le; [|lia]. split; [done|].
    pose proof (digits2_pos_bounds mx) as [_ Hmx].
    rewrite Z.pow_add_r by lia. nia. }
  apply binary_round_aux_small; lia.
Qed.
End Operations.

(** An integer below [2^prec] converts exactly, to a full-width mantissa. *)
Lemma binary_normalize_integer prec emax z :
  0 < prec -> 2 <= emax -> prec <= emax ->
  0 < z < 2 ^ prec ->
  exists m e,
    binary_normalize prec emax z 0 false = S754_finite false m e
    /\ 1 - prec <= e <= 0
    /\ Z.pos (digits2_pos m) + e <= prec.
Proof.
  intros Hprec Hemax Hpe Hz. destruct z as [|p|p]; [lia| |lia]. simpl.
  pose proof (digits2_pos_bounds p) as Hd.
  assert (Z.pos (digits2_pos p) <= prec) as Hdp.
  { destruct (Z.le_gt_cases (Z.pos (digits2_pos p)) prec); [done|].
    assert (2 ^ prec <= 2 ^ (Z.pos (digits2_pos p) - 1)) by (apply Z.pow_le_mono_r; lia).
    lia. }
  unfold binary_round, fexp, emin. rewrite Z.add_0_r, Z.max_l by lia.
  unfold shl_align.
  destruct (Z.pos (digits2_pos p) - prec - 0) as [|k|k] eqn:Hk; [|lia|].
  - rewrite binary_round_aux_exact by lia. eexists _, _. split; [done|]. lia.
  - destruct (iter_xO_spec p k) as [Hv Hdig].
    rewrite binary_round_aux_exact by (rewrite ?Hdig; lia).
    eexists _, _. split; [done|]. rewrite Hdig. lia.
Qed.

(** * The orbit in binary64 never holds a NaN *)

Section Binary64.
Local Abbreviation F := binary64.
Local Abbreviation prec := (fprec binary64).
Local Abbreviation emax := (femax binary64).

Lemma prec64_pos : 0 < prec.
Proof. done. Qed.

Lemma emax64_large : prec < emax.
Proof. done. Qed.

Lemma of_Z_cases z :
  0 <= z < 2 ^ 53 ->
  z = 0 /\ of_Z F z = S754_zero false
  \/ exists m e, of_Z F z = S754_finite false m e /\ -52 <= e <= 0
                 /\ Z.pos (digits2_pos m) + e <= 53.
Proof.
  intros Hz. destruct (decide (z = 0)) as [->|]; [by left|]. right.
  destruct (binary_normalize_integer 53 1024 z) as (m & e & H & He & Hm); try lia.
  exists m, e. split; [done|]. lia.
Qed.

(** The quotient [x / width] of two sizes, then the affine map. *)
Lemma coordinate_small x width (c1 c2 : spec_float) :
  0 <= x < 2 ^ 53 -> 0 < width < 2 ^ 53 ->
  magnitude_le 2 c1 -> magnitude_le 2 c2 ->
  magnitude_le 111 (fmul F (fsub F (fdiv F (of_Z F x) (of_Z F width)) c1) c2).
Proof.
  intros Hx Hw Hc1 Hc2.
  assert (magnitude_le 53 (of_Z F x)) as Hmx.
  { destruct (of_Z_cases x Hx) as [[_ ->]|(m & e & -> & _ & Hm)]; [done|exact Hm]. }
  destruct (of_Z_cases width ltac:(lia)) as [[? _]|(mw & ew & Hwv & Hew & _)]; [lia|].
  assert (magnitude_le 106 (fdiv F (of_Z F x) (of_Z F width))) as Hq.
  { unfold fdiv. rewrite Hwv.
    apply (magnitude_le_mono (53 - ew + 1)); [lia|].
    apply (SFdiv_small prec emax prec64_pos); [done|..]; unfold emin; cbn; lia. }
  assert (magnitude_le 108 (fsub F (fdiv F (of_Z F x) (of_Z F width)) c1)) as Hs.
  { apply (SFsub_small prec emax prec64_pos 106 2); [done|done|..]; unfold emin; cbn; lia. }
  apply (SFmul_small prec emax prec64_pos 108 2); [done|done|..]; unfold emin; cbn; lia.
Qed.

Lemma sample_finite x y width height :
  0 <= x < 2 ^ 53 -> 0 < width < 2 ^ 53 ->
  0 <= y < 2 ^ 53 -> 0 < height < 2 ^ 53 ->
  finite (fst (Spec.sample F x y width height))
  /\ finite (snd (Spec.sample F x y width height)).
Proof.
  intros Hx Hw Hy Hh. unfold Spec.sample. simpl. split.
  - apply (magnitude_le_finite 111), coordinate_small; try done; cbn; lia.
  - apply (magnitude_le_finite 111), coordinate_small; try done; cbn; lia.
Qed.

(** A square is a zero, a positive finite value or [+infinity], unless
    its argument is a NaN. *)
Lemma square_cases v :
  v <> S754_nan ->
  match fmul F v v with
  | S754_zero false | S754_finite false _ _ => finite v
  | S754_infinity false => True
  | _ => False
  end.
Proof.
  intros Hv. destruct v as [s|s| |s m e]; simpl; try done.
  - by rewrite xorb_nilpotent.
  - by rewrite xorb_nilpotent.
  - pose proof (binary_round_aux_cases prec emax prec64_pos (xorb s s)
                  (Z.pos (m * m)) (e + e) loc_Exact ltac:(lia)) as H.
    unfold fmul. simpl. rewrite xorb_nilpotent in *.
    destruct (binary_round_aux _ _ _ _ _ _) as [s'|s'| |s' m' e']; try done.
    + by subst.
    + by destruct H as [-> _].
    + by destruct H as [-> _].
Qed.

Lemma flt_4_finite v : flt v (of_Z F 4) = true -> v <> S754_infinity false /\ v <> S754_nan.
Proof. by destruct v as [s|[]| |s m e]. Qed.

(** While the iteration goes on, both squares and both coordinates are
    finite. *)
Lemma inside_finite z :
  Spec.inside F z = true ->
  finite (fst z) /\ finite (snd z)
  /\ finite (fmul F (fst z) (fst z)) /\ finite (fmul F (snd z) (snd z)).
Proof.
  destruct z as [zx zy]. unfold Spec.inside. simpl. intros Hin.
  apply flt_4_finite in Hin as [Hinf Hnan].
  assert (zx <> S754_nan) as Hx by (by intros ->).
  assert (zy <> S754_nan) as Hy.
  { intros ->. apply Hnan. by destruct (fmul F zx zx). }
  pose proof (square_cases zx Hx) as Hsx. pose proof (square_cases zy Hy) as Hsy.
  destruct (fmul F zx zx) as [[]|[]| |[] mx ex] eqn:Hpx; try done;
    destruct (fmul F zy zy) as [[]|[]| |[] my ey] eqn:Hpy; try done.
Qed.

Lemma step_not_nan c z :
  finite (fst c) -> finite (snd c) ->
  Spec.inside F z = true ->
  fst (Spec.step F c z) <> S754_nan /\ snd (Spec.step F c z) <> S754_nan.
Proof.
  intros Hcx Hcy Hin.
  destruct (inside_finite z Hin) as (Hzx & Hzy & Hpx & Hpy).
  destruct c as [cx cy], z as [zx zy].
  cbn [fst snd Spec.step] in *. unfold fadd, fsub, fmul in *. split.
  - apply (SFadd_not_nan prec emax prec64_pos); [|done].
    by apply (SFsub_not_nan prec emax prec64_pos).
  - apply (SFadd_not_nan prec emax prec64_pos); [|done].
    apply (SFmul_not_nan prec emax prec64_pos); [|done].
    destruct zx as [s|s| |s m e]; try done.
    pose proof (SFmul_self_finite prec emax prec64_pos emax64_large s m e Hpx) as Hmag.
    apply (magnitude_le_finite 515).
    apply (SFmul_small prec emax prec64_pos 2 512).
    + vm_compute. discriminate.
    + simpl. unfold emax in Hmag. simpl in Hmag. lia.
    + vm_compute. discriminate.
    + vm_compute. discriminate.
Qed.

(** The points of an orbit that has stayed inside are free of NaN. *)
Lemma orbit_not_nan c n :
  finite (fst c) -> finite (snd c) ->
  (forall j, (j < n)%nat -> Spec.inside F (Spec.orbit F c j) = true) ->
  fst (Spec.orbit F c n) <> S754_nan /\ snd (Spec.orbit F c n) <> S754_nan.
Proof.
  intros Hcx Hcy Hin. destruct n as [|n]; [done|].
  rewrite orbit_succ. apply step_not_nan; [done..|]. apply Hin. lia.
Qed.


End Binary64.

(** The two comparisons exclude each other, so the escape count is
    determined by its description. *)
Lemma flt_fle_exclusive a b : flt a b = true -> fle b a = false.
Proof.
  unfold flt, fle, SFltb, SFleb.
  destruct (SFcompare a b) as [c|] eqn:Hc; [|done].
  rewrite (SFcompare_antisym _ _ _ Hc). by destruct c.
Qed.

Lemma is_escape_count_unique F c maxIter i i' :
  Spec.is_escape_count F c maxIter i ->
  Spec.is_escape_count F c maxIter i' ->
  i = i'.
Proof.
  intros (Hb & Hbelow & Hstop) (Hb' & Hbelow' & Hstop').
  destruct (Z.lt_trichotomy i i') as [Hlt|[->|Hlt]]; [|done|].
  - destruct Hstop as [->|Hstop]; [lia|].
    unfold Spec.escaped in Hstop.
    rewrite (flt_fle_exclusive _ _ (Hbelow' i ltac:(lia))) in Hstop. done.
  - destruct Hstop' as [->|Hstop']; [lia|].
    unfold Spec.escaped in Hstop'.
    rewrite (flt_fle_exclusive _ _ (Hbelow i' ltac:(lia))) in Hstop'. done.
Qed.


Lemma escape_count_small F c m :
  0 <= m < 2 ^ 32 -> Spec.escape_count F c m mod 2 ^ 32 = Spec.escape_count F c m.
Proof.
  intros Hm. pose proof (escape_count_bounds F c m). apply Z.mod_small. lia.
Qed.

(** * The grid of an empty size *)







Lemma escape_count_first F c m :
  Spec.inside F (of_Z F 0, of_Z F 0) = true ->
  0 <= m <= 1 -> Spec.escape_count F c m = m.
Proof.
  intros Hin Hm. destruct (decide (m = 0)) as [->|]; [done|].
  assert (m = 1) as -> by lia. unfold Spec.escape_count.
  change (Z.to_nat 1) with 1%nat. cbn [Spec.search]. by rewrite Hin.
Qed.

Lemma f32_exact_range z : f32_exact z -> 0 <= z <= 4294967040.
Proof.
  unfold f32_exact. intros Hz.
  pose proof (u32_of_f32_range (Wgsl.Float32Array_elem z)). lia.
Qed.

Lemma index_cell width height (k : nat) :
  0 < width -> (k < Z.to_nat (width * height))%nat ->
  0 <= Z.of_nat k mod width < width
  /\ 0 <= Z.of_nat k / width < height
  /\ Z.to_nat (Z.of_nat k / width * width + Z.of_nat k mod width) = k.
Proof.
  intros Hw Hk.
  pose proof (Z.div_mod (Z.of_nat k) width) as Hdm.
  pose proof (Z.mod_pos_bound (Z.of_nat k) width Hw) as Hmod.
  assert (0 <= Z.of_nat k / width) by (apply Z.div_pos; lia).
  assert (Z.of_nat k / width < height).
  { apply Z.div_lt_upper_bound; [done|]. nia. }
  repeat split; lia.
Qed.




(** * Colouring *)

Lemma rgb_matchesb_sound bytes q : rgb_matchesb bytes q = true -> rgb_matches bytes q.
Proof.
  destruct bytes as [[r g] b], q as [[qr qg] qb]. simpl.
  rewrite !andb_true_iff, !Qeq_bool_iff. tauto.
Qed.

Lemma below_cap (P : Z -> bool) n :
  forallb P (seqZ 0 n) = true -> forall k, 0 <= k < n -> P k = true.
Proof.
  intros Hall k Hk. rewrite forallb_forall in Hall. apply Hall.
  apply list_elem_of_In, elem_of_seqZ. lia.
Qed.

Lemma colorize_black iter :
  Draw.MAX_ITERATIONS <= iter -> Draw.colorize iter = (0, 0, 0).
Proof.
  intros Hi. unfold Draw.colorize, Draw.shade.
  by rewrite (proj2 (Z.leb_le _ _)).
Qed.

Lemma colorize_matches iter :
  0 <= iter -> rgb_matches (Draw.colorize iter) (Spec.colorize iter Draw.MAX_ITERATIONS).
Proof.
  intros Hi. destruct (decide (iter < Draw.MAX_ITERATIONS)) as [Hlt|Hge].
  - apply rgb_matchesb_sound.
    apply (below_cap (fun k => rgb_matchesb (Draw.colorize k)
                                 (Spec.colorize k Draw.MAX_ITERATIONS)) Draw.MAX_ITERATIONS);
      [vm_compute; reflexivity|lia].
  - rewrite colorize_black by lia. unfold Spec.colorize.
    rewrite (proj2 (Z.leb_le _ _)) by lia. by simpl.
Qed.

Lemma colorize_range iter :
  0 <= iter -> byte_range (Draw.colorize iter) = true.
Proof.
  intros Hi. destruct (decide (iter < Draw.MAX_ITERATIONS)) as [Hlt|Hge].
  - apply (below_cap (fun k => byte_range (Draw.colorize k)) Draw.MAX_ITERATIONS);
      [vm_compute; reflexivity|lia].
  - by rewrite colorize_black by lia.
Qed.

Lemma colorize_coloured iter :
  0 <= iter < Draw.MAX_ITERATIONS -> is_black (Draw.colorize iter) = false.
Proof.
  intros Hi.
  apply negb_true_iff.
  apply (below_cap (fun k => negb (is_black (Draw.colorize k))) Draw.MAX_ITERATIONS);
    [vm_compute; reflexivity|lia].
Qed.

(** * The image *)

Section Image.
Import JS Draw.

Lemma length_Uint8ClampedArray_set a k v :
  length (Uint8ClampedArray_set a k v) = length a.
Proof. unfold Uint8ClampedArray_set. destruct (k <? 0); [done|apply length_insert]. Qed.

Lemma length_pixel img i iter : length (pixel img i iter) = length img.
Proof.
  unfold pixel. destruct (shade iter) as [[r g] b].
  by rewrite !length_Uint8ClampedArray_set.
Qed.

Lemma Uint8ClampedArray_set_eq a (k : nat) v :
  (k < length a)%nat ->
  Uint8ClampedArray_set a (Z.of_nat k) v !! k = Some (ToUint8Clamp v).
Proof.
  intros Hk. unfold Uint8ClampedArray_set.
  rewrite (proj2 (Z.ltb_ge _ _)) by lia. rewrite Nat2Z.id.
  by apply list_lookup_insert_eq.
Qed.

Lemma Uint8ClampedArray_set_ne a (k j : nat) v :
  k <> j -> Uint8ClampedArray_set a (Z.of_nat k) v !! j = a !! j.
Proof.
  intros Hk. unfold Uint8ClampedArray_set.
  rewrite (proj2 (Z.ltb_ge _ _)) by lia. rewrite Nat2Z.id.
  by apply list_lookup_insert_ne.
Qed.

(** The body for index [i] writes the four bytes of pixel [i] ... *)
Lemma pixel_lookup img (i : nat) iter :
  (4 * i + 3 < length img)%nat ->
  let '(r, g, b) := colorize iter in
  pixel img (Z.of_nat i) iter !! (4 * i)%nat = Some r
  /\ pixel img (Z.of_nat i) iter !! (4 * i + 1)%nat = Some g
  /\ pixel img (Z.of_nat i) iter !! (4 * i + 2)%nat = Some b
  /\ pixel img (Z.of_nat i) iter !! (4 * i + 3)%nat = Some 255.
Proof.
  intros Hlen. unfold colorize, pixel. destruct (shade iter) as [[r g] b].
  replace (Z.of_nat i * 4) with (Z.of_nat (4 * i)) by lia.
  replace (Z.of_nat (4 * i) + 1) with (Z.of_nat (4 * i + 1)) by lia.
  replace (Z.of_nat (4 * i) + 2) with (Z.of_nat (4 * i + 2)) by lia.
  replace (Z.of_nat (4 * i) + 3) with (Z.of_nat (4 * i + 3)) by lia.
  repeat split.
  - rewrite !Uint8ClampedArray_set_ne by lia.
    apply Uint8ClampedArray_set_eq. lia.
  - rewrite !Uint8ClampedArray_set_ne by lia.
    apply Uint8ClampedArray_set_eq. rewrite length_Uint8ClampedArray_set. lia.
  - rewrite !Uint8ClampedArray_set_ne by lia.
    apply Uint8ClampedArray_set_eq. rewrite !length_Uint8ClampedArray_set. lia.
  - apply Uint8ClampedArray_set_eq. rewrite !length_Uint8ClampedArray_set. lia.
Qed.

(** ... and no other. *)
Lemma pixel_lookup_other img (i j : nat) iter :
  (j < 4 * i \/ 4 * i + 3 < j)%nat ->
  pixel img (Z.of_nat i) iter !! j = img !! j.
Proof.
  intros Hj. unfold pixel. destruct (shade iter) as [[r g] b].
  replace (Z.of_nat i * 4) with (Z.of_nat (4 * i)) by lia.
  replace (Z.of_nat (4 * i) + 1) with (Z.of_nat (4 * i + 1)) by lia.
  replace (Z.of_nat (4 * i) + 2) with (Z.of_nat (4 * i + 2)) by lia.
  replace (Z.of_nat (4 * i) + 3) with (Z.of_nat (4 * i + 3)) by lia.
  by rewrite !Uint8ClampedArray_set_ne by lia.
Qed.

Lemma drawMandelbrot_snoc img data iter :
  drawMandelbrot img (data ++ [iter])
  = pixel (drawMandelbrot img data) (Z.of_nat (length data)) iter.
Proof.
  unfold drawMandelbrot. rewrite length_app. simpl.
  replace (length data + 1)%nat with (S (length data)) by lia.
  rewrite seqZ_S, foldl_app. simpl.
  rewrite Z.add_0_l, Nat2Z.id, lookup_app_r, Nat.sub_diag by lia. simpl.
  f_equal. apply foldl_ext_in. intros a i Hi. apply elem_of_seqZ in Hi.
  by rewrite lookup_app_l by lia.
Qed.

Lemma length_drawMandelbrot img data : length (drawMandelbrot img data) = length img.
Proof.
  induction data as [|iter data IH] using rev_ind; [done|].
  by rewrite drawMandelbrot_snoc, length_pixel.
Qed.

(** The image handed to the canvas holds, for every escape count of
    [data], the bytes of its colour followed by the opaque alpha. *)
Lemma drawMandelbrot_lookup img data (i : nat) iter :
  data !! i = Some iter ->
  (4 * i + 3 < length img)%nat ->
  let '(r, g, b) := colorize iter in
  drawMandelbrot img data !! (4 * i)%nat = Some r
  /\ drawMandelbrot img data !! (4 * i + 1)%nat = Some g
  /\ drawMandelbrot img data !! (4 * i + 2)%nat = Some b
  /\ drawMandelbrot img data !! (4 * i + 3)%nat = Some 255.
Proof.
  induction data as [|it data IH] using rev_ind; intros Hi Hlen; [done|].
  rewrite drawMandelbrot_snoc.
  destruct (decide (i = length data)) as [->|Hne].
  - rewrite lookup_app_r, Nat.sub_diag in Hi by lia. simplify_eq/=.
    apply pixel_lookup. by rewrite length_drawMandelbrot.
  - assert (i < length data)%nat as Hlt.
    { apply lookup_lt_Some in Hi. rewrite length_app in Hi. simpl in Hi. lia. }
    rewrite lookup_app_l in Hi by done.
    rewrite !pixel_lookup_other by lia. by apply IH.
Qed.
End Image.

(** * The dispatch of the kernel *)

Lemma NoDup_grid w h : NoDup (grid w h).
Proof.
  unfold grid. apply NoDup_bind.
  - intros y y' c _ _ Hc Hc'.
    apply list_elem_of_bind in Hc as (x & Hc & _).
    apply list_elem_of_bind in Hc' as (x' & Hc' & _).
    apply list_elem_of_singleton in Hc, Hc'. congruence.
  - intros y _. apply NoDup_bind.
    + intros x x' c _ _ Hc Hc'.
      apply list_elem_of_singleton in Hc, Hc'. congruence.
    + intros x _. apply NoDup_singleton.
    + apply NoDup_seqZ.
  - apply NoDup_seqZ.
Qed.

Lemma elem_of_invocations_range nx ny x y :
  (x, y) ∈ Wgsl.invocations nx ny <-> 0 <= x < 8 * nx /\ 0 <= y < 8 * ny.
Proof. apply elem_of_grid. Qed.

(** * The values of the reference loop *)

Lemma cpu_visits_orbit cx cy max_iter s :
  cpu_visits cx cy max_iter s ->
  exists n : nat,
    (Cpu.zx s, Cpu.zy s) = Spec.orbit binary64 (cx, cy) n
    /\ forall j, (j < n)%nat -> Spec.inside binary64 (Spec.orbit binary64 (cx, cy) j) = true.
Proof.
  induction 1 as [|s Hs (n & Hn & Hin) Hcond].
  - exists 0%nat. split; [done|]. intros j Hj. lia.
  - exists (S n). split.
    + rewrite orbit_succ, <- Hn. done.
    + intros j Hj. destruct (decide (j = n)) as [->|Hne].
      * rewrite <- Hn. unfold Cpu.loop_cond in Hcond.
        apply andb_true_iff in Hcond as [_ Hcond]. exact Hcond.
      * apply Hin. lia.
Qed.

(** * Conjugate points *)

Lemma binary_round_aux_opp prec emax s m e l :
  binary_round_aux prec emax (negb s) m e l
  = SFopp (binary_round_aux prec emax s m e l).
Proof.
  unfold binary_round_aux.
  destruct (shr_fexp prec emax m e l) as [mrs e'].
  destruct (shr_fexp prec emax _ e' loc_Exact) as [mrs' e''].
  destruct (shr_m mrs'); [done| |done].
  by destruct (e'' <=? emax - prec).
Qed.

Lemma binary_round_opp prec emax s m e :
  binary_round prec emax (negb s) m e = SFopp (binary_round prec emax s m e).
Proof.
  unfold binary_round. destruct (shl_align _ _ _) as [mz ez].
  apply binary_round_aux_opp.
Qed.

Lemma SFopp_involutive v : SFopp (SFopp v) = v.
Proof. destruct v as [s|s| |s m e]; simpl; by rewrite ?negb_involutive. Qed.

Lemma conjugate_sym a b : conjugate a b -> conjugate b a.
Proof.
  intros [->|[Ha Hb]]; [left; by rewrite SFopp_involutive|by right].
Qed.

Lemma conjugate_opp a : conjugate a (SFopp a).
Proof. by left. Qed.

Lemma conjugate_zero s s' : conjugate (S754_zero s) (S754_zero s').
Proof. by right. Qed.

Lemma is_zero_inv v : is_zero v = true -> exists s, v = S754_zero s.
Proof. destruct v; try done. by eexists. Qed.

Lemma conjugateb_sound a b : conjugateb a b = true -> conjugate a b.
Proof.
  unfold conjugateb. intros [H|H]%orb_true_iff.
  - left. destruct b as [s|s| |s m e], (SFopp a) as [s'|s'| |s' m' e'] eqn:Ha;
      try done; simpl in H.
    + by apply eqb_prop in H as ->.
    + by apply eqb_prop in H as ->.
    + apply andb_true_iff in H as [[Hs Hm]%andb_true_iff He].
      apply eqb_prop in Hs as ->. apply Pos.eqb_eq in Hm as ->.
      by apply Z.eqb_eq in He as ->.
  - right. by apply andb_true_iff in H.
Qed.

Section Conjugation.
Variable F : format.

Lemma fmul_opp_r x y : fmul F x (SFopp y) = SFopp (fmul F x y).
Proof.
  unfold fmul.
  destruct x as [sx|sx| |sx mx ex], y as [sy|sy| |sy my ey]; simpl;
    try done; try (by destruct sx, sy).
  rewrite <- binary_round_aux_opp. by destruct sx, sy.
Qed.

Lemma fmul_opp_l x y : fmul F (SFopp x) y = SFopp (fmul F x y).
Proof.
  unfold fmul.
  destruct x as [sx|sx| |sx mx ex], y as [sy|sy| |sy my ey]; simpl;
    try done; try (by destruct sx, sy).
  rewrite <- binary_round_aux_opp. by destruct sx, sy.
Qed.

Lemma fmul_conjugate_self a b : conjugate a b -> fmul F b b = fmul F a a.
Proof.
  intros [->|[Ha Hb]].
  - by rewrite fmul_opp_r, fmul_opp_l, SFopp_involutive.
  - apply is_zero_inv in Ha as [s ->]. apply is_zero_inv in Hb as [s' ->].
    by destruct s, s'.
Qed.

Lemma fmul_conjugate q a b :
  conjugate a b -> conjugate (fmul F q a) (fmul F q b).
Proof.
  intros [->|[Ha Hb]].
  - left. apply fmul_opp_r.
  - apply is_zero_inv in Ha as [s ->]. apply is_zero_inv in Hb as [s' ->].
    destruct q as [sq|sq| |sq mq eq]; simpl;
      first [apply conjugate_zero | by left].
Qed.

Lemma binary_normalize_conjugate m e :
  conjugate (binary_normalize (fprec F) (femax F) m e false)
            (binary_normalize (fprec F) (femax F) (- m) e false).
Proof.
  destruct m as [|p|p]; simpl.
  - apply conjugate_zero.
  - left. exact (binary_round_opp _ _ false p e).
  - left. exact (binary_round_opp _ _ true p e).
Qed.

Lemma cond_Zopp_negb s m : cond_Zopp (negb s) m = - cond_Zopp s m.
Proof. destruct s; simpl; lia. Qed.

Lemma fadd_opp x y : conjugate (fadd F x y) (fadd F (SFopp x) (SFopp y)).
Proof.
  unfold fadd.
  destruct x as [sx|sx| |sx mx ex], y as [sy|sy| |sy my ey]; simpl;
    try (by left); try (destruct sx, sy; first [by left | by right]).
  rewrite !cond_Zopp_negb, <- Z.opp_add_distr.
  apply binary_normalize_conjugate.
Qed.

Lemma fadd_zero_conjugate s s' x x' :
  conjugate x x' -> conjugate (fadd F (S754_zero s) x) (fadd F (S754_zero s') x').
Proof.
  intros [->|[Ha Hb]].
  - destruct x as [sx|sx| |sx mx ex]; simpl; try (by left).
    destruct s, s', sx; by right.
  - apply is_zero_inv in Ha as [sa ->]. apply is_zero_inv in Hb as [sb ->].
    destruct s, s', sa, sb; by right.
Qed.

Lemma fadd_conjugate_zero s s' x :
  conjugate (fadd F x (S754_zero s)) (fadd F (SFopp x) (S754_zero s')).
Proof.
  destruct x as [sx|sx| |sx mx ex]; simpl; try (by left).
  destruct s, s', sx; by right.
Qed.

Lemma fadd_conjugate t t' c c' :
  conjugate t t' -> conjugate c c' ->
  conjugate (fadd F t c) (fadd F t' c').
Proof.
  intros [->|[Ht Ht']] Hc.
  - destruct Hc as [->|[Hc Hc']].
    + apply fadd_opp.
    + apply is_zero_inv in Hc as [s ->]. apply is_zero_inv in Hc' as [s' ->].
      apply fadd_conjugate_zero.
  - apply is_zero_inv in Ht as [s ->]. apply is_zero_inv in Ht' as [s' ->].
    by apply fadd_zero_conjugate.
Qed.

Lemma inside_mirrored z z' :
  mirrored z z' -> Spec.inside F z' = Spec.inside F z.
Proof.
  intros [Hx Hy]. unfold Spec.inside.
  by rewrite Hx, (fmul_conjugate_self _ _ Hy).
Qed.

Lemma step_mirrored cx cy cy' z z' :
  conjugate cy cy' -> mirrored z z' ->
  mirrored (Spec.step F (cx, cy) z) (Spec.step F (cx, cy') z').
Proof.
  intros Hc [Hx Hy]. split; cbn [Spec.step fst snd].
  - by rewrite Hx, (fmul_conjugate_self _ _ Hy).
  - rewrite Hx. apply fadd_conjugate; [|done]. by apply fmul_conjugate.
Qed.

Lemma search_mirrored cx cy cy' n : forall z z' i,
  conjugate cy cy' -> mirrored z z' ->
  Spec.search F (cx, cy') z' i n = Spec.search F (cx, cy) z i n.
Proof.
  induction n as [|n IH]; intros z z' i Hc Hz; [done|].
  cbn [Spec.search]. rewrite (inside_mirrored _ _ Hz).
  destruct (Spec.inside F z); [|done].
  apply IH; [done|]. by apply step_mirrored.
Qed.

Lemma escape_count_conjugate cx cy cy' maxIter :
  conjugate cy cy' ->
  Spec.escape_count F (cx, cy') maxIter = Spec.escape_count F (cx, cy) maxIter.
Proof.
  intros Hc. apply search_mirrored; [done|].
  split; [done|]. unfold of_Z, dyadic. simpl. apply conjugate_zero.
Qed.
End Conjugation.

Lemma while_related {S S'} (R : S -> S' -> Prop) cond cond' f f' fuel :
  (forall s s', R s s' -> cond s = cond' s') ->
  (forall s s', R s s' -> R (f s) (f' s')) ->
  forall s s', R s s' ->
    match while fuel cond (fun s => Some (f s)) s,
          while fuel cond' (fun s => Some (f' s)) s' with
    | Some r, Some r' => R r r'
    | None, None => True
    | _, _ => False
    end.
Proof.
  intros Hcond Hf. induction fuel as [|fuel IH]; intros s s' HR; [done|].
  simpl. rewrite <- (Hcond _ _ HR). destruct (cond s); [|done].
  apply IH. by apply Hf.
Qed.

(** * Mirror symmetry of the picture *)

Lemma mirror_rows_sound F height y :
  mirror_rows F height = true -> 0 < y < height ->
  conjugate (snd (Spec.sample F 0 y 1 height))
            (snd (Spec.sample F 0 (height - y) 1 height)).
Proof.
  unfold mirror_rows. rewrite forallb_forall. intros Hall Hy.
  apply conjugateb_sound, Hall, list_elem_of_In, elem_of_seqZ. lia.
Qed.

Lemma mirror_rows_options F res :
  F = binary64 \/ F = binary32 -> res ∈ RESOLUTION_OPTIONS ->
  mirror_rows F res = true.
Proof.
  intros HF Hres. unfold RESOLUTION_OPTIONS in Hres.
  repeat (apply elem_of_cons in Hres as [->|Hres]);
    [..|by apply elem_of_nil in Hres];
    destruct HF as [-> | ->]; vm_compute; reflexivity.
Qed.

Lemma sample_mirror F x y width height maxIter :
  mirror_rows F height = true -> 0 < y < height ->
  Spec.escape_count F (Spec.sample F x (height - y) width height) maxIter
  = Spec.escape_count F (Spec.sample F x y width height) maxIter.
Proof.
  intros Hrows Hy.
  apply (escape_count_conjugate F
    (fst (Spec.sample F x y width height))
    (snd (Spec.sample F x y width height))
    (snd (Spec.sample F x (height - y) width height))).
  exact (mirror_rows_sound F height y Hrows Hy).
Qed.

Lemma RESOLUTION_OPTIONS_range res :
  res ∈ RESOLUTION_OPTIONS -> 256 <= res <= 4096.
Proof.
  unfold RESOLUTION_OPTIONS. intros Hres.
  repeat (apply elem_of_cons in Hres as [->|Hres]); try lia.
  by apply elem_of_nil in Hres.
Qed.

(** * Doubling the grid *)

Section Doubling.
Variable F : format.
Hypothesis Hprec : 0 < fprec F.
Hypothesis Hemax : 2 <= femax F.
Hypothesis Hle : fprec F <= femax F.

(** The float of a positive integer of at most [prec] bits: its bits,
    moved up to fill the mantissa. *)
Lemma of_Z_canonical p :
  Z.pos (digits2_pos p) <= fprec F ->
  exists m,
    of_Z F (Z.pos p) = S754_finite false m (Z.pos (digits2_pos p) - fprec F)
    /\ Z.pos m = Z.pos p * 2 ^ (fprec F - Z.pos (digits2_pos p)).
Proof.
  intros Hd. unfold of_Z, dyadic, binary_normalize, binary_round.
  unfold fexp, emin. rewrite Z.add_0_r, Z.max_l by lia.
  unfold shl_align.
  destruct (Z.pos (digits2_pos p) - fprec F - 0) as [|k|k] eqn:Hk; [|lia|].
  - exists p. rewrite binary_round_aux_exact by lia. split.
    + f_equal; lia.
    + replace (fprec F - Z.pos (digits2_pos p)) with 0 by lia. lia.
  - destruct (iter_xO_spec p k) as [Hv Hdig].
    exists (Pos.iter xO p k).
    rewrite binary_round_aux_exact by (rewrite ?Hdig; lia). split.
    + f_equal; lia.
    + rewrite Hv. f_equal; f_equal; lia.
Qed.

Lemma of_Z_double z :
  0 <= z -> 2 * z < 2 ^ fprec F ->
  of_Z F (2 * z) = shift_exponent 1 (of_Z F z).
Proof.
  intros Hz Hlt. destruct z as [|p|p]; [done| |lia].
  change (2 * Z.pos p) with (Z.pos p~0).
  pose proof (digits2_pos_bounds p) as Hb.
  assert (Z.pos (digits2_pos p) + 1 <= fprec F) as Hd.
  { destruct (Z.le_gt_cases (Z.pos (digits2_pos p) + 1) (fprec F)); [done|].
    assert (2 ^ fprec F <= 2 ^ Z.pos (digits2_pos p))
      by (apply Z.pow_le_mono_r; lia).
    assert (2 ^ Z.pos (digits2_pos p) = 2 * 2 ^ (Z.pos (digits2_pos p) - 1)).
    { rewrite <- Z.pow_succ_r by lia. f_equal. lia. }
    lia. }
  assert (Z.pos (digits2_pos p~0) = Z.pos (digits2_pos p) + 1) as Hd2
    by (simpl; lia).
  destruct (of_Z_canonical p) as (m & -> & Hm); [lia|].
  destruct (of_Z_canonical p~0) as (m' & -> & Hm'); [lia|].
  simpl shift_exponent. rewrite Hd2.
  assert (m' = m) as ->.
  { apply (inj Z.pos). rewrite Hm', Hm, Hd2.
    replace (fprec F - Z.pos (digits2_pos p))
      with (Z.succ (fprec F - (Z.pos (digits2_pos p) + 1))) by lia.
    rewrite Z.pow_succ_r by lia. lia. }
  f_equal. lia.
Qed.

Lemma fdiv_shift k a b :
  fdiv F (shift_exponent k a) (shift_exponent k b) = fdiv F a b.
Proof.
  unfold fdiv.
  destruct a as [sa|sa| |sa ma ea], b as [sb|sb| |sb mb eb]; try done.
  simpl. unfold SFdiv_core_binary.
  replace (Zdigits2 (Z.pos ma) + (ea + k) - (Zdigits2 (Z.pos mb) + (eb + k)))
    with (Zdigits2 (Z.pos ma) + ea - (Zdigits2 (Z.pos mb) + eb)) by lia.
  replace (ea + k - (eb + k)) with (ea - eb) by lia. done.
Qed.

Lemma sample_double x y width height :
  0 <= x -> 2 * x < 2 ^ fprec F -> 0 <= y -> 2 * y < 2 ^ fprec F ->
  0 <= width -> 2 * width < 2 ^ fprec F ->
  0 <= height -> 2 * height < 2 ^ fprec F ->
  Spec.sample F (2 * x) (2 * y) (2 * width) (2 * height)
  = Spec.sample F x y width height.
Proof.
  intros. unfold Spec.sample.
  by rewrite !of_Z_double, !fdiv_shift by done.
Qed.
End Doubling.

(** * Bounds on the entries *)


(** * The picture *)

Lemma drawMandelbrot_untouched img data j :
  (4 * length data <= j)%nat ->
  Draw.drawMandelbrot img data !! j = img !! j.
Proof.
  induction data as [|iter data IH] using rev_ind; intros Hj; [done|].
  rewrite length_app in Hj. simpl in Hj.
  rewrite drawMandelbrot_snoc, pixel_lookup_other by lia.
  apply IH. lia.
Qed.

Lemma colours_NoDup : NoDup (Draw.colorize <$> seqZ 0 256).
Proof.
  assert (bool_decide (NoDup (Draw.colorize <$> seqZ 0 256)) = true) as H
    by (vm_compute; reflexivity).
  by apply bool_decide_eq_true in H.
Qed.

(** * The page component *)

Lemma handleRun_guard fuel E type st :
  App.canvas_of type st = None \/ App.isLoading st = true ->
  App.handleRun fuel E type st = Some st.
Proof.
  unfold App.handleRun. intros [-> | Hl]; [done|].
  destruct (App.canvas_of type st); [|done]. by rewrite Hl.
Qed.

Lemma run_array fuel E type width height :
  0 < width <= 65536 -> 0 < height <= 65536 ->
  (type = App.gpu -> App.navigator_gpu E = App.has_device) ->
  (Z.to_nat width < fuel)%nat -> (Z.to_nat height < fuel)%nat -> (255 < fuel)%nat ->
  exists data,
    App.compute fuel E type width height = Some (App.Returned data)
    /\ length data = Z.to_nat (width * height)
    /\ forall x y, 0 <= x < width -> 0 <= y < height ->
         data !! Z.to_nat (y * width + x)
         = Some (Spec.escape_count (arithmetic_of type)
                   (Spec.sample (arithmetic_of type) x y width height)
                   Draw.MAX_ITERATIONS).
Proof.
  intros Hw Hh HE Hfw Hfh Hfm. unfold Draw.MAX_ITERATIONS.
  assert (width * height <= 2 ^ 32) as Hwh.
  { change (2 ^ 32) with (65536 * 65536). nia. }
  destruct type; unfold App.compute.
  - eexists.
    rewrite cpu_returns
      by (unfold JS.MAX_EXACT, Draw.MAX_ITERATIONS; first [lia | nia]).
    split; [done|]. split; [apply length_cpu_array|].
    intros x y Hx Hy. rewrite cpu_array_lookup by done.
    by rewrite escape_count_small.
  - rewrite HE by done. eexists.
    rewrite gpu_returns
      by (unfold Draw.MAX_ITERATIONS; change (Wgsl.u32_of_f32 _) with 255; lia).
    split; [done|]. split; [apply length_gpu_array|].
    intros x y Hx Hy.
    apply gpu_array_lookup; try done; try (apply f32_exact_small; lia).
    + by apply elem_of_invocations.
    + apply invocations_nonneg.
Qed.

(** * What the page keeps true from event to event *)




(** * The sentence of [RenderWinner] *)

Lemma flt_irrefl x : flt x x = false.
Proof.
  unfold flt, SFltb.
  destruct x as [s|s| |s m e]; simpl; try done; [by destruct s|].
  rewrite Z.compare_refl.
  change (Pos.compare_cont Eq m m) with (m ?= m)%positive.
  rewrite Pos.compare_refl. by destruct s.
Qed.

Lemma fsub_diag F x : finite x -> fsub F x x = S754_zero false.
Proof.
  unfold fsub. destruct x as [s|s| |s m e]; try done; intros _; simpl.
  - by destruct s.
  - by rewrite Z.sub_diag.
Qed.

Lemma div_eucl_mul m P : Z.div_eucl (Z.pos m * P) (Z.pos m) = (P, 0).
Proof.
  pose proof (Z.div_eucl_eq (Z.pos m * P) (Z.pos m) ltac:(lia)) as Heq.
  pose proof (Z.mod_pos_bound (Z.pos m * P) (Z.pos m) ltac:(lia)) as Hmod.
  unfold Z.modulo in Hmod.
  destruct (Z.div_eucl (Z.pos m * P) (Z.pos m)) as [q r].
  assert (Z.pos m * (P - q) = r) as Hr by lia.
  assert (P - q = 0) as Hq by nia.
  assert (r = 0) as -> by nia.
  f_equal. lia.
Qed.

Lemma fdiv_diag s m e :
  fdiv binary64 (S754_finite s m e) (S754_finite s m e) = JS.num 1.
Proof.
  unfold fdiv. simpl. unfold SFdiv_core_binary.
  replace (Zdigits2 (Z.pos m) + e - (Zdigits2 (Z.pos m) + e)) with 0 by lia.
  rewrite Z.sub_diag.
  change (Z.min (fexp 53 1024 0) 0) with (-53).
  change (0 - -53) with 53.
  cbv iota beta zeta.
  rewrite Z.shiftl_mul_pow2 by lia.
  rewrite div_eucl_mul.
  rewrite xorb_nilpotent.
  unfold new_location, new_location_even, new_location_odd.
  destruct (Z.even (Z.pos m)); vm_compute; reflexivity.
Qed.

Lemma Math_max_diag x : App.Math_max x x = x.
Proof.
  unfold App.Math_max. destruct x as [s|s| |s m e]; try done;
    rewrite flt_irrefl; by try destruct s.
Qed.

Lemma Math_min_diag x : App.Math_min x x = x.
Proof.
  unfold App.Math_min. destruct x as [s|s| |s m e]; try done;
    rewrite flt_irrefl; by try destruct s.
Qed.

(** * The matrix benchmark *)

Lemma ToInt32_range v : - 2 ^ 31 <= AiBench.ToInt32 v < 2 ^ 31.
Proof.
  unfold AiBench.ToInt32. destruct (ftrunc v) as [z|]; [|lia].
  pose proof (Z.mod_pos_bound (z + 2 ^ 31) (2 ^ 32) ltac:(lia)). lia.
Qed.

Lemma ftrunc_of_Z z :
  - 2 ^ 53 < z < 2 ^ 53 -> ftrunc (of_Z binary64 z) = Some z.
Proof.
  assert (forall p, Z.pos p < 2 ^ 53 ->
    exists m e, of_Z binary64 (Z.pos p) = S754_finite false m e
                /\ e <= 0 /\ Z.pos m = Z.pos p * 2 ^ (- e)) as Hpos.
  { intros p Hp.
    pose proof (digits2_pos_bounds p) as Hd.
    assert (Z.pos (digits2_pos p) <= 53) as Hd53.
    { destruct (Z.le_gt_cases (Z.pos (digits2_pos p)) 53); [done|].
      assert (2 ^ 53 <= 2 ^ (Z.pos (digits2_pos p) - 1))
        by (apply Z.pow_le_mono_r; lia). lia. }
    assert (exists m,
      of_Z binary64 (Z.pos p) = S754_finite false m (Z.pos (digits2_pos p) - 53)
      /\ Z.pos m = Z.pos p * 2 ^ (53 - Z.pos (digits2_pos p))) as (m & Hm & Hv)
      by (apply (of_Z_canonical binary64); first [done | by vm_compute]).
    exists m, (Z.pos (digits2_pos p) - 53). split; [exact Hm|].
    split; [lia|]. rewrite Hv. f_equal; f_equal; lia. }
  assert (forall m e p, e <= 0 -> Z.pos m = Z.pos p * 2 ^ (- e) ->
    (if 0 <=? e then Z.pos m * 2 ^ e else Z.pos m / 2 ^ (- e)) = Z.pos p) as Hval.
  { intros m e p He Hm. destruct (0 <=? e) eqn:Hle.
    - apply Z.leb_le in Hle. assert (e = 0) as -> by lia.
      rewrite Hm. simpl. lia.
    - rewrite Hm. apply Z.div_mul. apply Z.pow_nonzero; lia. }
  intros Hz. destruct z as [|p|p]; [done| |].
  - destruct (Hpos p ltac:(lia)) as (m & e & -> & He & Hm).
    unfold ftrunc. by rewrite (Hval m e p).
  - change (of_Z binary64 (Z.neg p)) with (binary_round 53 1024 (negb false) p 0).
    rewrite binary_round_opp.
    change (binary_round 53 1024 false p 0) with (of_Z binary64 (Z.pos p)).
    destruct (Hpos p ltac:(lia)) as (m & e & -> & He & Hm).
    unfold ftrunc. simpl SFopp. cbv iota. by rewrite (Hval m e p).
Qed.

(** * The kernel of the matrix benchmark *)

Section MatrixKernel.
Variable tanh : Wgsl.f32 -> Wgsl.f32.
Variable stray : list Wgsl.f32 -> Z -> Wgsl.f32.
Variables (N : Z) (A B : list Wgsl.f32).
Hypothesis HN : 0 < N <= 65536.

Local Abbreviation term row col :=
  (fun sum k =>
     fadd binary32 sum
       (fmul binary32 (AiBench.load stray A (row * N + k))
                      (AiBench.load stray B (k * N + col)))).

Lemma square_bound : N * N <= 2 ^ 32.
Proof. change (2 ^ 32) with (65536 * 65536). nia. Qed.

Lemma dot_while row col n : forall fuel k sum,
  0 <= row < N -> 0 <= col < N ->
  0 <= k <= N -> Z.to_nat (N - k) = n -> (n < fuel)%nat ->
  snd <$> while fuel (fun '(k, _) => k <? N)
            (fun '(k, sum) =>
               Some (Wgsl.u32_add k 1,
                     fadd binary32 sum
                       (fmul binary32
                          (AiBench.load stray A (Wgsl.u32_add (Wgsl.u32_mul row N) k))
                          (AiBench.load stray B (Wgsl.u32_add (Wgsl.u32_mul k N) col)))))
            (k, sum)
  = Some (foldl (term row col) sum (seqZ k (N - k))).
Proof.
  pose proof square_bound as Hsq.
  set (cond := fun '(k, _) => k <? N).
  set (body := fun '(k, sum) => Some (Wgsl.u32_add k 1, _)).
  induction n as [|n IH]; intros fuel k sum Hrow Hcol Hk Hn Hfuel;
    (destruct fuel as [|fuel]; [lia|]); cbn [while].
  - assert (k = N) as -> by lia.
    assert (cond (N, sum) = false) as -> by apply Z.ltb_irrefl.
    by rewrite Z.sub_diag.
  - assert (k < N) as Hlt by lia.
    assert (cond (k, sum) = true) as -> by (apply Z.ltb_lt; lia).
    assert (body (k, sum) = Some (k + 1, term row col sum k)) as ->.
    { unfold body, Wgsl.u32_add, Wgsl.u32_mul.
      rewrite (Z.mod_small (row * N)) by nia.
      rewrite (Z.mod_small (row * N + k)) by nia.
      rewrite (Z.mod_small (k * N)) by nia.
      rewrite (Z.mod_small (k * N + col)) by nia.
      by rewrite (Z.mod_small (k + 1)) by lia. }
    rewrite IH by (done || lia).
    replace (N - k) with (Z.succ (N - (k + 1))) by lia.
    rewrite (seqZ_cons k) by lia. cbn [foldl].
    by replace (Z.pred (Z.succ (N - (k + 1)))) with (N - (k + 1)) by lia.
Qed.

Lemma dot_loop_dot fuel row col :
  0 <= row < N -> 0 <= col < N -> (Z.to_nat N < fuel)%nat ->
  AiBench.dot_loop stray fuel N A B row col
  = Some (AiBench.dot stray N A B row col).
Proof.
  intros Hrow Hcol Hfuel. unfold AiBench.dot_loop, AiBench.dot.
  rewrite (dot_while row col (Z.to_nat N)) by (done || lia).
  by rewrite Z.sub_0_r.
Qed.

Lemma matrix_main fuel gid C :
  0 <= fst gid -> 0 <= snd gid -> (Z.to_nat N < fuel)%nat ->
  AiBench.main tanh stray fuel N A B gid C
  = Some (if decide (matrix_inside N gid)
          then <[matrix_index N gid := matrix_value tanh stray N A B gid]> C
          else C).
Proof.
  pose proof square_bound as Hsq.
  destruct gid as [row col]. cbn [fst snd]. intros Hrow Hcol Hfuel.
  unfold AiBench.main.
  destruct (decide (matrix_inside N (row, col))) as [[Hr Hc]|Hout];
    cbn [fst snd] in *.
  - rewrite (proj2 (Z.leb_gt N row)), (proj2 (Z.leb_gt N col)) by lia.
    cbn [orb]. rewrite dot_loop_dot by (done || lia). cbn.
    unfold matrix_index, matrix_value, Wgsl.u32_add, Wgsl.u32_mul. cbn [fst snd].
    rewrite (Z.mod_small (row * N)) by nia.
    by rewrite (Z.mod_small (row * N + col)) by nia.
  - destruct (N <=? row) eqn:Hr; [done|].
    destruct (N <=? col) eqn:Hc; [done|].
    apply Z.leb_gt in Hr, Hc. destruct Hout. by split.
Qed.

Lemma matrix_pass_writes fuel ids : forall C,
  Forall (fun c => 0 <= fst c /\ 0 <= snd c) ids ->
  (Z.to_nat N < fuel)%nat ->
  foldl (fun out gid => out ≫= AiBench.main tanh stray fuel N A B gid) (Some C) ids
  = Some (writes (matrix_index N) (matrix_value tanh stray N A B) C
            (filter (matrix_inside N) ids)).
Proof.
  induction ids as [|gid ids IH]; intros C Hids Hfuel; [done|].
  apply Forall_cons in Hids as [[Hx Hy] Hids].
  cbn [foldl mbind option_bind]. rewrite matrix_main by done.
  rewrite IH by done. rewrite filter_cons.
  by destruct (decide (matrix_inside N gid)).
Qed.

Lemma length_matrix_product :
  length (matrix_product tanh stray N A B) = Z.to_nat (N * N).
Proof. unfold matrix_product. by rewrite length_fmap, length_seqZ. Qed.

Lemma matrix_product_lookup (k : nat) :
  (k < Z.to_nat (N * N))%nat ->
  matrix_product tanh stray N A B !! k
  = Some (tanh (AiBench.dot stray N A B (Z.of_nat k / N) (Z.of_nat k mod N))).
Proof.
  intros Hk. unfold matrix_product.
  rewrite list_lookup_fmap, lookup_seqZ_lt by lia. done.
Qed.

Lemma matrix_writes C :
  length C = Z.to_nat (N * N) ->
  writes (matrix_index N) (matrix_value tanh stray N A B) C
    (filter (matrix_inside N)
       (Wgsl.invocations (Wgsl.workgroups N) (Wgsl.workgroups N)))
  = matrix_product tanh stray N A B.
Proof.
  intros Hlen. apply list_eq. intros k.
  destruct (decide (k < Z.to_nat (N * N))%nat) as [Hk|Hk].
  - rewrite matrix_product_lookup by done.
    destruct (index_cell N N k ltac:(lia) Hk) as (Hcol & Hrow & Hidx).
    rewrite (writes_lookup_hit _ _ _ _ (Z.of_nat k / N, Z.of_nat k mod N) k).
    + done.
    + apply list_elem_of_filter. split; [split; cbn; lia|].
      apply elem_of_invocations; lia.
    + done.
    + lia.
    + intros [row col] Hin Heq.
      apply list_elem_of_filter in Hin as [[Hr Hc] Hin].
      apply invocations_nonneg in Hin as [Hr0 Hc0]. cbn [fst snd] in *.
      unfold matrix_index in Heq. cbn [fst snd] in Heq.
      destruct (row_major_inj N col row (Z.of_nat k mod N) (Z.of_nat k / N))
        as [-> ->]; [lia..| |done].
      assert (Z.to_nat (row * N + col)
              = Z.to_nat (Z.of_nat k / N * N + Z.of_nat k mod N)) by congruence.
      nia.
  - rewrite !lookup_ge_None_2; [done|rewrite length_matrix_product; lia|].
    rewrite length_writes. lia.
Qed.

Lemma matrix_pass fuel C :
  (Z.to_nat N < fuel)%nat ->
  AiBench.pass tanh stray fuel N A B C
  = Some (writes (matrix_index N) (matrix_value tanh stray N A B) C
            (filter (matrix_inside N)
               (Wgsl.invocations (Wgsl.workgroups N) (Wgsl.workgroups N)))).
Proof.
  intros Hfuel. unfold AiBench.pass. apply matrix_pass_writes; [|done].
  apply Forall_forall. intros c Hc. by apply invocations_nonneg in Hc.
Qed.
End MatrixKernel.

(** * The start of the render benchmarks *)

Lemma getGPUInfo_no_handles b :
  Browser.get (Browser.getGPUInfo b) "adapter" = Browser.Undefined
  /\ Browser.get (Browser.getGPUInfo b) "device" = Browser.Undefined.
Proof.
  unfold Browser.getGPUInfo, Browser.get.
  destruct (Browser.webgl b) as [gl|]; [|destruct (Browser.experimental_webgl b) as [gl|]];
    try destruct (Browser.debug_renderer_info gl); done.
Qed.

(** * The orbit in binary32 never holds a NaN either *)

Section Binary32.
Local Abbreviation F := binary32.
Local Abbreviation prec := (fprec binary32).
Local Abbreviation emax := (femax binary32).

Lemma prec32_pos : 0 < prec.
Proof. done. Qed.

Lemma emax32_large : prec < emax.
Proof. done. Qed.

Lemma of_Z_cases32 z :
  0 <= z < 2 ^ 24 ->
  z = 0 /\ of_Z F z = S754_zero false
  \/ exists m e, of_Z F z = S754_finite false m e /\ -23 <= e <= 0
                 /\ Z.pos (digits2_pos m) + e <= 24.
Proof.
  intros Hz. destruct (decide (z = 0)) as [->|]; [by left|]. right.
  destruct (binary_normalize_integer 24 128 z) as (m & e & H & He & Hm); try lia.
  exists m, e. split; [done|]. lia.
Qed.

(** The quotient [x / width] of two sizes, then the affine map. *)
Lemma coordinate_small32 x width (c1 c2 : spec_float) :
  0 <= x < 2 ^ 24 -> 0 < width < 2 ^ 24 ->
  magnitude_le 2 c1 -> magnitude_le 2 c2 ->
  magnitude_le 53 (fmul F (fsub F (fdiv F (of_Z F x) (of_Z F width)) c1) c2).
Proof.
  intros Hx Hw Hc1 Hc2.
  assert (magnitude_le 24 (of_Z F x)) as Hmx.
  { destruct (of_Z_cases32 x Hx) as [[_ ->]|(m & e & -> & _ & Hm)]; [done|exact Hm]. }
  destruct (of_Z_cases32 width ltac:(lia)) as [[? _]|(mw & ew & Hwv & Hew & _)]; [lia|].
  assert (magnitude_le 48 (fdiv F (of_Z F x) (of_Z F width))) as Hq.
  { unfold fdiv. rewrite Hwv.
    apply (magnitude_le_mono (24 - ew + 1)); [lia|].
    apply (SFdiv_small prec emax prec32_pos); [done|..]; unfold emin; cbn; lia. }
  assert (magnitude_le 50 (fsub F (fdiv F (of_Z F x) (of_Z F width)) c1)) as Hs.
  { apply (SFsub_small prec emax prec32_pos 48 2); [done|done|..]; unfold emin; cbn; lia. }
  apply (SFmul_small prec emax prec32_pos 50 2); [done|done|..]; unfold emin; cbn; lia.
Qed.

Lemma sample_finite32 x y width height :
  0 <= x < 2 ^ 24 -> 0 < width < 2 ^ 24 ->
  0 <= y < 2 ^ 24 -> 0 < height < 2 ^ 24 ->
  finite (fst (Spec.sample F x y width height))
  /\ finite (snd (Spec.sample F x y width height)).
Proof.
  intros Hx Hw Hy Hh. unfold Spec.sample. simpl. split.
  - apply (magnitude_le_finite 53), coordinate_small32; try done; cbn; lia.
  - apply (magnitude_le_finite 53), coordinate_small32; try done; cbn; lia.
Qed.

(** A square is a zero, a positive finite value or [+infinity], unless
    its argument is a NaN. *)
Lemma square_cases32 v :
  v <> S754_nan ->
  match fmul F v v with
  | S754_zero false | S754_finite false _ _ => finite v
  | S754_infinity false => True
  | _ => False
  end.
Proof.
  intros Hv. destruct v as [s|s| |s m e]; simpl; try done.
  - by rewrite xorb_nilpotent.
  - by rewrite xorb_nilpotent.
  - pose proof (binary_round_aux_cases prec emax prec32_pos (xorb s s)
                  (Z.pos (m * m)) (e + e) loc_Exact ltac:(lia)) as H.
    unfold fmul. simpl. rewrite xorb_nilpotent in *.
    destruct (binary_round_aux _ _ _ _ _ _) as [s'|s'| |s' m' e']; try done.
    + by subst.
    + by destruct H as [-> _].
    + by destruct H as [-> _].
Qed.

Lemma flt_4_finite32 v : flt v (of_Z F 4) = true -> v <> S754_infinity false /\ v <> S754_nan.
Proof. by destruct v as [s|[]| |s m e]. Qed.

(** While the iteration goes on, both squares and both coordinates are
    finite. *)
Lemma inside_finite32 z :
  Spec.inside F z = true ->
  finite (fst z) /\ finite (snd z)
  /\ finite (fmul F (fst z) (fst z)) /\ finite (fmul F (snd z) (snd z)).
Proof.
  destruct z as [zx zy]. unfold Spec.inside. simpl. intros Hin.
  apply flt_4_finite32 in Hin as [Hinf Hnan].
  assert (zx <> S754_nan) as Hx by (by intros ->).
  assert (zy <> S754_nan) as Hy.
  { intros ->. apply Hnan. by destruct (fmul F zx zx). }
  pose proof (square_cases32 zx Hx) as Hsx. pose proof (square_cases32 zy Hy) as Hsy.
  destruct (fmul F zx zx) as [[]|[]| |[] mx ex] eqn:Hpx; try done;
    destruct (fmul F zy zy) as [[]|[]| |[] my ey] eqn:Hpy; try done.
Qed.

Lemma step_not_nan32 c z :
  finite (fst c) -> finite (snd c) ->
  Spec.inside F z = true ->
  fst (Spec.step F c z) <> S754_nan /\ snd (Spec.step F c z) <> S754_nan.
Proof.
  intros Hcx Hcy Hin.
  destruct (inside_finite32 z Hin) as (Hzx & Hzy & Hpx & Hpy).
  destruct c as [cx cy], z as [zx zy].
  cbn [fst snd Spec.step] in *. unfold fadd, fsub, fmul in *. split.
  - apply (SFadd_not_nan prec emax prec32_pos); [|done].
    by apply (SFsub_not_nan prec emax prec32_pos).
  - apply (SFadd_not_nan prec emax prec32_pos); [|done].
    apply (SFmul_not_nan prec emax prec32_pos); [|done].
    destruct zx as [s|s| |s m e]; try done.
    pose proof (SFmul_self_finite prec emax prec32_pos emax32_large s m e Hpx) as Hmag.
    apply (magnitude_le_finite 68).
    apply (SFmul_small prec emax prec32_pos 2 65).
    + vm_compute. discriminate.
    + simpl. unfold emax in Hmag. simpl in Hmag. lia.
    + vm_compute. discriminate.
    + vm_compute. discriminate.
Qed.

(** The points of an orbit that has stayed inside are free of NaN. *)
Lemma orbit_not_nan32 c n :
  finite (fst c) -> finite (snd c) ->
  (forall j, (j < n)%nat -> Spec.inside F (Spec.orbit F c j) = true) ->
  fst (Spec.orbit F c n) <> S754_nan /\ snd (Spec.orbit F c n) <> S754_nan.
Proof.
  intros Hcx Hcy Hin. destruct n as [|n]; [done|].
  rewrite orbit_succ. apply step_not_nan32; [done..|]. apply Hin. lia.
Qed.

(** So their squared magnitude compares with 4.0 one way or the other. *)
Lemma norm_ordered32 z :
  fst z <> S754_nan -> snd z <> S754_nan ->
  Spec.inside F z = false ->
  fle (of_Z F 4) (fadd F (fmul F (fst z) (fst z)) (fmul F (snd z) (snd z))) = true.
Proof.
  destruct z as [zx zy]. simpl. intros Hx Hy Hout.
  apply flt_false_fle; [|exact Hout].
  pose proof (square_cases32 zx Hx) as Hsx. pose proof (square_cases32 zy Hy) as Hsy.
  assert (fadd F (fmul F zx zx) (fmul F zy zy) <> S754_nan) as Hn.
  { destruct (fmul F zx zx) as [[]|[]| |[] mx ex] eqn:Hpx; try done;
      destruct (fmul F zy zy) as [[]|[]| |[] my ey] eqn:Hpy; try done.
    apply binary_normalize_not_nan. exact prec32_pos. }
  by destruct (fadd F (fmul F zx zx) (fmul F zy zy)) as [s|[]| |s m e].
Qed.

(** On a grid whose sizes are [f32] values, the count of a cell is its escape
    count in the words of the specification: where the loop is left below
    the cap, [zx*zx + zy*zy >= 4.0] holds. *)
Lemma escape_count_is_escape_count32 x y width height maxIter :
  0 <= x < width -> 0 <= y < height ->
  width < 2 ^ 24 -> height < 2 ^ 24 -> 0 <= maxIter ->
  Spec.is_escape_count F (Spec.sample F x y width height) maxIter
    (Spec.escape_count F (Spec.sample F x y width height) maxIter).
Proof.
  intros Hx Hy Hw Hh Hm.
  destruct (sample_finite32 x y width height) as [Hcx Hcy]; try lia.
  destruct (escape_count_first_stop F (Spec.sample F x y width height) maxIter Hm)
    as (Hb & Hbelow & Hstop).
  split; [done|]. split; [done|].
  destruct Hstop as [?|Hstop]; [by left|right].
  set (i := Spec.escape_count F _ _) in *.
  destruct (orbit_not_nan32 (Spec.sample F x y width height) (Z.to_nat i) Hcx Hcy)
    as [Hnx Hny].
  { intros j Hj. rewrite <- (Nat2Z.id j). apply Hbelow. lia. }
  by apply norm_ordered32.
Qed.
End Binary32.

(** * The array of the kernel, cell by cell *)

(** * The picture, byte by byte *)

Lemma bind_pixel_lookup data (i k : nat) iter :
  data !! i = Some iter -> (k < 4)%nat ->
  (data ≫= pixel_bytes) !! (4 * i + k)%nat = pixel_bytes iter !! k.
Proof.
  revert i. induction data as [|d data IH]; intros i Hi Hk; [done|].
  assert (length (pixel_bytes d) = 4%nat) as Hlen.
  { unfold pixel_bytes. by destruct (Draw.colorize d) as [[r g] b]. }
  cbn [mbind list_bind]. destruct i as [|i].
  - simplify_eq/=. rewrite lookup_app_l by lia. done.
  - rewrite lookup_app_r by lia. rewrite Hlen.
    replace (4 * S i + k - 4)%nat with (4 * i + k)%nat by lia.
    by apply IH.
Qed.

Lemma length_bind_pixel data : length (data ≫= pixel_bytes) = (4 * length data)%nat.
Proof.
  induction data as [|d data IH]; [done|].
  cbn [mbind list_bind]. rewrite length_app.
  change (list_bind _ _ pixel_bytes data) with (data ≫= pixel_bytes).
  rewrite IH. unfold pixel_bytes. destruct (Draw.colorize d) as [[r g] b]. simpl. lia.
Qed.

(** * The sample points of the two evaluators *)

Lemma same_valueb_sound a b : same_valueb a b = true -> same_value a b.
Proof.
  unfold same_valueb, same_value.
  destruct (to_Q a) as [qa|], (to_Q b) as [qb|]; try done.
  intros H. exists qa, qb. split; [done|]. split; [done|].
  by apply Qeq_bool_iff.
Qed.

Lemma same_points_options res :
  res ∈ RESOLUTION_OPTIONS -> same_points res = true.
Proof.
  unfold RESOLUTION_OPTIONS. intros Hres.
  repeat (apply elem_of_cons in Hres as [->|Hres]);
    [..|by apply elem_of_nil in Hres]; vm_compute; reflexivity.
Qed.

(** * The claims *)

(** [C1], as amended.  On a grid whose sizes and cap pass through the
    [Float32Array] unchanged, both evaluators return [width * height]
    entries in the same row-major layout; the entry of cell [(x, y)] is the
    escape count of the same recurrence, evaluated in binary64 by the
    reference evaluator and in binary32 by the kernel; and the two arrays are
    equal when the cap is at most 1. *)
Theorem C1_same_formula_two_precisions fuel width height max_iter :
  0 < width -> 0 < height -> width * height <= 2 ^ 32 -> 0 <= max_iter ->
  f32_exact width -> f32_exact height -> f32_exact max_iter ->
  (Z.to_nat width < fuel)%nat -> (Z.to_nat height < fuel)%nat ->
  (Z.to_nat max_iter < fuel)%nat ->
  exists cpu gpu,
    Cpu.calculateMandelbrotCPU fuel width height max_iter = Some (JS.Normal cpu)
    /\ Wgsl.handleRun_gpu fuel width height max_iter = Some gpu
    /\ length cpu = Z.to_nat (width * height)
    /\ length gpu = Z.to_nat (width * height)
    /\ (forall x y, 0 <= x < width -> 0 <= y < height ->
          cpu !! Z.to_nat (y * width + x)
          = Some (Spec.escape_count binary64 (Spec.sample binary64 x y width height) max_iter)
          /\ gpu !! Z.to_nat (y * width + x)
             = Some (Spec.escape_count binary32 (Spec.sample binary32 x y width height) max_iter))
    /\ (max_iter <= 1 -> cpu = gpu).
Proof.
  intros Hw Hh Hwh Hm Ew Eh Em Hfw Hfh Hfm.
  pose proof (f32_exact_range _ Em) as Hm'.
  assert (forall x y, 0 <= x < width -> 0 <= y < height ->
    cpu_array width height max_iter !! Z.to_nat (y * width + x)
    = Some (Spec.escape_count binary64 (Spec.sample binary64 x y width height) max_iter)
    /\ gpu_array width height max_iter
         (Wgsl.invocations (Wgsl.workgroups width) (Wgsl.workgroups height))
       !! Z.to_nat (y * width + x)
       = Some (Spec.escape_count binary32 (Spec.sample binary32 x y width height) max_iter))
    as Hcells.
  { intros x y Hx Hy. split.
    - rewrite cpu_array_lookup by done. by rewrite escape_count_small by lia.
    - apply gpu_array_lookup; try done.
      + by apply elem_of_invocations.
      + apply invocations_nonneg. }
  eexists _, _. split; [|split; [|split; [|split; [|split]]]].
  - apply cpu_returns; unfold JS.MAX_EXACT; try done; nia.
  - apply gpu_returns. by rewrite Em.
  - apply length_cpu_array.
  - apply length_gpu_array.
  - exact Hcells.
  - intros Hle. apply list_eq. intros k.
    destruct (decide (k < Z.to_nat (width * height))%nat) as [Hk|Hk].
    + destruct (index_cell width height k Hw Hk) as (Hx & Hy & Hidx).
      destruct (Hcells _ _ Hx Hy) as [Hc Hg]. rewrite Hidx in Hc, Hg.
      rewrite Hc, Hg. by rewrite !escape_count_first by (done || lia).
    + rewrite !lookup_ge_None_2; [done|rewrite length_gpu_array; lia|rewrite length_cpu_array; lia].
Qed.

Lemma C1_witness :
  exists cpu gpu,
    Cpu.calculateMandelbrotCPU 10 8 8 1 = Some (JS.Normal cpu)
    /\ Wgsl.handleRun_gpu 10 8 8 1 = Some gpu
    /\ length cpu = Z.to_nat (8 * 8)
    /\ length gpu = Z.to_nat (8 * 8)
    /\ (forall x y, 0 <= x < 8 -> 0 <= y < 8 ->
          cpu !! Z.to_nat (y * 8 + x)
          = Some (Spec.escape_count binary64 (Spec.sample binary64 x y 8 8) 1)
          /\ gpu !! Z.to_nat (y * 8 + x)
             = Some (Spec.escape_count binary32 (Spec.sample binary32 x y 8 8) 1))
    /\ (1 <= 1 -> cpu = gpu).
Proof.
  apply (C1_same_formula_two_precisions 10 8 8 1);
    first [ reflexivity | lia ].
Defined.

(** [C1] fails as stated: on the 64 by 8 grid with cap 255, cell [(18, 3)]
    leaves the reference loop after 101 passes and the kernel's after 107. *)
Lemma C1_counterexample :
  exists cpu gpu,
    Cpu.calculateMandelbrotCPU 300 64 8 255 = Some (JS.Normal cpu)
    /\ Wgsl.handleRun_gpu 300 64 8 255 = Some gpu
    /\ cpu !! Z.to_nat (3 * 64 + 18) = Some 101
    /\ gpu !! Z.to_nat (3 * 64 + 18) = Some 107.
Proof.
  eexists _, _. split; [|split; [|split]].
  - apply cpu_returns; unfold JS.MAX_EXACT; lia.
  - apply gpu_returns. change (Wgsl.u32_of_f32 _) with 255. lia.
  - rewrite cpu_array_lookup by lia. vm_compute. reflexivity.
  - rewrite gpu_array_lookup;
      [ vm_compute; reflexivity | reflexivity | reflexivity | reflexivity
      | lia | lia | lia | apply elem_of_invocations; lia | apply invocations_nonneg ].
Qed.




(** [C3], as amended.  The loop of the reference evaluator runs the
    recurrence in binary64, the arithmetic of JavaScript numbers: what it
    leaves in [i] is the escape count of the recurrence evaluated at
    precision 53.  The kernel's loop is the same recurrence at precision 24. *)
Theorem C3_reference_is_binary64 fuel width height max_iter x y :
  max_iter <= 2 ^ 53 ->
  (Z.to_nat max_iter < fuel)%nat ->
  (Z.to_nat (Wgsl.u32_of_f32 (Wgsl.Float32Array_elem max_iter)) < fuel)%nat ->
  Cpu.escape_loop fuel (Cpu.cell_cx x width) (Cpu.cell_cy y height) max_iter
  = Some (Spec.escape_count binary64 (Spec.sample binary64 x y width height) max_iter)
  /\ Wgsl.escape_loop fuel (Wgsl.uniform width height max_iter) x y
     = Some (Spec.escape_count binary32 (Spec.sample binary32 x y width height)
               (Wgsl.u32_of_f32 (Wgsl.Float32Array_elem max_iter))).
Proof.
  intros Hm Hfm Hfc. split.
  - by rewrite cpu_escape_loop.
  - by rewrite wgsl_escape_loop.
Qed.

Lemma C3_witness :
  Cpu.escape_loop 300 (Cpu.cell_cx 18 64) (Cpu.cell_cy 3 8) 255
  = Some (Spec.escape_count binary64 (Spec.sample binary64 18 3 64 8) 255)
  /\ Wgsl.escape_loop 300 (Wgsl.uniform 64 8 255) 18 3
     = Some (Spec.escape_count binary32 (Spec.sample binary32 18 3 64 8)
               (Wgsl.u32_of_f32 (Wgsl.Float32Array_elem 255))).
Proof.
  apply (C3_reference_is_binary64 300 64 8 255 18 3);
    [lia|lia|change (Wgsl.u32_of_f32 _) with 255; lia].
Defined.

(** [C3] fails as stated: for [x = 1] and [width = 3] the reference
    evaluator's [cx] is the binary64 value [-0x1.0aaaaaaaaaaab], not the value
    [-8738133 / 2^23] that the same formula has in single precision. *)
Lemma C3_counterexample :
  to_Q (Cpu.cell_cx 1 3) = Some (- (4691249611844267 # 4503599627370496))%Q
  /\ to_Q (fst (Spec.sample binary32 1 0 3 1)) = Some (- (8738133 # 8388608))%Q
  /\ ~ (- (4691249611844267 # 4503599627370496) == - (8738133 # 8388608))%Q.
Proof.
  split; [vm_compute; reflexivity|]. split; [vm_compute; reflexivity|].
  intros H. vm_compute in H. discriminate.
Qed.

(** [C4], as amended.  The colour is bound to the constant
    [MAX_ITERATIONS = 255], the cap [handleRun] passes to both evaluators:
    the three bytes [drawMandelbrot] stores for an escape count are black
    from 255 on, and otherwise exactly the six-sector conversion of the hue
    [360 * iter / 255] at saturation 1 and lightness 1/2, scaled to 255. *)
Theorem C4_colour_of_fixed_cap img data (i : nat) iter :
  data !! i = Some iter -> 0 <= iter ->
  (4 * i + 3 < length img)%nat ->
  exists r g b,
    Draw.drawMandelbrot img data !! (4 * i)%nat = Some r
    /\ Draw.drawMandelbrot img data !! (4 * i + 1)%nat = Some g
    /\ Draw.drawMandelbrot img data !! (4 * i + 2)%nat = Some b
    /\ rgb_matches (r, g, b) (Spec.colorize iter 255).
Proof.
  intros Hi Hiter Hlen.
  pose proof (drawMandelbrot_lookup img data i iter Hi Hlen) as Hdraw.
  pose proof (colorize_matches iter Hiter) as Hrgb.
  destruct (Draw.colorize iter) as [[r g] b].
  destruct Hdraw as (Hr & Hg & Hb & _). by exists r, g, b.
Qed.

Lemma C4_witness :
  exists r g b,
    Draw.drawMandelbrot (replicate 8 0) [255; 100] !! (4 * 1)%nat = Some r
    /\ Draw.drawMandelbrot (replicate 8 0) [255; 100] !! (4 * 1 + 1)%nat = Some g
    /\ Draw.drawMandelbrot (replicate 8 0) [255; 100] !! (4 * 1 + 2)%nat = Some b
    /\ rgb_matches (r, g, b) (Spec.colorize 100 255).
Proof.
  apply (C4_colour_of_fixed_cap (replicate 8 0) [255; 100] 1 100);
    [reflexivity|lia|simpl; lia].
Defined.

(** [C4] fails as stated: for the escape count 50 of an evaluation capped
    at 100 the claimed colour is that of the hue 180, [(0, 255, 255)], while
    [drawMandelbrot] stores [(210, 255, 0)]. *)
Lemma C4_counterexample :
  Draw.drawMandelbrot (replicate 4 0) [50] = [210; 255; 0; 255]
  /\ rgb_matches (0, 255, 255) (Spec.colorize 50 100)
  /\ ~ rgb_matches (Draw.colorize 50) (Spec.colorize 50 100).
Proof.
  split; [vm_compute; reflexivity|]. split.
  - apply rgb_matchesb_sound. vm_compute. reflexivity.
  - intros (Hr & _). vm_compute in Hr. discriminate.
Qed.




(** [C6], as amended.  For every escape count the three bytes stored by
    [drawMandelbrot] lie in [[0, 255]], and they are black exactly when the
    count is at least the constant [MAX_ITERATIONS = 255], whichever cap the
    counts were computed under. *)
Theorem C6_channels_in_range img data (i : nat) iter :
  data !! i = Some iter -> 0 <= iter ->
  (4 * i + 3 < length img)%nat ->
  exists r g b,
    Draw.drawMandelbrot img data !! (4 * i)%nat = Some r
    /\ Draw.drawMandelbrot img data !! (4 * i + 1)%nat = Some g
    /\ Draw.drawMandelbrot img data !! (4 * i + 2)%nat = Some b
    /\ 0 <= r <= 255 /\ 0 <= g <= 255 /\ 0 <= b <= 255
    /\ ((r, g, b) = (0, 0, 0) <-> 255 <= iter).
Proof.
  intros Hi Hiter Hlen.
  pose proof (drawMandelbrot_lookup img data i iter Hi Hlen) as Hdraw.
  pose proof (colorize_range iter Hiter) as Hrange.
  pose proof (colorize_black iter) as Hblack.
  pose proof (colorize_coloured iter) as Hcol.
  destruct (Draw.colorize iter) as [[r g] b].
  destruct Hdraw as (Hr & Hg & Hb & _). exists r, g, b.
  simpl in Hrange. repeat (apply andb_true_iff in Hrange as [Hrange ?]).
  repeat (split; [done || lia|]).
  split.
  - intros Heq. simplify_eq. destruct (decide (255 <= iter)); [done|].
    assert (0 <= iter < Draw.MAX_ITERATIONS) as Hlt by (unfold Draw.MAX_ITERATIONS; lia).
    apply Hcol in Hlt. discriminate Hlt.
  - apply Hblack.
Qed.

Lemma C6_witness :
  exists r g b,
    Draw.drawMandelbrot (replicate 8 0) [255; 100] !! (4 * 0)%nat = Some r
    /\ Draw.drawMandelbrot (replicate 8 0) [255; 100] !! (4 * 0 + 1)%nat = Some g
    /\ Draw.drawMandelbrot (replicate 8 0) [255; 100] !! (4 * 0 + 2)%nat = Some b
    /\ 0 <= r <= 255 /\ 0 <= g <= 255 /\ 0 <= b <= 255
    /\ ((r, g, b) = (0, 0, 0) <-> 255 <= 255).
Proof.
  apply (C6_channels_in_range (replicate 8 0) [255; 100] 0 255);
    [reflexivity|lia|simpl; lia].
Defined.

(** [C6] fails as stated for the cap 1: the escape count 1, which is that
    cap, is painted [(255, 6, 0)], not black. *)
Lemma C6_counterexample :
  Draw.drawMandelbrot (replicate 4 0) [1] = [255; 6; 0; 255]
  /\ Draw.colorize 1 <> (0, 0, 0).
Proof. split; [vm_compute; reflexivity|]. vm_compute. discriminate. Qed.






(** [C9].  On the 256 by 256 grid with cap 255, the cell [x = 192],
    [y = 128] is the one the interior-point formula names, its sample point
    is [c = 0], and its entry in the array of the reference evaluator is
    255. *)
Theorem C9_interior_point :
  Qfloor ((0 / (5 # 2) + (3 # 4)) * 256 + (1 # 2)) = 192
  /\ 256 / 2 = 128
  /\ Spec.sample binary64 192 128 256 256 = (of_Z binary64 0, of_Z binary64 0)
  /\ exists data,
       Cpu.calculateMandelbrotCPU 300 256 256 255 = Some (JS.Normal data)
       /\ data !! Z.to_nat (128 * 256 + 192) = Some 255.
Proof.
  split; [reflexivity|]. split; [reflexivity|].
  assert (Spec.sample binary64 192 128 256 256 = (of_Z binary64 0, of_Z binary64 0)) as Hc
    by (vm_compute; reflexivity).
  split; [exact Hc|]. eexists. split.
  - apply cpu_returns; unfold JS.MAX_EXACT; lia.
  - rewrite cpu_array_lookup by lia. rewrite Hc.
    rewrite escape_count_origin64 by lia. reflexivity.
Qed.




(** * Further properties of the code *)

(** [X1].  The invocations of the dispatch can run in any order: whatever the
    order, the kernel leaves the array [handleRun] reads back. *)
Theorem X1_invocation_order fuel width height max_iter ids :
  f32_exact width -> f32_exact height -> width * height <= 2 ^ 32 ->
  (Z.to_nat (Wgsl.u32_of_f32 (Wgsl.Float32Array_elem max_iter)) < fuel)%nat ->
  ids ≡ₚ Wgsl.invocations (Wgsl.workgroups width) (Wgsl.workgroups height) ->
  Wgsl.run fuel (Wgsl.uniform width height max_iter) ids
    (replicate (Z.to_nat (width * height)) 0)
  = Wgsl.handleRun_gpu fuel width height max_iter.
Proof.
  intros Ew Eh Hwh Hfuel Hperm.
  rewrite wgsl_run by done. rewrite gpu_returns by done. f_equal.
  apply (gpu_array_permutation width height max_iter); try done.
  intros c Hc. rewrite Hperm in Hc. by apply invocations_nonneg in Hc.
Qed.

Lemma X1_witness :
  Wgsl.run 10 (Wgsl.uniform 8 8 1)
    (reverse (Wgsl.invocations (Wgsl.workgroups 8) (Wgsl.workgroups 8)))
    (replicate (Z.to_nat (8 * 8)) 0)
  = Wgsl.handleRun_gpu 10 8 8 1.
Proof.
  apply (X1_invocation_order 10 8 8 1);
    [reflexivity|reflexivity|lia|vm_compute; lia|apply reverse_Permutation].
Defined.

(** [X2].  No two invocations write the same element.  An invocation whose id
    lies outside the grid returns at the guard; the one with id [(x, y)]
    inside the grid writes element [y * width + x] and nothing else; and
    every element of the array is the target of exactly one cell. *)
Theorem X2_one_invocation_per_cell fuel width height max_iter :
  0 < width -> 0 < height ->
  f32_exact width -> f32_exact height -> width * height <= 2 ^ 32 ->
  (Z.to_nat (Wgsl.u32_of_f32 (Wgsl.Float32Array_elem max_iter)) < fuel)%nat ->
  let ids := Wgsl.invocations (Wgsl.workgroups width) (Wgsl.workgroups height) in
  let params := Wgsl.uniform width height max_iter in
  NoDup ids
  /\ (forall x y output, (x, y) ∈ ids ->
        Wgsl.main fuel params (x, y) output
        = Some (if decide (x < width /\ y < height)
                then <[Z.to_nat (y * width + x) := wgsl_value params (x, y)]> output
                else output))
  /\ (forall k : nat, (k < Z.to_nat (width * height))%nat ->
        exists x y,
          (x, y) ∈ ids /\ 0 <= x < width /\ 0 <= y < height
          /\ Z.to_nat (y * width + x) = k
          /\ forall x' y', 0 <= x' < width -> 0 <= y' < height ->
               Z.to_nat (y' * width + x') = k -> x' = x /\ y' = y).
Proof.
  intros Hw Hh Ew Eh Hwh Hfuel ids params. split; [|split].
  - apply NoDup_grid.
  - intros x y output Hin.
    apply invocations_nonneg in Hin as [Hx Hy]. simpl in Hx, Hy.
    rewrite wgsl_main by done.
    assert (Wgsl.u32_of_f32 (Wgsl.width params) = width) as Hpw by exact Ew.
    assert (Wgsl.u32_of_f32 (Wgsl.height params) = height) as Hph by exact Eh.
    assert (wgsl_inside params (x, y) <-> x < width /\ y < height) as Hin.
    { unfold wgsl_inside. cbn [fst snd]. by rewrite Hpw, Hph. }
    f_equal. destruct (decide (x < width /\ y < height)) as [[Hxw Hyh]|Hout].
    + rewrite decide_True by (by apply Hin). f_equal.
      unfold wgsl_index. cbn [fst snd]. rewrite Hpw.
      unfold Wgsl.u32_add, Wgsl.u32_mul.
      rewrite (Z.mod_small (y * width)) by nia.
      by rewrite Z.mod_small by nia.
    + rewrite decide_False; [done|]. intros Hc. by apply Hout, Hin.
  - intros k Hk.
    destruct (index_cell width height k Hw Hk) as (Hx & Hy & Hidx).
    exists (Z.of_nat k mod width), (Z.of_nat k / width).
    split; [by apply elem_of_invocations|].
    split; [done|]. split; [done|]. split; [done|].
    intros x' y' Hx' Hy' Hk'.
    apply (row_major_inj width); [lia..|].
    assert (Z.to_nat (y' * width + x')
            = Z.to_nat (Z.of_nat k / width * width + Z.of_nat k mod width)) by congruence.
    nia.
Qed.

Lemma X2_witness :
  let ids := Wgsl.invocations (Wgsl.workgroups 12) (Wgsl.workgroups 5) in
  let params := Wgsl.uniform 12 5 16 in
  NoDup ids
  /\ (forall x y output, (x, y) ∈ ids ->
        Wgsl.main 20 params (x, y) output
        = Some (if decide (x < 12 /\ y < 5)
                then <[Z.to_nat (y * 12 + x) := wgsl_value params (x, y)]> output
                else output))
  /\ (forall k : nat, (k < Z.to_nat (12 * 5))%nat ->
        exists x y,
          (x, y) ∈ ids /\ 0 <= x < 12 /\ 0 <= y < 5
          /\ Z.to_nat (y * 12 + x) = k
          /\ forall x' y', 0 <= x' < 12 -> 0 <= y' < 5 ->
               Z.to_nat (y' * 12 + x') = k -> x' = x /\ y' = y).
Proof.
  apply (X2_one_invocation_per_cell 20 12 5 16);
    [lia|lia|reflexivity|reflexivity|lia|vm_compute; lia].
Defined.

(** [X3].  The sizes and the cap reach the kernel through a [Float32Array] and
    come back through [u32(...)]: every integer from 0 to [2^24] makes the
    round trip unchanged, and [2^24 + 1], the first one that is no [f32]
    value, comes back as [2^24]. *)
Theorem X3_parameter_round_trip z :
  0 <= z <= 2 ^ 24 ->
  Wgsl.u32_of_f32 (Wgsl.Float32Array_elem z) = z
  /\ Wgsl.u32_of_f32 (Wgsl.Float32Array_elem (2 ^ 24 + 1)) = 2 ^ 24.
Proof.
  intros Hz. split; [|reflexivity].
  destruct (decide (z = 2 ^ 24)) as [->|Hne]; [reflexivity|].
  apply f32_exact_small. lia.
Qed.

Lemma X3_witness :
  Wgsl.u32_of_f32 (Wgsl.Float32Array_elem 4096) = 4096
  /\ Wgsl.u32_of_f32 (Wgsl.Float32Array_elem (2 ^ 24 + 1)) = 2 ^ 24.
Proof. apply (X3_parameter_round_trip 4096). lia. Defined.

(** [X4].  The reference loop never computes with a NaN: for a cell of a
    grid whose sizes are below [2^53], [zx] and [zy] are numbers each time the
    condition is evaluated, and finite whenever it holds and the body runs. *)
Theorem X4_loop_without_nan x y width height max_iter s :
  0 <= x < width -> 0 <= y < height -> width < 2 ^ 53 -> height < 2 ^ 53 ->
  cpu_visits (Cpu.cell_cx x width) (Cpu.cell_cy y height) max_iter s ->
  Cpu.zx s <> S754_nan /\ Cpu.zy s <> S754_nan
  /\ (Cpu.loop_cond max_iter s = true -> finite (Cpu.zx s) /\ finite (Cpu.zy s)).
Proof.
  intros Hx Hy Hw Hh Hs.
  destruct (cpu_visits_orbit _ _ _ _ Hs) as (n & Hn & Hin).
  destruct (sample_finite x y width height) as [Hcx Hcy]; [lia..|].
  destruct (orbit_not_nan (Spec.sample binary64 x y width height) n Hcx Hcy Hin)
    as [Hzx Hzy].
  change (Spec.sample binary64 x y width height)
    with (Cpu.cell_cx x width, Cpu.cell_cy y height) in Hzx, Hzy.
  rewrite <- Hn in Hzx, Hzy. split; [done|]. split; [done|].
  intros Hcond. unfold Cpu.loop_cond in Hcond.
  apply andb_true_iff in Hcond as [_ Hcond].
  destruct (inside_finite (Cpu.zx s, Cpu.zy s) Hcond) as (? & ? & _). done.
Qed.

Lemma X4_witness :
  Cpu.zx (Cpu.loop_body (Cpu.cell_cx 1 4) (Cpu.cell_cy 1 2)
            (Cpu.Vars (JS.num 0) (JS.num 0) 0)) <> S754_nan
  /\ Cpu.zy (Cpu.loop_body (Cpu.cell_cx 1 4) (Cpu.cell_cy 1 2)
               (Cpu.Vars (JS.num 0) (JS.num 0) 0)) <> S754_nan
  /\ (Cpu.loop_cond 16 (Cpu.loop_body (Cpu.cell_cx 1 4) (Cpu.cell_cy 1 2)
                          (Cpu.Vars (JS.num 0) (JS.num 0) 0)) = true ->
      finite (Cpu.zx (Cpu.loop_body (Cpu.cell_cx 1 4) (Cpu.cell_cy 1 2)
                        (Cpu.Vars (JS.num 0) (JS.num 0) 0)))
      /\ finite (Cpu.zy (Cpu.loop_body (Cpu.cell_cx 1 4) (Cpu.cell_cy 1 2)
                           (Cpu.Vars (JS.num 0) (JS.num 0) 0)))).
Proof.
  apply (X4_loop_without_nan 1 1 4 2 16); [lia|lia|lia|lia|].
  apply visits_next; [apply visits_first|reflexivity].
Defined.

(** [X5].  The escape count does not change when the sample point is
    replaced by its complex conjugate: the loop of the reference evaluator
    leaves the same [i] for [(cx, -cy)] as for [(cx, cy)], with whatever
    fuel. *)
Theorem X5_conjugate_point fuel cx cy max_iter :
  Cpu.escape_loop fuel cx (SFopp cy) max_iter = Cpu.escape_loop fuel cx cy max_iter.
Proof.
  unfold Cpu.escape_loop.
  pose proof (while_related
    (fun s s' : Cpu.vars =>
       Cpu.i s' = Cpu.i s
       /\ mirrored (Cpu.zx s, Cpu.zy s) (Cpu.zx s', Cpu.zy s'))
    (Cpu.loop_cond max_iter) (Cpu.loop_cond max_iter)
    (Cpu.loop_body cx cy) (Cpu.loop_body cx (SFopp cy)) fuel) as Hrel.
  specialize (Hrel
    ltac:(intros s s' [Hi Hz]; unfold Cpu.loop_cond; rewrite Hi;
          f_equal; symmetry; exact (inside_mirrored binary64 _ _ Hz))
    ltac:(intros s s' [Hi Hz]; split; [cbn; by rewrite Hi|];
          exact (step_mirrored binary64 cx cy (SFopp cy) _ _ (conjugate_opp cy) Hz))
    (Cpu.Vars (JS.num 0) (JS.num 0) 0) (Cpu.Vars (JS.num 0) (JS.num 0) 0)
    ltac:(split; [done|]; split; [done|]; apply conjugate_zero)).
  destruct (while fuel _ (fun s => Some (Cpu.loop_body cx cy s)) _) as [r|],
           (while fuel _ (fun s => Some (Cpu.loop_body cx (SFopp cy) s)) _) as [r'|];
    try done.
  destruct Hrel as [Hi _]. simpl. by rewrite Hi.
Qed.

(** [X6].  At each resolution marked on the slider the picture is
    symmetric about the real axis: in the array of either evaluator the
    entry of cell [(x, res - y)] is the entry of cell [(x, y)]. *)
Theorem X6_mirror_rows fuel res max_iter x y :
  res ∈ RESOLUTION_OPTIONS -> 0 <= x < res -> 0 < y < res ->
  0 <= max_iter < 2 ^ 24 ->
  (Z.to_nat res < fuel)%nat -> (Z.to_nat max_iter < fuel)%nat ->
  exists cpu gpu,
    Cpu.calculateMandelbrotCPU fuel res res max_iter = Some (JS.Normal cpu)
    /\ Wgsl.handleRun_gpu fuel res res max_iter = Some gpu
    /\ cpu !! Z.to_nat ((res - y) * res + x) = cpu !! Z.to_nat (y * res + x)
    /\ gpu !! Z.to_nat ((res - y) * res + x) = gpu !! Z.to_nat (y * res + x).
Proof.
  intros Hres Hx Hy Hm Hfr Hfm.
  pose proof (RESOLUTION_OPTIONS_range res Hres) as Hrange.
  assert (f32_exact res) as Er by (apply f32_exact_small; lia).
  assert (f32_exact max_iter) as Em by (apply f32_exact_small; lia).
  eexists _, _. split; [|split; [|split]].
  - apply cpu_returns; unfold JS.MAX_EXACT; try lia; nia.
  - apply gpu_returns. by rewrite Em.
  - rewrite !cpu_array_lookup by lia. do 2 f_equal.
    apply sample_mirror; [|done]. apply mirror_rows_options; [by left|done].
  - rewrite !gpu_array_lookup;
      [|done|done|done|nia|lia|lia|apply elem_of_invocations; lia
       |apply invocations_nonneg
       |done|done|done|nia|lia|lia|apply elem_of_invocations; lia
       |apply invocations_nonneg].
    f_equal. apply sample_mirror; [|done]. apply mirror_rows_options; [by right|done].
Qed.

Lemma X6_witness :
  exists cpu gpu,
    Cpu.calculateMandelbrotCPU 300 256 256 255 = Some (JS.Normal cpu)
    /\ Wgsl.handleRun_gpu 300 256 256 255 = Some gpu
    /\ cpu !! Z.to_nat ((256 - 100) * 256 + 30) = cpu !! Z.to_nat (100 * 256 + 30)
    /\ gpu !! Z.to_nat ((256 - 100) * 256 + 30) = gpu !! Z.to_nat (100 * 256 + 30).
Proof.
  apply (X6_mirror_rows 300 256 255 30 100);
    [|lia|lia|lia|lia|lia].
  unfold RESOLUTION_OPTIONS. apply list_elem_of_here.
Defined.





(** [X9].  The kernel keeps its cells too when the two sizes are doubled:
    in the array read back from the grid of [2 * width] by [2 * height],
    the entry of cell [(2x, 2y)] is the entry of cell [(x, y)] of the grid of
    [width] by [height]. *)
Theorem X9_doubled_grid_kernel fuel width height max_iter x y :
  0 <= x < width -> 0 <= y < height ->
  width < 2 ^ 23 -> height < 2 ^ 23 ->
  (2 * width) * (2 * height) <= 2 ^ 32 ->
  0 <= max_iter < 2 ^ 24 -> (Z.to_nat max_iter < fuel)%nat ->
  exists small large,
    Wgsl.handleRun_gpu fuel width height max_iter = Some small
    /\ Wgsl.handleRun_gpu fuel (2 * width) (2 * height) max_iter = Some large
    /\ large !! Z.to_nat (2 * y * (2 * width) + 2 * x)
       = small !! Z.to_nat (y * width + x).
Proof.
  intros Hx Hy Hw Hh Hwh Hm Hfm.
  assert (2 ^ 24 = 2 * 2 ^ 23) as Hpow by reflexivity.
  assert (f32_exact max_iter) as Em by (apply f32_exact_small; lia).
  assert (f32_exact width) as Ew by (apply f32_exact_small; lia).
  assert (f32_exact height) as Eh by (apply f32_exact_small; lia).
  assert (f32_exact (2 * width)) as Ew2 by (apply f32_exact_small; lia).
  assert (f32_exact (2 * height)) as Eh2 by (apply f32_exact_small; lia).
  eexists _, _. split; [|split].
  - apply gpu_returns. by rewrite Em.
  - apply gpu_returns. by rewrite Em.
  - rewrite !gpu_array_lookup;
      [|done|done|done|nia|lia|lia|apply elem_of_invocations; lia
       |apply invocations_nonneg
       |done|done|done|lia|lia|lia|apply elem_of_invocations; lia
       |apply invocations_nonneg].
    f_equal. f_equal. apply sample_double; simpl; lia.
Qed.

Lemma X9_witness :
  exists small large,
    Wgsl.handleRun_gpu 20 3 2 16 = Some small
    /\ Wgsl.handleRun_gpu 20 (2 * 3) (2 * 2) 16 = Some large
    /\ large !! Z.to_nat (2 * 1 * (2 * 3) + 2 * 1)
       = small !! Z.to_nat (1 * 3 + 1).
Proof. apply (X9_doubled_grid_kernel 20 3 2 16 1 1); lia. Defined.

(** [X10].  A run on the GPU in a browser without WebGPU, or without an
    adapter, ends in the [catch]: the error is reported, no timing is stored,
    the GPU canvas is left blank at the size of the resolution, the CPU result
    and canvas are not touched, and [isLoading] is false again. *)
Theorem X10_gpu_unavailable fuel E st c :
  App.canvas_gpu st = Some c -> App.isLoading st = false ->
  App.navigator_gpu E <> App.has_device ->
  exists st',
    App.handleRun fuel E App.gpu st = Some st'
    /\ App.isLoading st' = false
    /\ App.results_gpu st' = None
    /\ App.results_cpu st' = App.results_cpu st
    /\ App.canvas_cpu st' = App.canvas_cpu st
    /\ App.canvas_gpu st'
       = Some (App.resize (Z.pos (App.resolution st)) (Z.pos (App.resolution st)))
    /\ App.resolution st' = App.resolution st
    /\ App.console st'
       = App.Error (match App.navigator_gpu E with
                | App.no_gpu => "WebGPU not supported on this browser."
                | _ => "No appropriate GPUAdapter found."
                end) :: App.console st
    /\ App.alerts st'
       = "Error during GPU computation. Check console for details."%string
         :: App.alerts st.
Proof.
  intros Hc Hl HE. unfold App.handleRun. cbn [App.canvas_of]. rewrite Hc, Hl.
  destruct (App.navigator_gpu E) eqn:Hgpu; [| |done].
  - eexists. unfold App.compute. rewrite Hgpu. cbn. by repeat split.
  - eexists. unfold App.compute. rewrite Hgpu. cbn. by repeat split.
Qed.

Lemma X10_witness :
  exists st',
    App.handleRun 0 {| App.navigator_gpu := App.no_gpu; App.startTime := JS.num 0; App.endTime := JS.num 1 |}
      App.gpu {| App.isLoading := false; App.resolution := 1024;
             App.results_cpu := None; App.results_gpu := None;
             App.canvas_cpu := None; App.canvas_gpu := Some (App.resize 300 150);
             App.console := []; App.alerts := [] |} = Some st'
    /\ App.isLoading st' = false
    /\ App.results_gpu st' = None
    /\ App.results_cpu st' = None
    /\ App.canvas_cpu st' = None
    /\ App.canvas_gpu st' = Some (App.resize 1024 1024)
    /\ App.resolution st' = 1024%positive
    /\ App.console st' = [App.Error "WebGPU not supported on this browser."]
    /\ App.alerts st' = ["Error during GPU computation. Check console for details."%string].
Proof.
  apply (X10_gpu_unavailable 0
    {| App.navigator_gpu := App.no_gpu; App.startTime := JS.num 0; App.endTime := JS.num 1 |}
    {| App.isLoading := false; App.resolution := 1024;
       App.results_cpu := None; App.results_gpu := None;
       App.canvas_cpu := None; App.canvas_gpu := Some (App.resize 300 150);
       App.console := []; App.alerts := [] |} (App.resize 300 150));
    [reflexivity|reflexivity|discriminate].
Defined.

(** [X11].  A run that succeeds stores its timing and paints its canvas
    from the array of its evaluator: the canvas has the size of the
    resolution, the pixel of cell [(x, y)] gets the colour of that cell's
    escape count (computed in binary64 on the CPU, in binary32 in the kernel)
    with full opacity, the other run's result and canvas are kept, and
    [isLoading] is false again. *)
Theorem X11_run_paints fuel E type st c :
  App.canvas_of type st = Some c -> App.isLoading st = false ->
  (type = App.gpu -> App.navigator_gpu E = App.has_device) ->
  let r := Z.pos (App.resolution st) in
  r <= 65536 -> (Z.to_nat r < fuel)%nat -> (255 < fuel)%nat ->
  exists st' pixels,
    App.handleRun fuel E type st = Some st'
    /\ App.isLoading st' = false
    /\ App.resolution st' = App.resolution st
    /\ App.result_of type st'
       = Some {| App.method := App.toUpperCase type;
                 App.time := fsub binary64 (App.endTime E) (App.startTime E); App.res := r |}
    /\ App.canvas_of type st' = Some {| App.c_width := r; App.c_height := r; App.bitmap := pixels |}
    /\ (forall other, other <> type ->
          App.result_of other st' = App.result_of other st
          /\ App.canvas_of other st' = App.canvas_of other st)
    /\ length pixels = Z.to_nat (r * r * 4)
    /\ forall x y, 0 <= x < r -> 0 <= y < r ->
         let count :=
           Spec.escape_count (arithmetic_of type)
             (Spec.sample (arithmetic_of type) x y r r) Draw.MAX_ITERATIONS in
         let p := Z.to_nat (y * r + x) in
         pixels !! (4 * p)%nat = Some (Draw.colorize count).1.1
         /\ pixels !! (4 * p + 1)%nat = Some (Draw.colorize count).1.2
         /\ pixels !! (4 * p + 2)%nat = Some (Draw.colorize count).2
         /\ pixels !! (4 * p + 3)%nat = Some 255.
Proof.
  intros Hc Hl HE r Hr Hfr Hfm.
  destruct (run_array fuel E type r r) as (data & Hrun & Hlen & Hdata);
    [lia|lia|done|done|done|done|].
  unfold App.handleRun. rewrite Hc, Hl.
  change (App.resolution (App.setResult type None (App.setIsLoading true st)))
    with (App.resolution st).
  fold r. rewrite Hrun. cbn [mbind option_bind].
  eexists _, _. split; [reflexivity|]. split_and!.
  - done.
  - done.
  - by destruct type.
  - by destruct type.
  - intros other Hne. by destruct type, other.
  - rewrite length_drawMandelbrot. unfold App.createImageData. by rewrite length_replicate.
  - intros x y Hx Hy.
    set (count := Spec.escape_count _ _ _).
    set (p := Z.to_nat (y * r + x)).
    pose proof (drawMandelbrot_lookup (App.createImageData r r) data p count) as Hdraw.
    destruct (Draw.colorize count) as [[red green] blue]. apply Hdraw.
    + apply Hdata; done.
    + unfold App.createImageData. rewrite length_replicate. subst p. nia.
Qed.

Lemma X11_witness :
  let st := {| App.isLoading := false; App.resolution := 4;
               App.results_cpu := None; App.results_gpu := None;
               App.canvas_cpu := Some (App.resize 300 150); App.canvas_gpu := None;
               App.console := []; App.alerts := [] |} in
  let E := {| App.navigator_gpu := App.no_gpu; App.startTime := JS.num 0; App.endTime := JS.num 1 |} in
  exists st' pixels,
    App.handleRun 300 E App.cpu st = Some st'
    /\ App.isLoading st' = false
    /\ App.resolution st' = App.resolution st
    /\ App.result_of App.cpu st'
       = Some {| App.method := App.toUpperCase App.cpu;
                 App.time := fsub binary64 (App.endTime E) (App.startTime E); App.res := 4 |}
    /\ App.canvas_of App.cpu st' = Some {| App.c_width := 4; App.c_height := 4; App.bitmap := pixels |}
    /\ (forall other, other <> App.cpu ->
          App.result_of other st' = App.result_of other st
          /\ App.canvas_of other st' = App.canvas_of other st)
    /\ length pixels = Z.to_nat (4 * 4 * 4)
    /\ forall x y, 0 <= x < 4 -> 0 <= y < 4 ->
         let count :=
           Spec.escape_count (arithmetic_of App.cpu)
             (Spec.sample (arithmetic_of App.cpu) x y 4 4) Draw.MAX_ITERATIONS in
         let p := Z.to_nat (y * 4 + x) in
         pixels !! (4 * p)%nat = Some (Draw.colorize count).1.1
         /\ pixels !! (4 * p + 1)%nat = Some (Draw.colorize count).1.2
         /\ pixels !! (4 * p + 2)%nat = Some (Draw.colorize count).2
         /\ pixels !! (4 * p + 3)%nat = Some 255.
Proof.
  intros st E.
  apply (X11_run_paints 300 E App.cpu st (App.resize 300 150));
    [reflexivity|reflexivity|discriminate|simpl; lia|simpl; lia|lia].
Defined.



(** [X13].  With both results in, [RenderWinner] names the CPU the
    faster method exactly when its time is strictly below the GPU's, and the
    other method the slower one; the difference it prints is never negative.
    On equal times it is the GPU that is named faster, by a difference of
    [+0] and, for a time that is not zero, a factor of exactly 1; two times of
    zero give the factor NaN. *)
Theorem X13_winner st rcpu rgpu :
  App.results_cpu st = Some rcpu -> App.results_gpu st = Some rgpu ->
  exists w,
    App.RenderWinner st = Some w
    /\ (App.fasterMethod w, App.slowerMethod w)
       = (if flt (App.time rcpu) (App.time rgpu) then ("CPU", "GPU") else ("GPU", "CPU"))%string
    /\ flt (App.difference w) (JS.num 0) = false
    /\ (App.time rgpu = App.time rcpu ->
        App.fasterMethod w = "GPU"%string
        /\ (finite (App.time rcpu) -> App.difference w = S754_zero false)
        /\ (forall s m e, App.time rcpu = S754_finite s m e -> App.factor w = JS.num 1)
        /\ (is_zero (App.time rcpu) = true -> App.factor w = S754_nan)).
Proof.
  intros Hc Hg. unfold App.RenderWinner. rewrite Hc, Hg. eexists.
  split; [reflexivity|]. cbn [App.fasterMethod App.slowerMethod App.difference App.factor].
  split; [by destruct (flt (App.time rcpu) (App.time rgpu))|].
  split.
  { unfold fabs. by destruct (fsub binary64 (App.time rcpu) (App.time rgpu)). }
  intros ->. rewrite flt_irrefl.
  split; [done|]. split; [|split].
  - intros Hfin. by rewrite fsub_diag.
  - intros s m e ->. rewrite Math_max_diag, Math_min_diag. apply fdiv_diag.
  - intros Hz. apply is_zero_inv in Hz as [s ->].
    rewrite Math_max_diag, Math_min_diag. by destruct s.
Qed.

Lemma X13_witness :
  let st := {| App.isLoading := false; App.resolution := 1024;
               App.results_cpu := Some {| App.method := "CPU"; App.time := JS.num 7; App.res := 1024 |};
               App.results_gpu := Some {| App.method := "GPU"; App.time := JS.num 7; App.res := 1024 |};
               App.canvas_cpu := None; App.canvas_gpu := None;
               App.console := []; App.alerts := [] |} in
  exists w,
    App.RenderWinner st = Some w
    /\ (App.fasterMethod w, App.slowerMethod w)
       = (if flt (JS.num 7) (JS.num 7) then ("CPU", "GPU") else ("GPU", "CPU"))%string
    /\ flt (App.difference w) (JS.num 0) = false
    /\ (JS.num 7 = JS.num 7 ->
        App.fasterMethod w = "GPU"%string
        /\ (finite (JS.num 7) -> App.difference w = S754_zero false)
        /\ (forall s m e, JS.num 7 = S754_finite s m e -> App.factor w = JS.num 1)
        /\ (is_zero (JS.num 7) = true -> App.factor w = S754_nan)).
Proof.
  intros st.
  apply (X13_winner st {| App.method := "CPU"; App.time := JS.num 7; App.res := 1024 |}
           {| App.method := "GPU"; App.time := JS.num 7; App.res := 1024 |});
    reflexivity.
Defined.

(** [X14].  [drawMandelbrot] writes the four bytes of pixel [i] for each
    index [i] of [data] and nothing else: the buffer keeps its length, the
    alpha byte of every pixel it colours is 255, and the bytes past the last
    entry of [data] are left as they were. *)
Theorem X14_draw_frame img data :
  length (Draw.drawMandelbrot img data) = length img
  /\ (forall (i : nat) iter,
        data !! i = Some iter -> (4 * i + 3 < length img)%nat ->
        Draw.drawMandelbrot img data !! (4 * i + 3)%nat = Some 255)
  /\ (forall j : nat,
        (4 * length data <= j)%nat ->
        Draw.drawMandelbrot img data !! j = img !! j).
Proof.
  split; [apply length_drawMandelbrot|]. split.
  - intros i iter Hi Hlen.
    pose proof (drawMandelbrot_lookup img data i iter Hi Hlen) as Hdraw.
    destruct (Draw.colorize iter) as [[r g] b]. apply Hdraw.
  - apply drawMandelbrot_untouched.
Qed.

(** [X15].  Escape counts are drawn in colours of their own: two
    different counts from 0 to 255 never get the same three bytes. *)
Theorem X15_colours_distinct i j :
  0 <= i <= 255 -> 0 <= j <= 255 -> i <> j ->
  Draw.colorize i <> Draw.colorize j.
Proof.
  intros Hi Hj Hne Heq. apply Hne.
  assert (forall k, 0 <= k <= 255 ->
    (Draw.colorize <$> seqZ 0 256) !! Z.to_nat k = Some (Draw.colorize k)) as Hlook.
  { intros k Hk. rewrite list_lookup_fmap, lookup_seqZ_lt by lia.
    simpl. f_equal. f_equal. lia. }
  pose proof (proj1 (NoDup_alt _) colours_NoDup (Z.to_nat i) (Z.to_nat j)
                (Draw.colorize i) (Hlook i Hi)) as Hinj.
  rewrite Heq in Hinj. specialize (Hinj (Hlook j Hj)). lia.
Qed.

Lemma X15_witness : Draw.colorize 100 <> Draw.colorize 101.
Proof. apply (X15_colours_distinct 100 101); lia. Defined.

(** [X16].  Whatever the two input fields hold, the benchmark runs with a
    matrix size of at least 8 and at least 1 iteration, both below [2^31]; a
    field that reads as NaN or as an infinity gives the floor itself. *)
Theorem X16_sizes_have_a_floor v :
  8 <= AiBench.matrix_size v < 2 ^ 31
  /\ 1 <= AiBench.iterations v < 2 ^ 31
  /\ (~ finite v -> AiBench.matrix_size v = 8 /\ AiBench.iterations v = 1).
Proof.
  unfold AiBench.matrix_size, AiBench.iterations.
  pose proof (ToInt32_range v) as Hr. split; [lia|]. split; [lia|].
  intros Hv. unfold AiBench.ToInt32.
  destruct v as [s|s| |s m e]; simpl in *; try done; by destruct Hv.
Qed.

(** [X17].  A field holding an integer [n] of 32 bits is taken as it is,
    raised to the floor; an integer beyond 32 bits wraps around first, so
    that [n + k * 2^32] is read as [n]: the size [2^31], which wraps to
    [-2^31], runs the benchmark at size 8. *)
Theorem X17_sizes_wrap n k :
  - 2 ^ 31 <= n < 2 ^ 31 -> - 2 ^ 53 < n + k * 2 ^ 32 < 2 ^ 53 ->
  AiBench.matrix_size (JS.num (n + k * 2 ^ 32)) = Z.max 8 n
  /\ AiBench.iterations (JS.num (n + k * 2 ^ 32)) = Z.max 1 n.
Proof.
  intros Hn Hk. unfold AiBench.matrix_size, AiBench.iterations, AiBench.ToInt32, JS.num.
  rewrite ftrunc_of_Z by done.
  replace (n + k * 2 ^ 32 + 2 ^ 31) with (n + 2 ^ 31 + k * 2 ^ 32) by lia.
  rewrite Z.mod_add by lia. rewrite Z.mod_small by lia. lia.
Qed.

Lemma X17_witness :
  AiBench.matrix_size (JS.num (- 2 ^ 31 + 1 * 2 ^ 32)) = Z.max 8 (- 2 ^ 31)
  /\ AiBench.iterations (JS.num (- 2 ^ 31 + 1 * 2 ^ 32)) = Z.max 1 (- 2 ^ 31).
Proof. apply (X17_sizes_wrap (- 2 ^ 31) 1); lia. Defined.

(** [X18].  One pass of the matrix kernel overwrites the whole of [C]:
    whatever the buffer held, element [row * N + col] becomes [tanh] of the
    sum of cell [(row, col)], for every [row] and [col] below [N], and the
    buffer keeps its [N * N] elements. *)
Theorem X18_pass_fills_C tanh stray fuel N A B C :
  0 < N <= 65536 -> length C = Z.to_nat (N * N) -> (Z.to_nat N < fuel)%nat ->
  exists C',
    AiBench.pass tanh stray fuel N A B C = Some C'
    /\ length C' = Z.to_nat (N * N)
    /\ forall row col, 0 <= row < N -> 0 <= col < N ->
         C' !! Z.to_nat (row * N + col)
         = Some (tanh (AiBench.dot stray N A B row col)).
Proof.
  intros HN Hlen Hfuel. exists (matrix_product tanh stray N A B).
  split; [|split].
  - rewrite matrix_pass by done. f_equal. by apply matrix_writes.
  - by apply length_matrix_product.
  - intros row col Hrow Hcol.
    rewrite matrix_product_lookup by (done || nia).
    rewrite Z2Nat.id by nia. do 3 f_equal.
    + rewrite Z.div_add_l by lia. rewrite Z.div_small by lia. lia.
    + rewrite Z.add_comm, Z.mod_add by lia. apply Z.mod_small. lia.
Qed.

Lemma X18_witness :
  exists C',
    AiBench.pass (fun v => v) (fun _ _ => Wgsl.lit 0 0) 10 8
      (replicate 64 (Wgsl.lit 1 0)) (replicate 64 (Wgsl.lit 1 0))
      (replicate 64 (Wgsl.lit 0 0)) = Some C'
    /\ length C' = Z.to_nat (8 * 8)
    /\ forall row col, 0 <= row < 8 -> 0 <= col < 8 ->
         C' !! Z.to_nat (row * 8 + col)
         = Some (AiBench.dot (fun _ _ => Wgsl.lit 0 0) 8
                   (replicate 64 (Wgsl.lit 1 0)) (replicate 64 (Wgsl.lit 1 0))
                   row col).
Proof.
  apply (X18_pass_fills_C (fun v => v) (fun _ _ => Wgsl.lit 0 0) 10 8
           (replicate 64 (Wgsl.lit 1 0)) (replicate 64 (Wgsl.lit 1 0))
           (replicate 64 (Wgsl.lit 0 0)));
    [lia|reflexivity|lia].
Defined.

(** [X19].  The passes of the benchmark all write the same values: after
    any number of passes from 1 on, [C] holds what a single pass leaves, and
    with no pass it is left as it was. *)
Theorem X19_passes_repeat tanh stray fuel N iters A B C :
  0 < N <= 65536 -> length C = Z.to_nat (N * N) ->
  iters <= 2 ^ 53 ->
  (Z.to_nat N < fuel)%nat -> (Z.to_nat iters < fuel)%nat ->
  AiBench.passes tanh stray fuel N iters A B C
  = if 1 <=? iters then AiBench.pass tanh stray fuel N A B C else Some C.
Proof.
  intros HN Hlen Hiters HfN Hfi. unfold AiBench.passes.
  rewrite (for_loop_total _
    (fun _ C => writes (matrix_index N) (matrix_value tanh stray N A B) C
                  (filter (matrix_inside N)
                     (Wgsl.invocations (Wgsl.workgroups N) (Wgsl.workgroups N)))));
    [|done|done|intros k a _; by apply matrix_pass].
  destruct (1 <=? iters) eqn:Hle.
  - apply Z.leb_le in Hle. rewrite matrix_pass by done. f_equal.
    replace iters with (Z.succ (iters - 1)) by lia.
    rewrite seqZ_cons by lia. cbn [foldl].
    rewrite (matrix_writes tanh stray N A B HN C Hlen).
    generalize (seqZ (Z.succ 0) (Z.pred (Z.succ (iters - 1)))) as l.
    induction l as [|k l IH]; [done|]. cbn [foldl].
    rewrite (matrix_writes tanh stray N A B HN); [done|].
    by apply length_matrix_product.
  - apply Z.leb_gt in Hle. by rewrite seqZ_nil by lia.
Qed.

Lemma X19_witness :
  AiBench.passes (fun v => v) (fun _ _ => Wgsl.lit 0 0) 12 8 10
    (replicate 64 (Wgsl.lit 1 0)) (replicate 64 (Wgsl.lit 1 0))
    (replicate 64 (Wgsl.lit 0 0))
  = if 1 <=? 10
    then AiBench.pass (fun v => v) (fun _ _ => Wgsl.lit 0 0) 12 8
           (replicate 64 (Wgsl.lit 1 0)) (replicate 64 (Wgsl.lit 1 0))
           (replicate 64 (Wgsl.lit 0 0))
    else Some (replicate 64 (Wgsl.lit 0 0)).
Proof.
  apply (X19_passes_repeat (fun v => v) (fun _ _ => Wgsl.lit 0 0) 12 8 10
           (replicate 64 (Wgsl.lit 1 0)) (replicate 64 (Wgsl.lit 1 0))
           (replicate 64 (Wgsl.lit 0 0)));
    [lia|reflexivity|lia|lia|lia].
Defined.

(** [X20].  The object [getGPUInfo] returns has the two keys [vendor] and
    [renderer] and no other, in every browser; in particular it has no
    [adapter] and no [device].  Without a WebGL context both entries are the
    string [Unknown]. *)
Theorem X20_info_keys b :
  dom (Browser.getGPUInfo b) = ({[ "vendor"; "renderer" ]} : gset string)
  /\ Browser.get (Browser.getGPUInfo b) "adapter" = Browser.Undefined
  /\ Browser.get (Browser.getGPUInfo b) "device" = Browser.Undefined
  /\ (Browser.webgl b = None -> Browser.experimental_webgl b = None ->
      Browser.get (Browser.getGPUInfo b) "vendor" = Browser.Str "Unknown"
      /\ Browser.get (Browser.getGPUInfo b) "renderer" = Browser.Str "Unknown").
Proof.
  unfold Browser.getGPUInfo, Browser.get.
  split; [|split; [|split]].
  - destruct (Browser.webgl b) as [gl|]; [|destruct (Browser.experimental_webgl b) as [gl|]];
      try destruct (Browser.debug_renderer_info gl); set_solver.
  - destruct (Browser.webgl b) as [gl|]; [|destruct (Browser.experimental_webgl b) as [gl|]];
      try destruct (Browser.debug_renderer_info gl); done.
  - destruct (Browser.webgl b) as [gl|]; [|destruct (Browser.experimental_webgl b) as [gl|]];
      try destruct (Browser.debug_renderer_info gl); done.
  - intros -> ->. done.
Qed.

(** [X21].  The two versions of [initWebGPU] get the same adapter and
    device: since [getGPUInfo()] has no [adapter] and no [device], the
    triangle page always falls through to [requestAdapter()] and
    [requestDevice()], as the geometry page does.  In every browser both
    return the same handles or throw the same exception: the error
    [WebGPU not supported] exactly when [navigator.gpu] is missing, a
    TypeError when the adapter or the canvas context is not an object. *)
Theorem X21_init_versions_agree b :
  snd (Browser.initWebGPU_basic b) = snd (Browser.initWebGPU_geometry b)
  /\ (snd (Browser.initWebGPU_basic b) = inl (Browser.Error "WebGPU not supported")
      <-> Browser.navigator_gpu b = None)
  /\ (forall gpu, Browser.navigator_gpu b = Some gpu ->
        snd (Browser.initWebGPU_basic b)
        = match Browser.requestAdapter gpu, Browser.webgpu b with
          | Browser.Object _, Browser.Object _ =>
              inr {| Browser.device := Browser.requestDevice gpu; Browser.context := Browser.webgpu b;
                     Browser.format := Browser.getPreferredCanvasFormat gpu |}
          | _, _ => inl Browser.TypeError
          end).
Proof.
  destruct (getGPUInfo_no_handles b) as [Ha Hd].
  unfold Browser.initWebGPU_basic, Browser.initWebGPU_geometry. rewrite Ha, Hd. cbn [Browser.truthy].
  destruct (Browser.navigator_gpu b) as [gpu|]; cbn.
  - split; [|split].
    + by destruct (Browser.requestAdapter gpu), (Browser.webgpu b).
    + split; [|done]. by destruct (Browser.requestAdapter gpu), (Browser.webgpu b).
    + intros ? [= <-]. by destruct (Browser.requestAdapter gpu), (Browser.webgpu b).
  - split; [done|]. split; [done|]. intros gpu [=].
Qed.

(** [X22].  What the reference evaluator's array is in binary64, the
    kernel's array is in binary32: for sizes and a cap below [2^24] it has
    [width * height] entries, and the one at [y * width + x] is the escape
    count of the cell's sample point, the first index [i] with [i = max_iter]
    or [zx*zx + zy*zy >= 4.0], every index below it passing the strict
    comparison; no other index fits that description. *)
Theorem X22_kernel_array fuel width height max_iter :
  0 < width < 2 ^ 24 -> 0 < height < 2 ^ 24 -> width * height <= 2 ^ 32 ->
  0 <= max_iter < 2 ^ 24 -> (Z.to_nat max_iter < fuel)%nat ->
  exists gpu,
    Wgsl.handleRun_gpu fuel width height max_iter = Some gpu
    /\ length gpu = Z.to_nat (width * height)
    /\ forall x y, 0 <= x < width -> 0 <= y < height ->
         exists i, gpu !! Z.to_nat (y * width + x) = Some i
           /\ Spec.is_escape_count binary32
                (Spec.sample binary32 x y width height) max_iter i
           /\ forall i', Spec.is_escape_count binary32
                           (Spec.sample binary32 x y width height) max_iter i' ->
                         i' = i.
Proof.
  intros Hw Hh Hwh Hm Hfm.
  assert (f32_exact max_iter) as Em by (apply f32_exact_small; lia).
  assert (f32_exact width) as Ew by (apply f32_exact_small; lia).
  assert (f32_exact height) as Eh by (apply f32_exact_small; lia).
  eexists. split; [|split].
  - apply gpu_returns. by rewrite Em.
  - apply length_gpu_array.
  - intros x y Hx Hy.
    assert (Spec.is_escape_count binary32 (Spec.sample binary32 x y width height) max_iter
              (Spec.escape_count binary32 (Spec.sample binary32 x y width height) max_iter))
      as Hcount by (apply escape_count_is_escape_count32; lia).
    eexists. split; [|split; [exact Hcount|]].
    + apply gpu_array_lookup; try done.
      * by apply elem_of_invocations.
      * apply invocations_nonneg.
    + intros i' Hi'. exact (is_escape_count_unique _ _ _ _ _ Hi' Hcount).
Qed.

Lemma X22_witness :
  exists gpu,
    Wgsl.handleRun_gpu 20 4 2 16 = Some gpu
    /\ length gpu = Z.to_nat (4 * 2)
    /\ forall x y, 0 <= x < 4 -> 0 <= y < 2 ->
         exists i, gpu !! Z.to_nat (y * 4 + x) = Some i
           /\ Spec.is_escape_count binary32 (Spec.sample binary32 x y 4 2) 16 i
           /\ forall i', Spec.is_escape_count binary32
                           (Spec.sample binary32 x y 4 2) 16 i' -> i' = i.
Proof. apply (X22_kernel_array 20 4 2 16); lia. Defined.

(** [X23].  The kernel's counts are clamps of one escape time too: for
    two caps [m <= m'] below [2^24], the array read back under [m] is the
    array read back under [m'] with every entry clamped at [m]. *)
Theorem X23_kernel_caps_clamp fuel width height m m' :
  0 < width < 2 ^ 24 -> 0 < height < 2 ^ 24 -> width * height <= 2 ^ 32 ->
  0 <= m <= m' -> m' < 2 ^ 24 -> (Z.to_nat m' < fuel)%nat ->
  exists gpu gpu',
    Wgsl.handleRun_gpu fuel width height m = Some gpu
    /\ Wgsl.handleRun_gpu fuel width height m' = Some gpu'
    /\ gpu = (fun k' => Z.min k' m) <$> gpu'.
Proof.
  intros Hw Hh Hwh Hm Hm' Hfm.
  assert (f32_exact m) as Em by (apply f32_exact_small; lia).
  assert (f32_exact m') as Em' by (apply f32_exact_small; lia).
  assert (f32_exact width) as Ew by (apply f32_exact_small; lia).
  assert (f32_exact height) as Eh by (apply f32_exact_small; lia).
  eexists _, _. split; [|split].
  - apply gpu_returns. rewrite Em. lia.
  - apply gpu_returns. by rewrite Em'.
  - apply list_eq. intros k. rewrite list_lookup_fmap.
    destruct (decide (k < Z.to_nat (width * height))%nat) as [Hk|Hk].
    + destruct (index_cell width height k ltac:(lia) Hk) as (Hx & Hy & Hidx).
      rewrite <- Hidx.
      rewrite !gpu_array_lookup;
        [|done|done|done|done|done|done|by apply elem_of_invocations
         |apply invocations_nonneg
         |done|done|done|done|done|done|by apply elem_of_invocations
         |apply invocations_nonneg].
      simpl. by rewrite (escape_count_clamp _ _ m m').
    + rewrite !lookup_ge_None_2; [done|rewrite length_gpu_array; lia..].
Qed.

Lemma X23_witness :
  exists gpu gpu',
    Wgsl.handleRun_gpu 300 64 8 16 = Some gpu
    /\ Wgsl.handleRun_gpu 300 64 8 255 = Some gpu'
    /\ gpu = (fun k' => Z.min k' 16) <$> gpu'.
Proof. apply (X23_kernel_caps_clamp 300 64 8 16 255); lia. Defined.

(** [X24].  On an image buffer of four bytes per entry of [data],
    [drawMandelbrot] overwrites everything: whatever the buffer held, it ends
    up as the colour bytes of the first count followed by 255, those of the
    second followed by 255, and so on. *)
Theorem X24_draw_overwrites img data :
  length img = (4 * length data)%nat ->
  Draw.drawMandelbrot img data = data ≫= pixel_bytes.
Proof.
  intros Hlen. apply list_eq. intros j.
  destruct (decide (j < 4 * length data)%nat) as [Hj|Hj].
  - pose proof (Nat.div_mod_eq j 4) as Hdm.
    pose proof (Nat.mod_upper_bound j 4 ltac:(lia)) as Hk.
    remember (j / 4)%nat as i eqn:Heqi. remember (j mod 4)%nat as k eqn:Heqk.
    clear Heqi Heqk. subst j.
    assert (i < length data)%nat as Hi by lia.
    destruct (lookup_lt_is_Some_2 data i Hi) as [iter Hiter].
    rewrite (bind_pixel_lookup data i k iter Hiter Hk).
    pose proof (drawMandelbrot_lookup img data i iter Hiter ltac:(lia)) as Hdraw.
    unfold pixel_bytes. destruct (Draw.colorize iter) as [[r g] b].
    destruct Hdraw as (Hr & Hg & Hb & Ha).
    destruct k as [|[|[|[|k]]]]; [| | | |lia].
    + by rewrite Nat.add_0_r.
    + done.
    + done.
    + done.
  - rewrite !lookup_ge_None_2; [done|rewrite length_bind_pixel; lia|].
    rewrite length_drawMandelbrot. lia.
Qed.

Lemma X24_witness :
  Draw.drawMandelbrot (replicate 8 7) [255; 100] = [255; 100] ≫= pixel_bytes.
Proof. apply (X24_draw_overwrites (replicate 8 7) [255; 100]). reflexivity. Defined.

(** [X25].  At each resolution marked on the slider the two evaluators
    sample the same points: for every cell, the [cx] and [cy] the kernel
    computes in [f32] have exactly the values [calculateMandelbrotCPU]
    computes in binary64.  At 768, a resolution the slider also reaches, they
    do not: the [cx] of column 1 differs. *)
Theorem X25_same_sample_points res max_iter x y :
  res ∈ RESOLUTION_OPTIONS -> 0 <= x < res -> 0 <= y < res ->
  same_value (Cpu.cell_cx x res) (Wgsl.cell_cx (Wgsl.uniform res res max_iter) x)
  /\ same_value (Cpu.cell_cy y res) (Wgsl.cell_cy (Wgsl.uniform res res max_iter) y)
  /\ ~ same_value (Cpu.cell_cx 1 768)
                  (Wgsl.cell_cx (Wgsl.uniform 768 768 max_iter) 1).
Proof.
  intros Hres Hx Hy.
  pose proof (same_points_options res Hres) as Hall.
  unfold same_points in Hall. rewrite forallb_forall in Hall.
  split; [|split].
  - specialize (Hall x ltac:(apply list_elem_of_In, elem_of_seqZ; lia)).
    apply andb_true_iff in Hall as [Hcx _]. by apply same_valueb_sound.
  - specialize (Hall y ltac:(apply list_elem_of_In, elem_of_seqZ; lia)).
    apply andb_true_iff in Hall as [_ Hcy]. by apply same_valueb_sound.
  - intros (qa & qb & Ha & Hb & Heq).
    vm_compute in Ha, Hb. simplify_eq. vm_compute in Heq. discriminate.
Qed.

Lemma X25_witness :
  same_value (Cpu.cell_cx 30 256) (Wgsl.cell_cx (Wgsl.uniform 256 256 255) 30)
  /\ same_value (Cpu.cell_cy 100 256) (Wgsl.cell_cy (Wgsl.uniform 256 256 255) 100)
  /\ ~ same_value (Cpu.cell_cx 1 768)
                  (Wgsl.cell_cx (Wgsl.uniform 768 768 255) 1).
Proof.
  apply (X25_same_sample_points 256 255 30 100); [|lia|lia].
  unfold RESOLUTION_OPTIONS. apply list_elem_of_here.
Defined.
